(** * file-viewer: a shallow embedding of the workspace components

    The development follows the TypeScript sources:

    - [App] (upload list, selection snapshot, object-URL lifecycle),
    - [FileViewer] (view/edit switch and the two dispatch chains),
    - [ExcelEditor] (grid parse / mutate / export),
    - [PDFEditor] (annotation overlay, coordinate mapping, export),
    - [ImageEditor] (fabric canvas scene).

    React state is written as explicit state passing: every handler is a
    function from the component state (and its arguments) to the next state.
    Browser and third-party services the handlers call ([URL.createObjectURL],
    [Date.now], the XLSX codec, pdf-lib, fabric) appear either as inputs of the
    handlers or as small models that are documented where they are defined. *)

From Stdlib Require Import ZArith QArith Qround Qminmax Lia Lqa.
From stdpp Require Import gmap strings list pretty.

Open Scope string_scope.
Open Scope list_scope.

(** ** JavaScript string helpers *)

Module Js.

(** [s.includes(sub)] *)
Fixpoint includes (s sub : string) : bool :=
  if String.prefix sub s then true
  else match s with
       | EmptyString => false
       | String _ rest => includes rest sub
       end.

(** [s.endsWith(suffix)] *)
Definition endsWith (s suffix : string) : bool :=
  let n := String.length s in
  let m := String.length suffix in
  if (m <=? n)%nat then String.eqb (String.substring (n - m) m s) suffix
  else false.

End Js.

(** ** Session dispatcher (FileViewer.renderEditor / renderViewer) *)

Module Dispatch.

Inductive Strategy := PaginatedDoc | Grid | Scene | PlainText.

(** The chain of [if]s of [renderEditor]: PDFEditor, ExcelEditor,
    ImageEditor, and the textarea fallback. *)
Definition renderEditor (type name : string) : Strategy :=
  if Js.includes type "pdf" then PaginatedDoc
  else if Js.includes type "sheet" || Js.includes type "excel"
          || Js.endsWith name ".xlsx" || Js.endsWith name ".xls"
          || Js.endsWith name ".csv" then Grid
  else if Js.includes type "image" then Scene
  else PlainText.

(** The chain of [if]s of [renderViewer]: the [img] preview, the [iframe],
    the table preview, and the [pre] fallback. *)
Definition renderViewer (type name : string) : Strategy :=
  if Js.includes type "image" then Scene
  else if Js.includes type "pdf" then PaginatedDoc
  else if Js.includes type "sheet" || Js.includes type "excel"
          || Js.endsWith name ".csv" then Grid
  else PlainText.

(** The two notions the specification's priority rule is phrased with (these
    follow the specification, not a source function): the strategy a declared
    type names by itself, paginated, image or tabular, and the tabular
    extensions of the fallback. *)
Definition type_match (type : string) : option Strategy :=
  if Js.includes type "pdf" then Some PaginatedDoc
  else if Js.includes type "image" then Some Scene
  else if Js.includes type "sheet" || Js.includes type "excel" then Some Grid
  else None.

Definition extension_match (name : string) : bool :=
  Js.endsWith name ".xlsx" || Js.endsWith name ".xls" || Js.endsWith name ".csv".

(** The second test of [renderEditor]: a tabular type or a tabular extension. *)
Definition tabular (type name : string) : bool :=
  Js.includes type "sheet" || Js.includes type "excel" || extension_match name.

End Dispatch.

(** ** Resource store (App) *)

Module Store.

(** Calls made to the browser's object-URL registry, in program order. *)
Inductive url_event :=
| CreateObjectURL (u : nat)
| RevokeObjectURL (u : nat).

(** The browser [File] handed to [handleFileUpload]; [f_text] is the outcome
    of [file.text()], [None] when the promise rejects. *)
Record File := {
  f_name : string;
  f_type : string;
  f_size : Z;
  f_text : option string
}.

Record Blob := { blob_size : Z }.

Record UploadedFile := {
  id : string;
  name : string;
  type : string;
  size : Z;
  url : nat;
  content : string
}.

(** [uploadedFiles] and [selectedFile] are the two [useState] cells of [App];
    [next_url] and [url_log] stand for the browser's registry:
    [URL.createObjectURL] hands out a URL never seen before. *)
Record App := {
  uploadedFiles : list UploadedFile;
  selectedFile : option UploadedFile;
  next_url : nat;
  url_log : list url_event
}.

Definition init : App :=
  {| uploadedFiles := []; selectedFile := None; next_url := 0; url_log := [] |}.

(** [`${Date.now()}-${i}`] *)
Definition mint_id (now : Z) (i : nat) : string :=
  pretty now +:+ "-" +:+ pretty i.

Definition read_content (f : File) : string :=
  if Js.includes (f_type f) "text" || Js.endsWith (f_name f) ".csv"
  then default "" (f_text f)
  else "".

(** The [for] loop of [handleFileUpload]; each file comes with the reading of
    [Date.now()] taken when its record is pushed. Returns [newFiles] together
    with the registry after the loop. *)
Fixpoint upload_loop (i : nat) (files : list (File * Z)) (next : nat)
    (log : list url_event) : list UploadedFile * (nat * list url_event) :=
  match files with
  | [] => ([], (next, log))
  | (f, now) :: rest =>
      let u := next in
      let rec := {| id := mint_id now i; name := f_name f; type := f_type f;
                    size := f_size f; url := u; content := read_content f |} in
      let '(newFiles, reg) :=
        upload_loop (S i) rest (S next) (log ++ [CreateObjectURL u]) in
      (rec :: newFiles, reg)
  end.

(** [handleFileUpload], taken as one step. The loop only awaits
    [file.text()], for the text and .csv files of the batch; no other handler
    is taken to run while it waits. *)
Definition handleFileUpload (files : list (File * Z)) (s : App) : App :=
  let '(newFiles, (next, log)) := upload_loop 0 files (next_url s) (url_log s) in
  {| uploadedFiles := uploadedFiles s ++ newFiles;
     selectedFile := selectedFile s;
     next_url := next;
     url_log := log |}.

Definition handleFileSelect (file : UploadedFile) (s : App) : App :=
  {| uploadedFiles := uploadedFiles s;
     selectedFile := Some file;
     next_url := next_url s;
     url_log := url_log s |}.

(** [selectedFile?.id === id] on the [selectedFile] a handler closed over:
    that of the render in which the handler was made. *)
Definition seen_is (i : string) (seen : option UploadedFile) : bool :=
  match seen with
  | Some f => String.eqb (id f) i
  | None => false
  end.

Definition selected_is (i : string) (s : App) : bool := seen_is i (selectedFile s).

(** [handleFileDelete] is called from a click on a row of the sidebar, with
    the handler of the render on screen: the [selectedFile] it tests is the
    current one. *)
Definition handleFileDelete (i : string) (s : App) : App :=
  let fileToDelete := List.find (fun f => String.eqb (id f) i) (uploadedFiles s) in
  {| uploadedFiles := List.filter (fun f => negb (String.eqb (id f) i)) (uploadedFiles s);
     selectedFile := if selected_is i s then None else selectedFile s;
     next_url := next_url s;
     url_log := match fileToDelete with
                | Some f => url_log s ++ [RevokeObjectURL (url f)]
                | None => url_log s
                end |}.

(** The [prev.map(...)] of [handleFileUpdate]: the callback revokes the old
    URL of every record it rewrites. *)
Fixpoint update_files (i : string) (newUrl : nat) (newSize : Z)
    (files : list UploadedFile) (log : list url_event)
    : list UploadedFile * list url_event :=
  match files with
  | [] => ([], log)
  | file :: rest =>
      if String.eqb (id file) i then
        let file' := {| id := id file; name := name file; type := type file;
                        size := newSize; url := newUrl; content := content file |} in
        let '(rest', log') :=
          update_files i newUrl newSize rest (log ++ [RevokeObjectURL (url file)]) in
        (file' :: rest', log')
      else
        let '(rest', log') := update_files i newUrl newSize rest log in
        (file :: rest', log')
  end.

(** [handleFileUpdate] is called when a save settles. The saves of the PDF
    and image editors are asynchronous, so the handler that runs is the one
    of the render in which the save was started: [seen] is the [selectedFile]
    that handler closed over, and the guard tests it; the two functional
    updates go to the state current at the call. *)
Definition handleFileUpdate (seen : option UploadedFile) (i : string)
    (updatedFile : Blob) (s : App) : App :=
  let newUrl := next_url s in
  let '(files', log') :=
    update_files i newUrl (blob_size updatedFile) (uploadedFiles s)
      (url_log s ++ [CreateObjectURL newUrl]) in
  {| uploadedFiles := files';
     selectedFile :=
       if seen_is i seen then
         match selectedFile s with
         | Some prev => Some {| id := id prev; name := name prev; type := type prev;
                                size := blob_size updatedFile; url := newUrl;
                                content := content prev |}
         | None => None
         end
       else selectedFile s;
     next_url := S newUrl;
     url_log := log' |}.

Definition handleCloseViewer (s : App) : App :=
  {| uploadedFiles := uploadedFiles s;
     selectedFile := None;
     next_url := next_url s;
     url_log := url_log s |}.

(** User-level operations. [Select n] is a click on the [n]-th row of the
    sidebar, which passes that record to [handleFileSelect]. Each handler
    runs to completion against the state current at its call; [Update]
    comes with the selection its handler closed over, which is the
    selection of an earlier state when the save settles late. *)
Inductive op :=
| Upload (files : list (File * Z))
| Select (n : nat)
| Delete (i : string)
| Update (seen : option UploadedFile) (i : string) (updatedFile : Blob)
| CloseViewer.

Definition step (s : App) (o : op) : App :=
  match o with
  | Upload files => handleFileUpload files s
  | Select n =>
      match uploadedFiles s !! n with
      | Some file => handleFileSelect file s
      | None => s
      end
  | Delete i => handleFileDelete i s
  | Update seen i b => handleFileUpdate seen i b s
  | CloseViewer => handleCloseViewer s
  end.

Definition run (ops : list op) (s : App) : App := fold_left step ops s.

(** The ids minted by one upload batch and by a whole run. *)
Fixpoint batch_ids (i : nat) (files : list (File * Z)) : list string :=
  match files with
  | [] => []
  | (_, now) :: rest => mint_id now i :: batch_ids (S i) rest
  end.

Fixpoint minted (ops : list op) : list string :=
  match ops with
  | [] => []
  | Upload files :: rest => batch_ids 0 files ++ minted rest
  | _ :: rest => minted rest
  end.

(** Registry views of the log. *)
Definition created (log : list url_event) : list nat :=
  omap (fun e => match e with CreateObjectURL u => Some u | _ => None end) log.

Definition revoked (log : list url_event) : list nat :=
  omap (fun e => match e with RevokeObjectURL u => Some u | _ => None end) log.

Definition live (log : list url_event) (u : nat) : Prop :=
  u ∈ created log ∧ u ∉ revoked log.

(** Every record holds a live URL of its own, the selection shows a listed
    id, and no URL was revoked twice. *)
Record handles_ok (s : App) : Prop := {
  ids_distinct : NoDup (id <$> uploadedFiles s);
  urls_distinct : NoDup (url <$> uploadedFiles s);
  urls_live : ∀ f, f ∈ uploadedFiles s → live (url_log s) (url f);
  revoked_once : NoDup (revoked (url_log s));
  created_below : ∀ u, u ∈ created (url_log s) ↔ u < next_url s;
  revoked_were_created : ∀ u, u ∈ revoked (url_log s) → u ∈ created (url_log s);
  selection_listed : ∀ f, selectedFile s = Some f → id f ∈ id <$> uploadedFiles s
}.

(** The record the [map] callback of [handleFileUpdate] returns. *)
Definition swap_in (i : string) (newUrl : nat) (newSize : Z) (file : UploadedFile) :=
  if String.eqb (id file) i then
    {| id := id file; name := name file; type := type file;
       size := newSize; url := newUrl; content := content file |}
  else file.

(** Replace allocates first and revokes the URL it replaces afterwards. *)
Definition replace_ordered (s : App) : Prop :=
  ∀ seen i b f, f ∈ uploadedFiles s → id f = i →
    url_log (handleFileUpdate seen i b s) =
      url_log s ++ [CreateObjectURL (next_url s); RevokeObjectURL (url f)].

(** The selection snapshot after a save has rewritten it. *)
Definition resnap (newUrl : nat) (newSize : Z) (prev : UploadedFile) : UploadedFile :=
  {| id := id prev; name := name prev; type := type prev;
     size := newSize; url := newUrl; content := content prev |}.

(** A sample session: two files uploaded in one batch, the first selected and
    saved twice from its editor, the second deleted, a third uploaded
    later. *)
Definition sample_file (n : string) : File :=
  {| f_name := n; f_type := "application/pdf"; f_size := 100; f_text := None |}.

Definition sample_record (i n : string) (sz : Z) (u : nat) : UploadedFile :=
  {| id := i; name := n; type := "application/pdf"; size := sz; url := u;
     content := "" |}.

Definition sample_ops : list op :=
  [ Upload [(sample_file "a.pdf", 1000%Z); (sample_file "b.pdf", 1000%Z)];
    Select 0;
    Update (Some (sample_record "1000-0" "a.pdf" 100 0)) "1000-0" {| blob_size := 120 |};
    Delete "1000-1";
    Upload [(sample_file "c.pdf", 2000%Z)];
    Update (Some (sample_record "1000-0" "a.pdf" 120 2)) "1000-0" {| blob_size := 140 |} ].

(** Two batches read the same millisecond off the clock, so that their first
    files are given the same id; the first is selected and saved twice from
    its editor. *)
Definition same_tick_ops : list op :=
  [ Upload [(sample_file "a.pdf", 1000%Z)];
    Upload [(sample_file "b.pdf", 1000%Z)];
    Select 0;
    Update (Some (sample_record "1000-0" "a.pdf" 100 0)) "1000-0" {| blob_size := 120 |};
    Update (Some (sample_record "1000-0" "a.pdf" 120 2)) "1000-0" {| blob_size := 140 |} ].

(** A save that settles late: [a.pdf] is selected and its save started, then
    [b.pdf] is selected; the save of [a.pdf] settles with the handler of the
    render that showed [a.pdf]. *)
Definition late_save_ops : list op :=
  [ Upload [(sample_file "a.pdf", 1000%Z); (sample_file "b.pdf", 1000%Z)];
    Select 0;
    Select 1;
    Update (Some (sample_record "1000-0" "a.pdf" 100 0)) "1000-0" {| blob_size := 120 |} ].

End Store.

(** ** Grid document model (ExcelEditor) *)

Module Grid.

(** Cell values as [sheet_to_json] hands them over and as row objects hold
    them: [undefined], boolean, number or string. Numbers are integers here. *)
Inductive value :=
| VUndef
| VBool (b : bool)
| VNum (z : Z)
| VStr (s : string).

(** JavaScript truthiness, [v || d], and the string a value becomes when it is
    used as a property key or inside a template literal. *)
Definition truthy (v : value) : bool :=
  match v with
  | VUndef => false
  | VBool b => b
  | VNum z => negb (z =? 0)%Z
  | VStr s => negb (String.eqb s "")
  end.

Definition or_else (v d : value) : value := if truthy v then v else d.

Definition to_key (v : value) : string :=
  match v with
  | VUndef => "undefined"
  | VBool true => "true"
  | VBool false => "false"
  | VNum z => pretty z
  | VStr s => s
  end.

(** The arrays [sheet_to_json(.., {header: 1})] returns have empty slots
    where the sheet has blank cells: an array is a list of slots, [None]
    being an empty slot. [map] and [forEach] skip empty slots, [map] leaving
    an empty slot in its result; reading one by index gives [undefined]. *)
Definition dense {A} (l : list A) : list (option A) := Some <$> l.

(** [row[colIndex]] on an array. *)
Definition at_index (row : list (option value)) (colIndex : nat) : value :=
  match row !! colIndex with
  | Some (Some v) => v
  | _ => VUndef
  end.

(** A row is an ordinary object: a finite map holds its own properties, its
    [id] among them, and its prototype is [Object.prototype], whose property
    names these are. *)
Definition object_prototype : list string :=
  [ "constructor"; "__defineGetter__"; "__defineSetter__"; "hasOwnProperty";
    "__lookupGetter__"; "__lookupSetter__"; "isPrototypeOf";
    "propertyIsEnumerable"; "toString"; "valueOf"; "__proto__";
    "toLocaleString" ].

(** What [row[key]] evaluates to: the value of an own property, [undefined],
    or the object or function [Object.prototype] has under that name. *)
Inductive cell :=
| Value (v : value)
| Inherited.

Definition at_key (row : gmap string value) (k : string) : cell :=
  match row !! k with
  | Some v => Value v
  | None => if bool_decide (k ∈ object_prototype) then Inherited else Value VUndef
  end.

(** [c || '']: an object or a function is truthy. *)
Definition or_blank (c : cell) : cell :=
  match c with
  | Value v => Value (or_else v (VStr ""))
  | Inherited => Inherited
  end.

(** [obj[k] = v] for a primitive [v]. The assignment makes or overwrites an
    own property, except under the name [__proto__] when the object has no
    own property of that name: it then reaches the setter of
    [Object.prototype], which ignores a value that is not an object. *)
Definition assign (k : string) (v : value) (obj : gmap string value)
    : gmap string value :=
  match obj !! k with
  | Some _ => <[k := v]> obj
  | None => if String.eqb k "__proto__" then obj else <[k := v]> obj
  end.

Record Column := {
  key : string;
  name : value;
  editable : bool;
  resizable : bool
}.

(** An element of the [columns] array: an empty slot, [undefined], or a
    column object. *)
Inductive slot :=
| Empty
| Undefined
| Col (c : Column).

(** The three [useState] cells of [ExcelEditor]. *)
Record Sheet := {
  data : list (gmap string value);
  columns : list slot;
  worksheetName : string
}.

Definition initial : Sheet :=
  {| data := []; columns := []; worksheetName := "Sheet1" |}.

(** [header || `Column${index + 1}`] as a property key, and
    [header || `Column ${index + 1}`] as the display name. *)
Definition header_key (header : value) (index : nat) : string :=
  to_key (or_else header (VStr ("Column" +:+ pretty (index + 1)))).

Definition header_name (header : value) (index : nat) : value :=
  or_else header (VStr ("Column " +:+ pretty (index + 1))).

Definition make_column (index : nat) (header : value) : Column :=
  {| key := header_key header index; name := header_name header index;
     editable := true; resizable := true |}.

(** One step of [headers.map]: an empty slot of the header row stays an
    empty slot of [cols]. *)
Definition make_slot (index : nat) (header : option value) : slot :=
  match header with
  | Some h => Col (make_column index h)
  | None => Empty
  end.

(** The [headers.forEach] that fills one row object, from column [colIndex]:
    nothing is written for an empty slot of the header row. *)
Fixpoint fill_row (headers : list (option value)) (colIndex : nat)
    (row : list (option value)) (rowObj : gmap string value) : gmap string value :=
  match headers with
  | [] => rowObj
  | header :: rest =>
      fill_row rest (S colIndex) row
        match header with
        | Some h =>
            assign (header_key h colIndex) (or_else (at_index row colIndex) (VStr ""))
                   rowObj
        | None => rowObj
        end
  end.

Definition make_row (headers : list (option value)) (rowIndex : nat)
    (row : list (option value)) : gmap string value :=
  fill_row headers 0 row {[ "id" := VNum (Z.of_nat rowIndex) ]}.

Definition createEmptySpreadsheet (s : Sheet) : Sheet :=
  let defaultColumns :=
    (λ i, {| key := "Column" +:+ pretty (i + 1);
             name := VStr ("Column " +:+ pretty (i + 1));
             editable := true; resizable := true |}) <$> seq 0 5 in
  let defaultRows :=
    (λ i, foldl (λ row col, assign (key col) (VStr "") row)
                ({[ "id" := VNum (Z.of_nat i) ]} : gmap string value)
                defaultColumns) <$> seq 0 10 in
  {| data := defaultRows; columns := Col <$> defaultColumns;
     worksheetName := worksheetName s |}.

(** What the [try] block of [loadExcelData] obtained from the fetch and the
    XLSX reader: the first sheet's name with [sheet_to_json(.., {header: 1})]
    of it, or [None] when anything in the block threw. *)
Definition decoded : Type := option (string * list (list (option value))).

(** The state the editor is left in once the load has settled. *)
Definition loadExcelData (outcome : decoded) (s : Sheet) : Sheet :=
  match outcome with
  | Some (firstSheetName, jsonData) =>
      match jsonData with
      | [] => {| data := data s; columns := columns s;
                 worksheetName := firstSheetName |}
      | headers :: rows =>
          {| data := imap (make_row headers) rows;
             columns := imap make_slot headers;
             worksheetName := firstSheetName |}
      end
  | None => createEmptySpreadsheet s
  end.

Definition handleRowsChange (rows : list (gmap string value)) (s : Sheet) : Sheet :=
  {| data := rows; columns := columns s; worksheetName := worksheetName s |}.

(** The [columns.forEach] of [addRow]: an empty slot is skipped; on an
    [undefined] element the callback throws, reading [col.key]. *)
Fixpoint blank_row (cols : list slot) (newRow : gmap string value)
    : option (gmap string value) :=
  match cols with
  | [] => Some newRow
  | Empty :: rest => blank_row rest newRow
  | Undefined :: _ => None
  | Col col :: rest => blank_row rest (assign (key col) (VStr "") newRow)
  end.

(** [addRow]; when the [forEach] throws, [setData] is not reached. *)
Definition addRow (s : Sheet) : Sheet :=
  match blank_row (columns s) {[ "id" := VNum (Z.of_nat (length (data s))) ]} with
  | Some newRow =>
      {| data := data s ++ [newRow]; columns := columns s;
         worksheetName := worksheetName s |}
  | None => s
  end.

(** [[...prev]]: spreading an array reads every index, so that an empty slot
    becomes an [undefined] element. *)
Definition spread (cols : list slot) : list slot :=
  (λ c, match c with Empty => Undefined | _ => c end) <$> cols.

Definition addColumn (s : Sheet) : Sheet :=
  let newColumnKey := "Column" +:+ pretty (length (columns s) + 1) in
  let newColumn :=
    {| key := newColumnKey;
       name := VStr ("Column " +:+ pretty (length (columns s) + 1));
       editable := true; resizable := true |} in
  {| data := (λ row, <[newColumnKey := VStr ""]> row) <$> data s;
     columns := spread (columns s) ++ [Col newColumn];
     worksheetName := worksheetName s |}.

(** [prev.filter((_, index) => index !== rowIndex)] *)
Definition deleteRow (rowIndex : nat) (s : Sheet) : Sheet :=
  {| data := snd <$> List.filter (λ p, negb (p.1 =? rowIndex)%nat)
                                 (imap (λ index row, (index, row)) (data s));
     columns := columns s; worksheetName := worksheetName s |}.

(** [columns.map(f)]: an empty slot stays empty, and [f], which reads a
    property of its argument, throws on an [undefined] element. *)
Fixpoint map_columns {B} (f : Column → B) (cols : list slot) : option (list (option B)) :=
  match cols with
  | [] => Some []
  | Empty :: rest => (λ l, None :: l) <$> map_columns f rest
  | Undefined :: _ => None
  | Col col :: rest => (λ l, Some (f col) :: l) <$> map_columns f rest
  end.

(** [wsData] of [handleSave]: the header names, then one array per row with
    [row[col.key] || ''] in column order; [None] when building it throws,
    in which case nothing is saved. *)
Definition wsData (s : Sheet) : option (list (list (option cell))) :=
  headers ← map_columns (λ col, Value (name col)) (columns s);
  rows ← mapM (λ row, map_columns (λ col, or_blank (at_key row (key col))) (columns s))
              (data s);
  Some (headers :: rows).

(** The column objects of the [columns] array, in order. *)
Definition defined (cols : list slot) : list Column :=
  omap (λ c, match c with Col col => Some col | _ => None end) cols.

(** Header names and cell text of a grid: the names of its column objects
    and, row by row, what [row[col.key] || ''] gives for each of them. *)
Definition header_names (s : Sheet) : list value := name <$> defined (columns s).

Definition cell_text (s : Sheet) : list (list cell) :=
  (λ row, (λ col, or_blank (at_key row (key col))) <$> defined (columns s))
    <$> data s.

(** The XLSX library is not part of the repository. [codec] stands for the
    path a saved sheet takes back into the editor
    ([aoa_to_sheet], [write], [read], [sheet_to_json]); it is taken to hand
    back an array of arrays made of strings only as it was written. *)
Definition is_text (v : value) : Prop := ∃ t, v = VStr t.

Definition written (aoa : list (list value)) : list (list (option cell)) :=
  (λ row, dense (Value <$> row)) <$> aoa.

Definition text_codec
    (codec : list (list (option cell)) → list (list (option value))) : Prop :=
  ∀ aoa, Forall (Forall is_text) aoa → codec (written aoa) = dense <$> aoa.

(** A codec that hands every primitive back as written (and has nothing to
    hand back for an object). *)
Definition plain_codec (aoa : list (list (option cell))) : list (list (option value)) :=
  (λ row : list (option cell),
     (λ c, match c with Some (Value v) => Some v | _ => None end) <$> row) <$> aoa.

(** [parse(export(d))]: the sheet a freshly mounted editor holds after it has
    loaded what [handleSave] wrote for [d]; [None] when [handleSave] threw
    and wrote nothing. *)
Definition reparse (codec : list (list (option cell)) → list (list (option value)))
    (d : Sheet) : option Sheet :=
  (λ aoa, loadExcelData (Some (worksheetName d, codec aoa)) initial) <$> wsData d.

(** A grid of plain strings: every element of [columns] is a column object,
    every header name is a string and every row holds a string under every
    column key. *)
Definition plain_grid (d : Sheet) : Prop :=
  columns d = Col <$> defined (columns d)
  ∧ (∀ col, col ∈ defined (columns d) → is_text (name col))
  ∧ (∀ row col, row ∈ data d → col ∈ defined (columns d) →
       ∃ t, row !! key col = Some (VStr t)).

(** The strings such a grid holds, header row first. *)
Definition text_of (d : Sheet) : list (list value) :=
  header_names d
  :: ((λ row, (λ col, or_else (default VUndef (row !! key col)) (VStr ""))
                <$> defined (columns d)) <$> data d).

(** Header names that are non-empty, pairwise distinct and other than
    [__proto__]. *)
Definition named_apart (d : Sheet) : Prop :=
  (∀ col, col ∈ defined (columns d) → truthy (name col) = true)
  ∧ NoDup (header_names d)
  ∧ (VStr "__proto__" ∉ header_names d).

(** The sheet of a two-column file: headers [a], [b] and two rows. *)
Definition ab_sheet : Sheet :=
  loadExcelData
    (Some ("Sheet1",
           dense <$> [[VStr "a"; VStr "b"]; [VStr "1"; VStr "2"]; [VStr "3"; VStr "4"]]))
    initial.

(** A one-column sheet whose header already reads [Column2]. *)
Definition column2_sheet : Sheet :=
  loadExcelData (Some ("Sheet1", dense <$> [[VStr "Column2"]; [VStr "x"]])) initial.

(** A sheet with header [Column 2], a column added to it, and the new cell of
    its only row edited to [y] in the data grid. *)
Definition twin_names_sheet : Sheet :=
  let loaded :=
    loadExcelData (Some ("Sheet1", dense <$> [[VStr "Column 2"]; [VStr "x"]])) initial in
  let widened := addColumn loaded in
  handleRowsChange ((λ row, <["Column2" := VStr "y"]> row) <$> data widened) widened.

(** A sheet whose header row has a blank cell between [a] and [c], over one
    row of three cells: [sheet_to_json] leaves an empty slot for the blank
    header. *)
Definition blank_header_sheet : Sheet :=
  loadExcelData
    (Some ("Sheet1",
           [ [Some (VStr "a"); None; Some (VStr "c")];
             [Some (VStr "x"); Some (VStr "y"); Some (VStr "z")] ]))
    initial.

(** A sheet with the single header [__proto__] over one cell. *)
Definition proto_sheet : Sheet :=
  loadExcelData (Some ("Sheet1", dense <$> [[VStr "__proto__"]; [VStr "x"]])) initial.

End Grid.

(** ** Paginated-document annotation engine (PDFEditor) *)

Module Pdf.

Local Open Scope Q_scope.

Inductive Tool := Text | Rectangle | Circle.

(** Coordinates are JavaScript numbers; they are modelled as exact
    rationals, so floating-point rounding is left out. *)
Record Annotation := {
  id : string;
  type : Tool;
  x : Q;
  y : Q;
  width : option Q;
  height : option Q;
  text : option string;
  color : string
}.

(** What pdf-lib draws on a page, and a page of the parsed document. *)
Inductive DrawOp :=
| DrawText (t : string) (x y size : Q)
| DrawRectangle (x y w h borderWidth : Q)
| DrawCircle (x y size borderWidth : Q).

Record Page := {
  page_width : Q;
  page_height : Q;
  content : list DrawOp
}.

(** [pdfDoc] is the pdf.js proxy of the loaded file (its pages),
    [canvas_height] the [height] attribute of the canvas element. *)
Record Editor := {
  pdfDoc : option (list Page);
  currentPage : Z;
  totalPages : Z;
  annotations : list Annotation;
  selectedTool : Tool;
  scale : Q;
  canvas_height : Q
}.

Definition mounted : Editor :=
  {| pdfDoc := None; currentPage := 1; totalPages := 0; annotations := [];
     selectedTool := Text; scale := 3 # 2; canvas_height := 150 |}.

(** [n || d] on an optional number and [t || d] on an optional string. *)
Definition num_or (n : option Q) (d : Q) : Q :=
  match n with
  | Some v => if Qeq_bool v 0 then d else v
  | None => d
  end.

Definition text_or (t : option string) (d : string) : string :=
  match t with
  | Some v => if String.eqb v "" then d else v
  | None => d
  end.

(** [pages[currentPage - 1]] *)
Definition page_at (pages : list Page) (currentPage : Z) : option Page :=
  if (1 <=? currentPage)%Z then pages !! Z.to_nat (currentPage - 1) else None.

(** The [height] attribute of a canvas is an unsigned integer: assigning a
    number to it keeps the integral part (for the non-negative heights a
    viewport has). *)
Definition canvas_attr (h : Q) : Q := inject_Z (Qfloor h).

(** [viewport.height] of the page shown, at the current scale. *)
Definition viewport_height (page : Page) (scale : Q) : Q := page_height page * scale.

(** [renderPage], once its awaits have settled: the canvas takes the size of
    the viewport. *)
Definition renderPage (ed : Editor) : Editor :=
  match pdfDoc ed with
  | Some pages =>
      match page_at pages (currentPage ed) with
      | Some page =>
          {| pdfDoc := pdfDoc ed; currentPage := currentPage ed;
             totalPages := totalPages ed; annotations := annotations ed;
             selectedTool := selectedTool ed; scale := scale ed;
             canvas_height := canvas_attr (viewport_height page (scale ed)) |}
      | None => ed
      end
  | None => ed
  end.

(** The [x], [y] that [renderAnnotations] computes for an annotation. *)
Definition screen_point (scale viewportHeight : Q) (a : Annotation) : Q * Q :=
  (x a * scale, viewportHeight - y a * scale).

Inductive PaintOp :=
| FillText (t : string) (x y : Q)
| StrokeRect (x y w h : Q)
| Arc (x y radius : Q).

Definition renderAnnotations (scale viewportHeight : Q) (annotations : list Annotation)
    : list PaintOp :=
  (λ a,
     let '(sx, sy) := screen_point scale viewportHeight a in
     match type a with
     | Text => FillText (text_or (text a) "Text") sx sy
     | Rectangle =>
         StrokeRect sx (sy - num_or (height a) 50 * scale)
                    (num_or (width a) 100 * scale) (num_or (height a) 50 * scale)
     | Circle => Arc sx sy (num_or (width a) 25 * scale)
     end) <$> annotations.

(** The annotation [handleCanvasClick] builds for a click at offset
    ([px], [py]) from the top-left corner of the canvas, [now] being the
    reading of [Date.now()]. *)
Definition newAnnotation (ed : Editor) (px py : Q) (now : Z) : Annotation :=
  {| id := pretty now;
     type := selectedTool ed;
     x := px / scale ed;
     y := (canvas_height ed - py) / scale ed;
     width := match selectedTool ed with Text => None | _ => Some 100 end;
     height := match selectedTool ed with Text => None | _ => Some 50 end;
     text := match selectedTool ed with Text => Some "New Text" | _ => None end;
     color := "#ff0000" |}.

Definition handleCanvasClick (px py : Q) (now : Z) (ed : Editor) : Editor :=
  {| pdfDoc := pdfDoc ed; currentPage := currentPage ed;
     totalPages := totalPages ed;
     annotations := annotations ed ++ [newAnnotation ed px py now];
     selectedTool := selectedTool ed; scale := scale ed;
     canvas_height := canvas_height ed |}.

(** [loadPDF] settled with a document. *)
Definition loadPDF (pages : list Page) (ed : Editor) : Editor :=
  {| pdfDoc := Some pages; currentPage := 1;
     totalPages := Z.of_nat (length pages); annotations := annotations ed;
     selectedTool := selectedTool ed; scale := scale ed;
     canvas_height := canvas_height ed |}.

Definition setCurrentPage (f : Z → Z) (ed : Editor) : Editor :=
  {| pdfDoc := pdfDoc ed; currentPage := f (currentPage ed);
     totalPages := totalPages ed; annotations := annotations ed;
     selectedTool := selectedTool ed; scale := scale ed;
     canvas_height := canvas_height ed |}.

Definition setScale (f : Q → Q) (ed : Editor) : Editor :=
  {| pdfDoc := pdfDoc ed; currentPage := currentPage ed;
     totalPages := totalPages ed; annotations := annotations ed;
     selectedTool := selectedTool ed; scale := f (scale ed);
     canvas_height := canvas_height ed |}.

Definition setSelectedTool (t : Tool) (ed : Editor) : Editor :=
  {| pdfDoc := pdfDoc ed; currentPage := currentPage ed;
     totalPages := totalPages ed; annotations := annotations ed;
     selectedTool := t; scale := scale ed;
     canvas_height := canvas_height ed |}.

(** Toolbar and canvas events. The page buttons are disabled at the ends of
    the document; every change of page or scale re-renders. *)
Inductive event :=
| Click (px py : Q) (now : Z)
| Previous
| Next
| ZoomOut
| ZoomIn
| Pick (t : Tool).

Definition step (ed : Editor) (e : event) : Editor :=
  match e with
  | Click px py now => handleCanvasClick px py now ed
  | Previous =>
      if (currentPage ed <=? 1)%Z then ed
      else renderPage (setCurrentPage (λ prev, Z.max 1 (prev - 1)) ed)
  | Next =>
      if (totalPages ed <=? currentPage ed)%Z then ed
      else renderPage (setCurrentPage (λ prev, Z.min (totalPages ed) (prev + 1)) ed)
  | ZoomOut => renderPage (setScale (λ prev, Qmax (1 # 2) (prev - (1 # 4))) ed)
  | ZoomIn => renderPage (setScale (λ prev, Qmin 3 (prev + (1 # 4))) ed)
  | Pick t => setSelectedTool t ed
  end.

Definition run (events : list event) (ed : Editor) : Editor := fold_left step events ed.

(** What [handleSave] draws for one annotation. *)
Definition draw (a : Annotation) : DrawOp :=
  match type a with
  | Text => DrawText (text_or (text a) "Text") (x a) (y a) 12
  | Rectangle =>
      DrawRectangle (x a) (y a - num_or (height a) 50)
                    (num_or (width a) 100) (num_or (height a) 50) 2
  | Circle => DrawCircle (x a) (y a) (num_or (width a) 25) 2
  end.

Definition draw_on (page : Page) (ops : list DrawOp) : Page :=
  {| page_width := page_width page; page_height := page_height page;
     content := content page ++ ops |}.

(** [pdfDoc.save()]. pdf-lib, which is not part of the repository, adds a
    blank page of its default size, A4, to a document that has no page when
    it serializes it. *)
Definition a4 : Page :=
  {| page_width := 59528 # 100; page_height := 84189 # 100; content := [] |}.

Definition save (pages : list Page) : list Page :=
  match pages with
  | [] => [a4]
  | _ :: _ => pages
  end.

(** [handleSave]. [original] is what [PDFDocument.load] makes of the bytes
    fetched from [file.url], [None] when the fetch or the load throws. The
    result is the document handed to [onSave], [None] when the [try] block
    threw and nothing was saved: drawing on [pages[currentPage - 1]] throws
    when there is no such page. *)
Definition handleSave (original : option (list Page)) (ed : Editor)
    : option (list Page) :=
  match original with
  | None => None
  | Some pages =>
      match annotations ed with
      | [] => Some (save pages)
      | _ :: _ =>
          match page_at pages (currentPage ed) with
          | None => None
          | Some page =>
              Some (save (<[Z.to_nat (currentPage ed - 1) :=
                              draw_on page (draw <$> annotations ed)]> pages))
          end
      end
  end.

(** An annotation is persisted in a document when some page carries its
    drawing. *)
Definition persisted (a : Annotation) (doc : list Page) : Prop :=
  ∃ page, page ∈ doc ∧ draw a ∈ content page.

(** A two-page letter-size document and a session on it: one click on page 1,
    then the Next button. *)
Definition letter : Page := {| page_width := 612; page_height := 792; content := [] |}.

Definition two_pages : list Page := [letter; letter].

Definition opened : Editor := renderPage (loadPDF two_pages mounted).

Definition click_then_next : Editor := run [Click 30 40 1000%Z; Next] opened.

(** A one-page A4 document, opened at the scale the editor mounts with. *)
Definition opened_a4 : Editor := renderPage (loadPDF [a4] mounted).

End Pdf.

(** ** Load sessions of the spreadsheet editor *)

Module ExcelSession.

(** The [file] prop of [ExcelEditor]: the selected record's id and URL. *)
Record FileProp := { id : string; url : nat }.

(** The editor instance: its current prop, its sheet, and the loads started by
    the [useEffect] on [file] that have not settled yet, each with the prop it
    closed over. *)
Record Editor := {
  file : FileProp;
  sheet : Grid.Sheet;
  in_flight : list FileProp
}.

(** Mounting runs the effect once. *)
Definition mount (f : FileProp) : Editor :=
  {| file := f; sheet := Grid.initial; in_flight := [f] |}.

(** The selection changes while the editor stays mounted: the effect runs
    again and starts a load for the new prop. *)
Definition setFile (f : FileProp) (ed : Editor) : Editor :=
  {| file := f; sheet := sheet ed; in_flight := in_flight ed ++ [f] |}.

(** The [k]-th load in flight settles. [fetch] gives what the [try] block of
    [loadExcelData] decodes from a URL. The continuation calls the state
    setters of the instance, whatever its current prop is. *)
Definition settle (fetch : nat → Grid.decoded) (k : nat) (ed : Editor) : Editor :=
  match in_flight ed !! k with
  | Some f =>
      {| file := file ed;
         sheet := Grid.loadExcelData (fetch (url f)) (sheet ed);
         in_flight := delete k (in_flight ed) |}
  | None => ed
  end.

(** Document A at URL 0 and document B at URL 1. *)
Definition docA : FileProp := {| id := "1000-0"; url := 0 |}.
Definition docB : FileProp := {| id := "1000-1"; url := 1 |}.

Definition fetch_AB (u : nat) : Grid.decoded :=
  match u with
  | 0 => Some ("A", Grid.dense <$> [[Grid.VStr "a"]; [Grid.VStr "1"]])
  | _ => Some ("B", Grid.dense <$> [[Grid.VStr "b"]; [Grid.VStr "2"]])
  end.

(** Select A, switch to B while A loads, B's load settles, then A's. *)
Definition b_settled : Editor := settle fetch_AB 1 (setFile docB (mount docA)).
Definition a_settled_late : Editor := settle fetch_AB 0 b_settled.

End ExcelSession.

(** ** Raster scene model (ImageEditor) *)

Module Scene.

Inductive Kind := Image | IText | Rect | Circle | Path.

(** A fabric object: [oid] stands for the identity of the JavaScript object. *)
Record Object := {
  oid : nat;
  kind : Kind;
  selectable : bool;
  angle : Z
}.

Inductive Tool := select | text | rectangle | circle | brush.

(** The fabric canvas and the tool state of the component: [objects] is the
    canvas's object stack from back to front, [active] the objects of the
    active selection; [contextContainer] tells whether the canvas still has
    its drawing context, which [dispose] takes away. *)
Record Canvas := {
  objects : list Object;
  active : list nat;
  isDrawingMode : bool;
  selection : bool;
  selectedTool : Tool;
  next_oid : nat;
  contextContainer : bool
}.

Definition mounted : Canvas :=
  {| objects := []; active := []; isDrawingMode := false; selection := true;
     selectedTool := select; next_oid := 0; contextContainer := true |}.

Definition set_objects (objs : list Object) (c : Canvas) : Canvas :=
  {| objects := objs; active := active c; isDrawingMode := isDrawingMode c;
     selection := selection c; selectedTool := selectedTool c;
     next_oid := next_oid c; contextContainer := contextContainer c |}.

Definition set_active (a : list nat) (c : Canvas) : Canvas :=
  {| objects := objects c; active := a; isDrawingMode := isDrawingMode c;
     selection := selection c; selectedTool := selectedTool c;
     next_oid := next_oid c; contextContainer := contextContainer c |}.

(** [new fabric.X({...})]: a fresh object; fabric objects are selectable
    unless told otherwise. *)
Definition create (k : Kind) (sel : bool) (c : Canvas) : Object * Canvas :=
  ({| oid := next_oid c; kind := k; selectable := sel; angle := 0 |},
   {| objects := objects c; active := active c; isDrawingMode := isDrawingMode c;
      selection := selection c; selectedTool := selectedTool c;
      next_oid := S (next_oid c); contextContainer := contextContainer c |}).

(** [canvas.add], [canvas.sendToBack], [canvas.remove],
    [canvas.setActiveObject], [canvas.discardActiveObject],
    [canvas.getActiveObjects]. *)
Definition add (o : Object) (c : Canvas) : Canvas :=
  set_objects (objects c ++ [o]) c.

Definition sendToBack (o : Object) (c : Canvas) : Canvas :=
  set_objects (List.filter (λ x, (oid x =? oid o)%nat) (objects c)
               ++ List.filter (λ x, negb (oid x =? oid o)%nat) (objects c)) c.

Definition remove (o : Object) (c : Canvas) : Canvas :=
  set_objects (List.filter (λ x, negb (oid x =? oid o)%nat) (objects c)) c.

Definition setActiveObject (o : Object) (c : Canvas) : Canvas := set_active [oid o] c.

Definition discardActiveObject (c : Canvas) : Canvas := set_active [] c.

Definition getActiveObjects (c : Canvas) : list Object :=
  List.filter (λ x, bool_decide (oid x ∈ active c)) (objects c).

(** The cleanup of the effect: [fabricCanvas.dispose()]. *)
Definition dispose (c : Canvas) : Canvas :=
  {| objects := objects c; active := active c; isDrawingMode := isDrawingMode c;
     selection := selection c; selectedTool := selectedTool c;
     next_oid := next_oid c; contextContainer := false |}.

(** The callback of [fabric.Image.fromURL]: it returns at once on a canvas
    that was disposed of in the meantime; otherwise the image is made
    unselectable, added and sent to the back. *)
Definition imageLoaded (c : Canvas) : Canvas :=
  if negb (contextContainer c) then c
  else
    let '(img, c1) := create Image false c in
    sendToBack img (add img c1).

Definition addShape (k : Kind) (c : Canvas) : Canvas :=
  let '(o, c1) := create k true c in
  setActiveObject o (add o c1).

Definition addText : Canvas → Canvas := addShape IText.
Definition addRectangle : Canvas → Canvas := addShape Rect.
Definition addCircle : Canvas → Canvas := addShape Circle.

Definition deleteSelected (c : Canvas) : Canvas :=
  match getActiveObjects c with
  | [] => c
  | activeObjects => discardActiveObject (foldl (λ c' obj, remove obj c') c activeObjects)
  end.

Definition rotateImage (c : Canvas) : Canvas :=
  set_objects
    ((λ x, if bool_decide (oid x ∈ active c)
           then {| oid := oid x; kind := kind x; selectable := selectable x;
                   angle := angle x + 90 |}
           else x) <$> objects c) c.

(** The effect that configures the canvas for the selected tool. *)
Definition setSelectedTool (t : Tool) (c : Canvas) : Canvas :=
  {| objects := objects c; active := active c;
     isDrawingMode := match t with brush => true | _ => false end;
     selection := match t with select => true | _ => false end;
     selectedTool := t; next_oid := next_oid c;
     contextContainer := contextContainer c |}.

Definition handleToolClick (t : Tool) (c : Canvas) : Canvas :=
  let c1 := setSelectedTool t c in
  match t with
  | text => addText c1
  | rectangle => addRectangle c1
  | circle => addCircle c1
  | _ => c1
  end.

(** Pointer gestures handled by fabric itself (the library is not part of the
    repository). A click, shift-click or marquee over the objects [targets]
    activates those of them that are on the canvas and selectable, and
    nothing while the canvas is in drawing mode; a brush stroke adds a path. *)
Definition pointerSelect (targets : list nat) (c : Canvas) : Canvas :=
  if isDrawingMode c then c
  else set_active
         (oid <$> List.filter (λ x, selectable x && bool_decide (oid x ∈ targets))
                              (objects c)) c.

Definition selectAll (c : Canvas) : Canvas := pointerSelect (oid <$> objects c) c.

Definition brushStroke (c : Canvas) : Canvas :=
  if isDrawingMode c then let '(p, c1) := create Path true c in add p c1 else c.

Inductive op :=
| ToolClick (t : Tool)
| PointerSelect (targets : list nat)
| SelectAll
| BrushStroke
| RotateImage
| DeleteSelected.

Definition step (c : Canvas) (o : op) : Canvas :=
  match o with
  | ToolClick t => handleToolClick t c
  | PointerSelect targets => pointerSelect targets c
  | SelectAll => selectAll c
  | BrushStroke => brushStroke c
  | RotateImage => rotateImage c
  | DeleteSelected => deleteSelected c
  end.

Definition run (ops : list op) (c : Canvas) : Canvas := fold_left step ops c.

(** The background is in place: an unselectable image at the back of the
    stack. *)
Definition has_background (c : Canvas) : Prop :=
  ∃ bg, objects c !! 0 = Some bg ∧ kind bg = Image ∧ selectable bg = false.

(** Objects have identities of their own, and only selectable objects of the
    canvas are active. *)
Record tidy (c : Canvas) : Prop := {
  oids_distinct : NoDup (oid <$> objects c);
  oids_below : ∀ x, x ∈ objects c → oid x < next_oid c;
  active_below : ∀ a, a ∈ active c → a < next_oid c;
  active_selectable : ∀ x, x ∈ objects c → oid x ∈ active c → selectable x = true
}.

End Scene.

(** ** Viewer/editor shell (FileViewer), plain-text fallback *)

Module Viewer.

(** The two [useState] cells of [FileViewer]. *)
Record Shell := {
  isEditing : bool;
  editedContent : string
}.

Definition closed : Shell := {| isEditing := false; editedContent := "" |}.

(** A handler returns the next shell state and the calls it made to the
    [onFileUpdate] prop. *)
Definition calls : Type := list (string * Store.Blob).

(** [file.content || ''] *)
Definition content_or_empty (file : Store.UploadedFile) : string :=
  if String.eqb (Store.content file) "" then "" else Store.content file.

Definition handleEdit (file : Store.UploadedFile) (sh : Shell) : Shell * calls :=
  ({| isEditing := true; editedContent := content_or_empty file |}, []).

(** The [onChange] of the fallback textarea. *)
Definition setEditedContent (v : string) (sh : Shell) : Shell * calls :=
  ({| isEditing := isEditing sh; editedContent := v |}, []).

(** [handleSave] of the text fallback: logs and leaves editing mode. *)
Definition handleSave (file : Store.UploadedFile) (sh : Shell) : Shell * calls :=
  ({| isEditing := false; editedContent := editedContent sh |}, []).

(** [handleFileSave], the [onSave] of the three format editors. *)
Definition handleFileSave (file : Store.UploadedFile) (editedFile : Store.Blob)
    (sh : Shell) : Shell * calls :=
  ({| isEditing := false; editedContent := editedContent sh |},
   [(Store.id file, editedFile)]).

(** [App] runs [handleFileUpdate] for each call received on [onFileUpdate]:
    the handler passed down in the render that showed [file], whose
    [selectedFile] is [file]. *)
Definition deliver (file : Store.UploadedFile) (cs : calls) (app : Store.App)
    : Store.App :=
  foldl (λ a c, Store.handleFileUpdate (Some file) c.1 c.2 a) app cs.

(** Typing [edited] into the fallback textarea and running [handleSave], on
    the selected [file], from the shell and store states [sh] and [app]. *)
Definition type_and_save (file : Store.UploadedFile) (edited : string)
    (sh : Shell) (app : Store.App) : Shell * Store.App :=
  let '(sh1, c1) := setEditedContent edited sh in
  let '(sh2, c2) := handleSave file sh1 in
  (sh2, deliver file (c1 ++ c2) app).

End Viewer.

(** ** Sidebar (file list) *)

Module Sidebar.

Inductive Icon := FileTextRed | TableGreen | ImageBlue | FileTextGray.

(** The chain of [if]s of [getFileIcon]. *)
Definition getFileIcon (type : string) : Icon :=
  if Js.includes type "pdf" then FileTextRed
  else if Js.includes type "sheet" || Js.includes type "excel" then TableGreen
  else if Js.includes type "image" then ImageBlue
  else FileTextGray.

(** The editing strategy each icon stands for. *)
Definition icon_strategy (i : Icon) : Dispatch.Strategy :=
  match i with
  | FileTextRed => Dispatch.PaginatedDoc
  | TableGreen => Dispatch.Grid
  | ImageBlue => Dispatch.Scene
  | FileTextGray => Dispatch.PlainText
  end.

(** The [selectedFileId] prop [App] passes: [selectedFile?.id || null]. *)
Definition selectedFileId (s : Store.App) : option string :=
  match Store.selectedFile s with
  | Some f => if String.eqb (Store.id f) "" then None else Some (Store.id f)
  | None => None
  end.

(** [selectedFileId === file.id], the test that highlights a row. *)
Definition highlighted (s : Store.App) (file : Store.UploadedFile) : bool :=
  match selectedFileId s with
  | Some i => String.eqb i (Store.id file)
  | None => false
  end.

(** The rows of the list that are shown highlighted. *)
Definition highlighted_rows (s : Store.App) : list Store.UploadedFile :=
  List.filter (highlighted s) (Store.uploadedFiles s).

End Sidebar.

(** ** Accounting of object URLs along a run of [App] *)

Module StoreAudit.

(** Whether [handleFileUpdate] finds a record with the id it is given. *)
Definition listed (i : string) (s : Store.App) : bool :=
  existsb (λ f, String.eqb (Store.id f) i) (Store.uploadedFiles s).

(** The number of saves, along a run, that addressed an id not in the list
    at that moment. *)
Fixpoint missed_updates (ops : list Store.op) (s : Store.App) : nat :=
  match ops with
  | [] => 0
  | o :: rest =>
      (match o with
       | Store.Update _ i _ => if listed i s then 0 else 1
       | _ => 0
       end + missed_updates rest (Store.step s o))%nat
  end.

(** [FileViewer.handleFileSave] followed by [App.handleFileUpdate]: what a
    Save in one of the three format editors, opened on [file], does to the
    shell and the store current when it settles. *)
Definition save_from_editor (file : Store.UploadedFile) (editedFile : Store.Blob)
    (sh : Viewer.Shell) (app : Store.App) : Viewer.Shell * Store.App :=
  let '(sh', cs) := Viewer.handleFileSave file editedFile sh in
  (sh', Viewer.deliver file cs app).

End StoreAudit.

(** ** Editing sessions on a grid *)

Module GridEdits.

(** The toolbar and row actions of [ExcelEditor]. *)
Inductive edit :=
| AddRow
| AddColumn
| DeleteRow (rowIndex : nat).

Definition apply_edit (s : Grid.Sheet) (e : edit) : Grid.Sheet :=
  match e with
  | AddRow => Grid.addRow s
  | AddColumn => Grid.addColumn s
  | DeleteRow rowIndex => Grid.deleteRow rowIndex s
  end.

Definition apply_edits (es : list edit) (s : Grid.Sheet) : Grid.Sheet :=
  fold_left apply_edit es s.

(** Every row has a property of its own under the key of every column
    object, save the key [__proto__], under which no row has one. *)
Definition complete (s : Grid.Sheet) : Prop :=
  ∀ row, row ∈ Grid.data s →
    row !! "__proto__" = None
    ∧ ∀ col, col ∈ Grid.defined (Grid.columns s) → Grid.key col ≠ "__proto__" →
        is_Some (row !! Grid.key col).

(** [row.id] *)
Definition row_id (row : gmap string Grid.value) : Grid.cell := Grid.at_key row "id".

End GridEdits.

(** ** Sessions of the PDF editor *)

Module PdfAudit.

Definition is_click (e : Pdf.event) : bool :=
  match e with
  | Pdf.Click _ _ _ => true
  | _ => false
  end.

(** The editor shows a page of the document [pages]: the document is the one
    loaded, the page counter is inside it, and the canvas has the height of
    that page's viewport. *)
Record shown (pages : list Pdf.Page) (ed : Pdf.Editor) : Prop := {
  doc_loaded : Pdf.pdfDoc ed = Some pages;
  pages_counted : Pdf.totalPages ed = Z.of_nat (length pages);
  page_in_range : (1 ≤ Pdf.currentPage ed ≤ Pdf.totalPages ed)%Z;
  canvas_fits : ∀ page, Pdf.page_at pages (Pdf.currentPage ed) = Some page →
    Pdf.canvas_height ed
    = Pdf.canvas_attr (Pdf.viewport_height page (Pdf.scale ed))
}.

End PdfAudit.

(** ** Placement of the loaded image (ImageEditor) *)

Module ImageFit.

Local Open Scope Q_scope.

(** The canvas is created 800 by 600. *)
Definition canvas_width : Q := 800.
Definition canvas_height : Q := 600.

Record Placement := {
  scale : Q;
  left : Q;
  top : Q
}.

(** The scale and position the load callback gives an image of natural size
    [width] by [height]. *)
Definition place (width height : Q) : Placement :=
  let scale := Qmin (canvas_width / width) (canvas_height / height) in
  {| scale := scale;
     left := (canvas_width - width * scale) / 2;
     top := (canvas_height - height * scale) / 2 |}.

End ImageFit.

(** ** What the string tests mean *)

Module JsSpec.

(** [sub] occurs somewhere in [s]; [s] ends with [suffix]. *)
Definition contains (s sub : string) : Prop := ∃ a b, s = a +:+ sub +:+ b.

Definition ends_with (s suffix : string) : Prop := ∃ a, s = a +:+ suffix.

End JsSpec.

(** ** Image editor: what stays true of the image *)

Module SceneAudit.

(** Every image on the canvas is unselectable and unrotated. *)
Definition image_still (c : Scene.Canvas) : Prop :=
  ∀ x, x ∈ Scene.objects c → Scene.kind x = Scene.Image →
    Scene.selectable x = false ∧ Scene.angle x = 0%Z.

(** The objects of [c] that are not in its active selection, in stack
    order. *)
Definition inactive (c : Scene.Canvas) : list Scene.Object :=
  List.filter (λ x, negb (bool_decide (Scene.oid x ∈ Scene.active c))) (Scene.objects c).

End SceneAudit.

(** * Theorems *)

(** ** List facts shared by the components *)

Module ListFacts.

Lemma NoDup_fmap_inj_on {A B} (f : A → B) (l : list A) x y :
  NoDup (f <$> l) → x ∈ l → y ∈ l → f x = f y → x = y.
Proof.
  induction l as [|a l IH]; simpl; intros Hnd Hx Hy Hxy.
  - by apply elem_of_nil in Hx.
  - apply NoDup_cons in Hnd as [Hna Hnd].
    apply elem_of_cons in Hx as [->|Hx]; apply elem_of_cons in Hy as [->|Hy];
      auto.
    + exfalso. apply Hna. rewrite Hxy. by apply list_elem_of_fmap_2.
    + exfalso. apply Hna. rewrite <- Hxy. by apply list_elem_of_fmap_2.
Qed.

Lemma NoDup_fmap_filter {A B} (f : A → B) (p : A → bool) l :
  NoDup (f <$> l) → NoDup (f <$> List.filter p l).
Proof.
  induction l as [|a l IH]; simpl; intros Hnd; [done|].
  apply NoDup_cons in Hnd as [Hna Hnd].
  destruct (p a); simpl; [|by apply IH].
  apply NoDup_cons. split; [|by apply IH].
  intros Hin. apply Hna. apply list_elem_of_fmap in Hin as (x & -> & Hx).
  apply list_elem_of_fmap_2. apply list_elem_of_In in Hx.
  apply list_elem_of_In. by apply filter_In in Hx as [Hx _].
Qed.

Lemma find_filter_head {A} (p : A → bool) l : List.find p l = head (List.filter p l).
Proof. induction l as [|a l IH]; simpl; [done|]. by destruct (p a). Qed.

Lemma filter_all {A} (p : A → bool) l : (∀ x, x ∈ l → p x = true) → List.filter p l = l.
Proof.
  induction l as [|a l IH]; simpl; intros H; [done|].
  rewrite (H a) by apply list_elem_of_here. f_equal. apply IH.
  intros x Hx. apply H. by apply list_elem_of_further.
Qed.

Lemma filter_none {A} (p : A → bool) l : (∀ x, x ∈ l → p x = false) → List.filter p l = [].
Proof.
  induction l as [|a l IH]; simpl; intros H; [done|].
  rewrite (H a) by apply list_elem_of_here. apply IH.
  intros x Hx. apply H. by apply list_elem_of_further.
Qed.

Lemma elem_of_filter {A} (p : A → bool) l x : x ∈ List.filter p l ↔ x ∈ l ∧ p x = true.
Proof. by rewrite !list_elem_of_In, filter_In. Qed.

End ListFacts.

(** ** Resource store *)

Module StoreFacts.
Import ListFacts Store.

Lemma created_snoc_create log u : created (log ++ [CreateObjectURL u]) = created log ++ [u].
Proof. unfold created. by rewrite omap_app. Qed.

Lemma created_snoc_revoke log u : created (log ++ [RevokeObjectURL u]) = created log.
Proof. unfold created. rewrite omap_app. simpl. by rewrite app_nil_r. Qed.

Lemma revoked_snoc_create log u : revoked (log ++ [CreateObjectURL u]) = revoked log.
Proof. unfold revoked. rewrite omap_app. simpl. by rewrite app_nil_r. Qed.

Lemma revoked_snoc_revoke log u : revoked (log ++ [RevokeObjectURL u]) = revoked log ++ [u].
Proof. unfold revoked. by rewrite omap_app. Qed.

Lemma created_app_creates log us :
  created (log ++ (CreateObjectURL <$> us)) = created log ++ us.
Proof.
  unfold created. rewrite omap_app. f_equal.
  induction us as [|u us IH]; simpl; [done | by f_equal].
Qed.

Lemma revoked_app_creates log us :
  revoked (log ++ (CreateObjectURL <$> us)) = revoked log.
Proof.
  unfold revoked. rewrite omap_app. rewrite <- (app_nil_r (omap _ log)) at 2.
  f_equal. induction us as [|u us IH]; simpl; done.
Qed.

Lemma upload_loop_spec files : ∀ i next log,
  let r := upload_loop i files next log in
  id <$> r.1 = batch_ids i files
  ∧ url <$> r.1 = seq next (length files)
  ∧ r.2 = ((next + length files)%nat,
           log ++ (CreateObjectURL <$> seq next (length files))).
Proof.
  induction files as [|[f now] rest IH]; intros i next log; simpl.
  - by rewrite Nat.add_0_r, app_nil_r.
  - specialize (IH (S i) (S next) (log ++ [CreateObjectURL next])).
    destruct (upload_loop (S i) rest (S next) (log ++ [CreateObjectURL next]))
      as [newFiles reg]; simpl in *.
    destruct IH as (Hid & Hurl & Hreg). repeat split.
    + f_equal. exact Hid.
    + f_equal. exact Hurl.
    + rewrite Hreg, <- app_assoc. simpl. f_equal. lia.
Qed.

Lemma update_files_spec i newUrl newSize files : ∀ log,
  update_files i newUrl newSize files log =
    (swap_in i newUrl newSize <$> files,
     log ++ (RevokeObjectURL <$>
               (url <$> List.filter (λ f, String.eqb (id f) i) files))).
Proof.
  induction files as [|file rest IH]; intros log; simpl.
  - by rewrite app_nil_r.
  - unfold swap_in at 1. destruct (String.eqb (id file) i) eqn:E.
    + rewrite IH. simpl. by rewrite <- app_assoc.
    + by rewrite IH.
Qed.

Lemma filter_id_unique i files :
  NoDup (id <$> files) →
  List.filter (λ f, String.eqb (id f) i) files = []
  ∨ ∃ f, List.filter (λ f, String.eqb (id f) i) files = [f] ∧ f ∈ files ∧ id f = i.
Proof.
  induction files as [|a l IH]; simpl; intros Hnd; [by left|].
  apply NoDup_cons in Hnd as [Hna Hnd].
  destruct (String.eqb (id a) i) eqn:E.
  - right. exists a. apply String.eqb_eq in E. split; [|split; [apply list_elem_of_here | done]].
    f_equal. destruct (IH Hnd) as [->|(f & _ & Hf & Hi)]; [done|].
    exfalso. apply Hna. rewrite E, <- Hi. by apply list_elem_of_fmap_2.
  - destruct (IH Hnd) as [->|(f & -> & Hf & Hi)]; [by left|].
    right. exists f. split; [done|]. split; [by apply list_elem_of_further | done].
Qed.

Lemma handles_ok_init : handles_ok init.
Proof.
  constructor; simpl; try by constructor.
  - intros f Hf. by apply elem_of_nil in Hf.
  - intros u. split; [intros Hu; by apply elem_of_nil in Hu | lia].
  - intros u Hu. by apply elem_of_nil in Hu.
  - intros f Hf. discriminate.
Qed.

Lemma handles_ok_upload files s :
  handles_ok s →
  NoDup (batch_ids 0 files) →
  (∀ x, x ∈ batch_ids 0 files → x ∉ id <$> uploadedFiles s) →
  handles_ok (handleFileUpload files s).
Proof.
  intros [Hids Hurls Hlive Hrev Hbelow Hrc Hsnap] Hnd Hfresh.
  unfold handleFileUpload.
  pose proof (upload_loop_spec files 0 (next_url s) (url_log s)) as Hspec.
  destruct (upload_loop 0 files (next_url s) (url_log s)) as [newFiles [next log]].
  simpl in Hspec. destruct Hspec as (Hid & Hurl & Hreg).
  injection Hreg as -> ->.
  constructor; simpl.
  - rewrite fmap_app, Hid. apply NoDup_app. split; [done|]. split; [|done].
    intros x Hx Hx'. by apply (Hfresh x).
  - rewrite fmap_app, Hurl. apply NoDup_app. split; [done|]. split; [|apply NoDup_seq].
    intros u Hu Hu'. apply list_elem_of_fmap in Hu as (f & -> & Hf).
    apply Hlive in Hf as [Hc _]. apply Hbelow in Hc.
    apply elem_of_seq in Hu'. lia.
  - intros f Hf. unfold live. rewrite created_app_creates, revoked_app_creates.
    apply elem_of_app in Hf as [Hf|Hf].
    + destruct (Hlive f Hf) as [Hc Hr]. split; [|done].
      apply elem_of_app. by left.
    + assert (url f ∈ seq (next_url s) (length files)) as Hu.
      { rewrite <- Hurl. by apply list_elem_of_fmap_2. }
      split; [apply elem_of_app; by right|].
      intros Hr. apply Hrc, Hbelow in Hr. apply elem_of_seq in Hu. lia.
  - by rewrite revoked_app_creates.
  - intros u. rewrite created_app_creates, elem_of_app, elem_of_seq, Hbelow. lia.
  - intros u. rewrite created_app_creates, revoked_app_creates, elem_of_app. auto.
  - intros f Hf. rewrite fmap_app. apply elem_of_app. left. by apply Hsnap.
Qed.

Lemma handles_ok_select file s :
  handles_ok s → file ∈ uploadedFiles s → handles_ok (handleFileSelect file s).
Proof.
  intros [Hids Hurls Hlive Hrev Hbelow Hrc Hsnap] Hin.
  constructor; simpl; try done.
  intros f [= <-]. by apply list_elem_of_fmap_2.
Qed.

Lemma handles_ok_close s : handles_ok s → handles_ok (handleCloseViewer s).
Proof.
  intros [Hids Hurls Hlive Hrev Hbelow Hrc Hsnap].
  constructor; simpl; try done.
Qed.

Lemma elem_of_keep i (files : list UploadedFile) g :
  g ∈ List.filter (λ f, negb (String.eqb (id f) i)) files ↔ g ∈ files ∧ id g ≠ i.
Proof.
  rewrite !list_elem_of_In, filter_In, negb_true_iff, String.eqb_neq. done.
Qed.

Lemma handles_ok_delete i s : handles_ok s → handles_ok (handleFileDelete i s).
Proof.
  intros [Hids Hurls Hlive Hrev Hbelow Hrc Hsnap].
  assert (Hs : ∀ f, selectedFile (handleFileDelete i s) = Some f →
            id f ∈ id <$> uploadedFiles (handleFileDelete i s)).
  { simpl. unfold selected_is, seen_is. intros f Hf.
    destruct (selectedFile s) as [f0|] eqn:Hsel; [|discriminate].
    destruct (String.eqb (id f0) i) eqn:E; [discriminate|].
    injection Hf as <-. pose proof (Hsnap f0 eq_refl) as Hlisted.
    apply list_elem_of_fmap in Hlisted as (g & Hgi & Hg).
    rewrite Hgi. apply list_elem_of_fmap_2, elem_of_keep. split; [done|].
    rewrite <- Hgi. by apply String.eqb_neq. }
  unfold handleFileDelete in *. rewrite find_filter_head in *.
  destruct (filter_id_unique i _ Hids) as [Hnone|(f & Hone & Hf & Hfi)].
  - rewrite Hnone in *. simpl in *.
    constructor; simpl; try done.
    + by apply NoDup_fmap_filter.
    + by apply NoDup_fmap_filter.
    + intros g Hg. apply elem_of_keep in Hg as [Hg _]. by apply Hlive.
  - rewrite Hone in *. simpl in *.
    destruct (Hlive f Hf) as [Hfc Hfr].
    constructor; simpl; try done.
    + by apply NoDup_fmap_filter.
    + by apply NoDup_fmap_filter.
    + intros g Hg. apply elem_of_keep in Hg as [Hg Hgi].
      destruct (Hlive g Hg) as [Hc Hr]. unfold live.
      rewrite created_snoc_revoke, revoked_snoc_revoke. split; [done|].
      rewrite elem_of_app, list_elem_of_singleton. intros [Hr'|Heq]; [done|].
      apply Hgi. rewrite <- Hfi. f_equal.
      by apply (NoDup_fmap_inj_on url (uploadedFiles s)).
    + rewrite revoked_snoc_revoke. apply NoDup_app. split; [done|].
      split; [|apply NoDup_singleton].
      intros u Hu Hu'. apply list_elem_of_singleton in Hu'. by subst.
    + intros u. by rewrite created_snoc_revoke.
    + intros u. rewrite created_snoc_revoke, revoked_snoc_revoke, elem_of_app,
        list_elem_of_singleton. intros [Hu | ->]; auto.
Qed.


Lemma created_app_revokes log us :
  created (log ++ (RevokeObjectURL <$> us)) = created log.
Proof.
  unfold created. rewrite omap_app. rewrite <- (app_nil_r (omap _ log)) at 2.
  f_equal. induction us as [|u us IH]; simpl; done.
Qed.

Lemma revoked_app_revokes log us :
  revoked (log ++ (RevokeObjectURL <$> us)) = revoked log ++ us.
Proof.
  unfold revoked. rewrite omap_app. f_equal.
  induction us as [|u us IH]; simpl; [done | by f_equal].
Qed.

Lemma swap_in_id i newUrl newSize f : id (swap_in i newUrl newSize f) = id f.
Proof. unfold swap_in. by destruct (String.eqb (id f) i). Qed.

Lemma swap_in_hit i newUrl newSize f :
  id f = i →
  url (swap_in i newUrl newSize f) = newUrl ∧ size (swap_in i newUrl newSize f) = newSize.
Proof. intros <-. unfold swap_in. by rewrite String.eqb_refl. Qed.

Lemma swap_in_miss i newUrl newSize f : id f ≠ i → swap_in i newUrl newSize f = f.
Proof. intros Hne. unfold swap_in. apply String.eqb_neq in Hne. by rewrite Hne. Qed.

Lemma swap_in_ids i newUrl newSize (files : list UploadedFile) :
  id <$> (swap_in i newUrl newSize <$> files) = id <$> files.
Proof.
  induction files as [|a l IH]; simpl; [done|].
  rewrite swap_in_id. f_equal. exact IH.
Qed.

Lemma swap_in_url_cases i newUrl newSize (files : list UploadedFile) u :
  u ∈ url <$> (swap_in i newUrl newSize <$> files) →
  u = newUrl ∨ u ∈ url <$> files.
Proof.
  intros Hu. apply list_elem_of_fmap in Hu as (g' & -> & Hg').
  apply list_elem_of_fmap in Hg' as (g & -> & Hg).
  destruct (decide (id g = i)) as [Hi|Hi].
  - left. by apply swap_in_hit.
  - right. rewrite swap_in_miss by done. by apply list_elem_of_fmap_2.
Qed.

Lemma swap_in_urls_distinct i newUrl newSize (files : list UploadedFile) :
  NoDup (id <$> files) → NoDup (url <$> files) → newUrl ∉ url <$> files →
  NoDup (url <$> (swap_in i newUrl newSize <$> files)).
Proof.
  induction files as [|a l IH]; simpl; intros Hids Hurls Hnew; [constructor|].
  apply NoDup_cons in Hids as [Hia Hids]. apply NoDup_cons in Hurls as [Hua Hurls].
  apply not_elem_of_cons in Hnew as [Hna Hnew].
  apply NoDup_cons. split; [|by apply IH].
  intros Hin. destruct (decide (id a = i)) as [Hi|Hi].
  - destruct (swap_in_hit i newUrl newSize a Hi) as [Hu _].
    change (list_fmap _ _ ?f ?l) with (f <$> l) in Hin. rewrite Hu in Hin.
    apply list_elem_of_fmap in Hin as (g' & Hg'u & Hg').
    apply list_elem_of_fmap in Hg' as (g & -> & Hg).
    assert (id g ≠ i) as Hgi.
    { intros Hgi. apply Hia. rewrite Hi, <- Hgi. by apply list_elem_of_fmap_2. }
    rewrite swap_in_miss in Hg'u by done.
    apply Hnew. rewrite Hg'u. by apply list_elem_of_fmap_2.
  - rewrite swap_in_miss in Hin by done.
    apply swap_in_url_cases in Hin as [Heq|Hin]; [congruence | done].
Qed.

Lemma handles_ok_update seen i b s :
  handles_ok s → handles_ok (handleFileUpdate seen i b s).
Proof.
  intros [Hids Hurls Hlive Hrev Hbelow Hrc Hsnap].
  unfold handleFileUpdate. rewrite update_files_spec.
  set (newUrl := next_url s). set (sz := blob_size b).
  set (hits := List.filter (λ f, String.eqb (id f) i) (uploadedFiles s)).
  assert (Hfresh : newUrl ∉ created (url_log s)).
  { intros Hc. apply Hbelow in Hc. unfold newUrl in Hc. lia. }
  assert (Hhits : ∀ f, f ∈ hits → f ∈ uploadedFiles s ∧ id f = i).
  { intros f Hf. apply list_elem_of_In, filter_In in Hf as [Hf Hi].
    split; [by apply list_elem_of_In | by apply String.eqb_eq]. }
  assert (Hhu : NoDup (url <$> hits)) by by apply NoDup_fmap_filter.
  constructor; simpl.
  - by rewrite swap_in_ids.
  - apply swap_in_urls_distinct; [done..|].
    intros Hin. apply list_elem_of_fmap in Hin as (f & Hfu & Hf).
    apply Hlive in Hf as [Hc _]. apply Hfresh. by rewrite Hfu.
  - intros g' Hg'. apply list_elem_of_fmap in Hg' as (g & -> & Hg).
    unfold live. rewrite created_app_revokes, revoked_app_revokes,
      created_snoc_create, revoked_snoc_create.
    destruct (Hlive g Hg) as [Hc Hr].
    destruct (decide (id g = i)) as [Hi|Hi].
    + destruct (swap_in_hit i newUrl sz g Hi) as [-> _]. split.
      * apply elem_of_app. right. by apply list_elem_of_singleton.
      * rewrite elem_of_app. intros [Hr'|Hr']; [by apply Hfresh, Hrc|].
        apply list_elem_of_fmap in Hr' as (f & Hfu & Hf).
        apply Hhits in Hf as [Hf _]. apply Hlive in Hf as [Hc' _].
        apply Hfresh. by rewrite Hfu.
    + rewrite swap_in_miss by done. split; [apply elem_of_app; by left|].
      rewrite elem_of_app. intros [Hr'|Hr']; [done|].
      apply list_elem_of_fmap in Hr' as (f & Hfu & Hf).
      apply Hhits in Hf as [Hf Hfi]. apply Hi. rewrite <- Hfi. f_equal.
      by apply (NoDup_fmap_inj_on url (uploadedFiles s)).
  - rewrite revoked_app_revokes, revoked_snoc_create. apply NoDup_app.
    split; [done|]. split; [|done].
    intros u Hu Hu'. apply list_elem_of_fmap in Hu' as (f & -> & Hf).
    apply Hhits in Hf as [Hf _]. by apply Hlive in Hf as [_ Hr].
  - intros u. rewrite created_app_revokes, created_snoc_create, elem_of_app,
      list_elem_of_singleton, Hbelow. unfold newUrl. lia.
  - intros u. rewrite created_app_revokes, revoked_app_revokes,
      created_snoc_create, revoked_snoc_create, !elem_of_app.
    intros [Hu|Hu]; [left; by apply Hrc|].
    apply list_elem_of_fmap in Hu as (f & -> & Hf).
    apply Hhits in Hf as [Hf _]. left. by apply Hlive in Hf as [Hc _].
  - intros f Hf. rewrite swap_in_ids.
    destruct (selectedFile s) as [f0|] eqn:Hsel; [|by destruct (seen_is i seen)].
    pose proof (Hsnap f0 eq_refl) as Hlisted.
    destruct (seen_is i seen); injection Hf as <-; exact Hlisted.
Qed.


Lemma upload_ids files s :
  id <$> uploadedFiles (handleFileUpload files s)
  = (id <$> uploadedFiles s) ++ batch_ids 0 files.
Proof.
  unfold handleFileUpload.
  pose proof (upload_loop_spec files 0 (next_url s) (url_log s)) as Hspec.
  destruct (upload_loop 0 files (next_url s) (url_log s)) as [newFiles [next log]].
  simpl in *. destruct Hspec as (Hid & _ & _). by rewrite fmap_app, Hid.
Qed.

Lemma step_ids_known o s (seen : list string) :
  (∀ x, x ∈ id <$> uploadedFiles s → x ∈ seen) →
  ∀ x, x ∈ id <$> uploadedFiles (step s o) → x ∈ seen ++ minted [o].
Proof.
  intros Hseen x Hx. destruct o as [files|n|i|seen0 i b|]; simpl in *.
  - rewrite upload_ids in Hx. rewrite app_nil_r.
    apply elem_of_app in Hx as [Hx|Hx]; apply elem_of_app; auto.
  - rewrite app_nil_r. destruct (uploadedFiles s !! n); auto.
  - rewrite app_nil_r. apply Hseen.
    apply list_elem_of_fmap in Hx as (g & -> & Hg).
    apply elem_of_keep in Hg as [Hg _]. by apply list_elem_of_fmap_2.
  - rewrite app_nil_r. apply Hseen. unfold handleFileUpdate in Hx.
    rewrite update_files_spec in Hx. simpl in Hx. by rewrite swap_in_ids in Hx.
  - rewrite app_nil_r. auto.
Qed.

Lemma minted_cons o ops : minted (o :: ops) = minted [o] ++ minted ops.
Proof. destruct o; simpl; by rewrite ?app_nil_r. Qed.

Create HintDb store.
#[local] Hint Resolve handles_ok_delete handles_ok_update handles_ok_close : store.

Lemma handles_ok_step o s (seen : list string) :
  handles_ok s →
  (∀ x, x ∈ id <$> uploadedFiles s → x ∈ seen) →
  NoDup (seen ++ minted [o]) →
  handles_ok (step s o).
Proof.
  intros Hok Hseen Hnd. destruct o as [files|n|i|seen0 i b|]; simpl in *.
  - rewrite app_nil_r in Hnd. apply NoDup_app in Hnd as (_ & Hdisj & Hnd).
    apply handles_ok_upload; [done..|].
    intros x Hx Hx'. by apply (Hdisj x); [apply Hseen|].
  - destruct (uploadedFiles s !! n) as [file|] eqn:E; [|done].
    apply handles_ok_select; [done|]. by eapply list_elem_of_lookup_2.
  - auto with store.
  - auto with store.
  - auto with store.
Qed.

Lemma handles_ok_run ops : ∀ s (seen : list string),
  handles_ok s →
  (∀ x, x ∈ id <$> uploadedFiles s → x ∈ seen) →
  NoDup (seen ++ minted ops) →
  handles_ok (run ops s).
Proof.
  induction ops as [|o ops IH]; intros s seen Hok Hseen Hnd; [done|].
  rewrite minted_cons, app_assoc in Hnd.
  apply (IH (step s o) (seen ++ minted [o])); [|by apply step_ids_known|done].
  apply (handles_ok_step o s seen); [done..|].
  by apply NoDup_app in Hnd as (? & _ & _).
Qed.

Lemma handles_ok_replace_ordered s : handles_ok s → replace_ordered s.
Proof.
  intros Hok seen i b f Hf Hi. unfold handleFileUpdate. rewrite update_files_spec. simpl.
  destruct (filter_id_unique i _ (ids_distinct s Hok)) as [Hnone|(g & Hone & Hg & Hgi)].
  - exfalso. assert (In f (List.filter (λ f, String.eqb (id f) i) (uploadedFiles s))) as Hin.
    { apply filter_In. split; [by apply list_elem_of_In | by apply String.eqb_eq]. }
    by rewrite Hnone in Hin.
  - assert (g = f) as ->.
    { apply (NoDup_fmap_inj_on id (uploadedFiles s));
        [by apply ids_distinct|done..|congruence]. }
    rewrite Hone. simpl. by rewrite <- app_assoc.
Qed.

(** Under distinct ids every reachable state keeps its handles in order. *)
Lemma handles_ok_reachable ops : NoDup (minted ops) → handles_ok (run ops init).
Proof.
  intros Hnd. apply (handles_ok_run ops init []); [apply handles_ok_init| |done].
  intros x Hx. simpl in Hx. by apply elem_of_nil in Hx.
Qed.

(** C1. The ids are minted from the clock and the index in the batch, so two
    batches stamped in the same millisecond give their first files the same
    id. A save of that id from the editor of the first file then rewrites
    both records: they hold one URL between them, and the next save revokes
    that URL once per record, twice in all. *)
Theorem C1_same_tick_shared_handle :
  minted same_tick_ops = ["1000-0"; "1000-0"]
  ∧ id <$> uploadedFiles (run same_tick_ops init) = ["1000-0"; "1000-0"]
  ∧ url <$> uploadedFiles (run (take 4 same_tick_ops) init) = [2; 2]
  ∧ revoked (url_log (run same_tick_ops init)) = [0; 1; 2; 2]
  ∧ ¬ NoDup (revoked (url_log (run same_tick_ops init))).
Proof.
  split; [reflexivity|]. split; [reflexivity|]. split; [reflexivity|].
  split; [reflexivity|].
  change (¬ NoDup [0; 1; 2; 2]). intros Hnd.
  apply NoDup_cons in Hnd as [_ Hnd]. apply NoDup_cons in Hnd as [_ Hnd].
  apply NoDup_cons in Hnd as [Hnin _]. apply Hnin, list_elem_of_here.
Qed.

End StoreFacts.

(** ** Grid document model *)

Module GridFacts.
Import ListFacts Grid.

(** Membership in a list that computes to a literal: one case per element. *)
Ltac each_member H tac :=
  repeat (apply elem_of_cons in H as [->|H]; [tac|]);
  by apply elem_of_nil in H.

Lemma or_else_empty_idem v : or_else (or_else v (VStr "")) (VStr "") = or_else v (VStr "").
Proof. unfold or_else. destruct (truthy v) eqn:E; [by rewrite E | done]. Qed.

Lemma or_else_text v : is_text v → is_text (or_else v (VStr "")).
Proof. intros [t ->]. unfold or_else. destruct (truthy (VStr t)); by eexists. Qed.

Lemma or_else_undef d : or_else VUndef d = d.
Proof. done. Qed.

(** *** Arrays with empty slots *)

Lemma dense_lookup {A} (l : list A) i : dense l !! i = Some <$> l !! i.
Proof. apply list_lookup_fmap. Qed.

Lemma at_index_dense (cells : list value) i :
  at_index (dense cells) i = default VUndef (cells !! i).
Proof. unfold at_index. rewrite dense_lookup. by destruct (cells !! i). Qed.

Lemma defined_elem cols col : col ∈ defined cols ↔ Col col ∈ cols.
Proof.
  unfold defined. rewrite list_elem_of_omap. split.
  - intros (x & Hx & Hc). destruct x; try done. by injection Hc as ->.
  - intros Hc. by exists (Col col).
Qed.

Lemma defined_cols (cols : list Column) : defined (Col <$> cols) = cols.
Proof.
  unfold defined. induction cols as [|c cols IH]; [done|]. simpl. by f_equal.
Qed.

Lemma defined_app l1 l2 : defined (l1 ++ l2) = defined l1 ++ defined l2.
Proof. apply omap_app. Qed.

Lemma defined_spread cols : defined (spread cols) = defined cols.
Proof.
  unfold defined. induction cols as [|[| |c] cols IH]; simpl; [done..|by f_equal].
Qed.

Lemma defined_dense_headers (f : nat → value → Column) (names : list value) :
  defined (imap (λ i h, match h with Some v => Col (f i v) | None => Empty end)
                (dense names))
  = imap f names.
Proof.
  revert f. induction names as [|h names IH]; intros f; [done|].
  unfold dense. rewrite fmap_cons, !imap_cons. simpl. f_equal. apply (IH (f ∘ S)).
Qed.

Lemma loaded_defined (names : list value) :
  defined (imap make_slot (dense names)) = imap make_column names.
Proof. apply (defined_dense_headers make_column). Qed.

(** *** Assignment to a property *)

Lemma assign_lookup_ne k v (obj : gmap string value) k' :
  k ≠ k' → assign k v obj !! k' = obj !! k'.
Proof.
  intros Hne. unfold assign. destruct (obj !! k); [by rewrite lookup_insert_ne|].
  destruct (String.eqb k "__proto__"); [done | by rewrite lookup_insert_ne].
Qed.

Lemma assign_lookup_eq k v (obj : gmap string value) :
  k ≠ "__proto__" → assign k v obj !! k = Some v.
Proof.
  intros Hne. unfold assign. destruct (obj !! k); [apply lookup_insert_eq|].
  apply String.eqb_neq in Hne. rewrite Hne. apply lookup_insert_eq.
Qed.

Lemma assign_keeps k v (obj : gmap string value) k' :
  is_Some (obj !! k') → is_Some (assign k v obj !! k').
Proof.
  intros Hs. destruct (decide (k = k')) as [->|Hne]; [|by rewrite assign_lookup_ne].
  unfold assign. destruct Hs as [w Hw]. rewrite Hw, lookup_insert_eq. by eexists.
Qed.

(** No assignment of a primitive gives an object a [__proto__] of its own. *)
Lemma assign_no_proto k v (obj : gmap string value) :
  obj !! "__proto__" = None → assign k v obj !! "__proto__" = None.
Proof.
  intros Hn. destruct (decide (k = "__proto__")) as [->|Hne];
    [|by rewrite assign_lookup_ne].
  unfold assign. by rewrite Hn.
Qed.

Lemma assign_proto_ignored v (obj : gmap string value) :
  obj !! "__proto__" = None → assign "__proto__" v obj = obj.
Proof. intros Hn. unfold assign. by rewrite Hn. Qed.

(** *** The [forEach] that fills a row *)

Lemma fill_row_other headers : ∀ i row (obj : gmap string value) k,
  (∀ j h, headers !! j = Some (Some h) → header_key h (i + j) ≠ k) →
  fill_row headers i row obj !! k = obj !! k.
Proof.
  induction headers as [|[h|] rest IH]; intros i row obj k Hk; simpl; [done| |].
  - rewrite IH.
    + apply assign_lookup_ne. specialize (Hk 0 h eq_refl). by rewrite Nat.add_0_r in Hk.
    + intros j h' Hj. specialize (Hk (S j) h' Hj). by rewrite Nat.add_succ_r in Hk.
  - apply IH. intros j h' Hj. specialize (Hk (S j) h' Hj).
    by rewrite Nat.add_succ_r in Hk.
Qed.

Lemma fill_row_last headers : ∀ i row (obj : gmap string value) j h,
  headers !! j = Some (Some h) →
  header_key h (i + j) ≠ "__proto__" →
  (∀ j' h', j < j' → headers !! j' = Some (Some h') →
     header_key h' (i + j') ≠ header_key h (i + j)) →
  fill_row headers i row obj !! header_key h (i + j)
  = Some (or_else (at_index row (i + j)) (VStr "")).
Proof.
  induction headers as [|h0 rest IH]; intros i row obj j h Hj Hnp Hlater; [done|].
  destruct j as [|j].
  - injection Hj as ->. rewrite Nat.add_0_r in *. cbn [fill_row].
    rewrite fill_row_other; [by apply assign_lookup_eq|].
    intros j' h' Hj'. specialize (Hlater (S j') h'). rewrite Nat.add_succ_r in Hlater.
    apply Hlater; [lia | done].
  - cbn [fill_row]. rewrite Nat.add_succ_r in *. change (S (i + j)) with (S i + j) in *.
    apply IH; [done | done |]. intros j' h' Hlt Hj'.
    specialize (Hlater (S j') h'). rewrite Nat.add_succ_r in Hlater.
    apply Hlater; [lia | done].
Qed.

Lemma fill_row_keeps headers : ∀ i row (obj : gmap string value) k,
  is_Some (obj !! k) → is_Some (fill_row headers i row obj !! k).
Proof.
  induction headers as [|[h|] rest IH]; intros i row obj k Hk; simpl; [done| |].
  - by apply IH, assign_keeps.
  - by apply IH.
Qed.

Lemma fill_row_has_key headers : ∀ i row (obj : gmap string value) c h,
  headers !! c = Some (Some h) →
  header_key h (i + c) ≠ "__proto__" →
  is_Some (fill_row headers i row obj !! header_key h (i + c)).
Proof.
  induction headers as [|h0 rest IH]; intros i row obj c h Hc Hnp; [done|].
  destruct c as [|c].
  - injection Hc as ->. rewrite Nat.add_0_r in *. cbn [fill_row].
    apply fill_row_keeps. rewrite assign_lookup_eq by done. by eexists.
  - cbn [fill_row]. rewrite Nat.add_succ_r in *. change (S (i + c)) with (S i + c) in *.
    by apply IH.
Qed.

Lemma fill_row_no_proto headers : ∀ i row (obj : gmap string value),
  obj !! "__proto__" = None → fill_row headers i row obj !! "__proto__" = None.
Proof.
  induction headers as [|[h|] rest IH]; intros i row obj Hn; simpl; [done| |].
  - by apply IH, assign_no_proto.
  - by apply IH.
Qed.

(** On success the columns follow the first row, slot by slot. *)
Lemma loaded_columns s sheetName headers rows c :
  columns (loadExcelData (Some (sheetName, headers :: rows)) s) !! c
  = make_slot c <$> headers !! c.
Proof. simpl. apply list_lookup_imap. Qed.

Lemma loaded_rows s sheetName headers rows r :
  data (loadExcelData (Some (sheetName, headers :: rows)) s) !! r
  = make_row headers r <$> rows !! r.
Proof. simpl. apply list_lookup_imap. Qed.

(** The column objects of a loaded sheet come from the header cells that
    are there. *)
Lemma loaded_column_inv headers col :
  col ∈ defined (imap make_slot headers) →
  ∃ c h, headers !! c = Some (Some h) ∧ col = make_column c h.
Proof.
  intros Hcol. apply defined_elem, list_elem_of_lookup in Hcol as [c Hc].
  rewrite list_lookup_imap in Hc.
  destruct (headers !! c) as [[h|]|] eqn:Hh; try done.
  injection Hc as <-. by exists c, h.
Qed.

Lemma loaded_no_undefined headers : Undefined ∉ imap make_slot headers.
Proof.
  intros Hin. apply list_elem_of_lookup in Hin as [c Hc].
  rewrite list_lookup_imap in Hc. by destruct (headers !! c) as [[h|]|].
Qed.

(** *** The [forEach] of [addRow] *)

Lemma blank_row_some cols : ∀ (obj : gmap string value),
  Undefined ∉ cols → is_Some (blank_row cols obj).
Proof.
  induction cols as [|[| |c] cols IH]; intros obj Hnu; simpl.
  - by eexists.
  - apply IH. intros Hin. apply Hnu. by apply list_elem_of_further.
  - exfalso. apply Hnu, list_elem_of_here.
  - apply IH. intros Hin. apply Hnu. by apply list_elem_of_further.
Qed.

Lemma blank_row_none cols : ∀ (obj : gmap string value),
  Undefined ∈ cols → blank_row cols obj = None.
Proof.
  induction cols as [|[| |c] cols IH]; intros obj Hu; simpl.
  - by apply elem_of_nil in Hu.
  - apply IH. by apply elem_of_cons in Hu as [?|?].
  - done.
  - apply IH. by apply elem_of_cons in Hu as [?|?].
Qed.

Lemma blank_row_other cols : ∀ (obj r : gmap string value) k,
  blank_row cols obj = Some r → k ∉ key <$> defined cols → r !! k = obj !! k.
Proof.
  induction cols as [|[| |c] cols IH]; intros obj r k Hr Hk; simpl in *.
  - by injection Hr as <-.
  - by apply IH.
  - done.
  - apply not_elem_of_cons in Hk as [Hne Hk].
    rewrite (IH _ r k Hr Hk). by apply assign_lookup_ne.
Qed.

Lemma blank_row_keeps_blank cols : ∀ (obj r : gmap string value) k,
  blank_row cols obj = Some r → obj !! k = Some (VStr "") → r !! k = Some (VStr "").
Proof.
  induction cols as [|[| |c] cols IH]; intros obj r k Hr Hk; simpl in *.
  - by injection Hr as <-.
  - by eapply IH.
  - done.
  - apply (IH _ r k Hr). destruct (decide (key c = k)) as [<-|Hne].
    + unfold assign. rewrite Hk. apply lookup_insert_eq.
    + by rewrite assign_lookup_ne.
Qed.

Lemma blank_row_written cols : ∀ (obj r : gmap string value) k,
  blank_row cols obj = Some r → k ∈ key <$> defined cols → k ≠ "__proto__" →
  r !! k = Some (VStr "").
Proof.
  induction cols as [|[| |c] cols IH]; intros obj r k Hr Hk Hnp; simpl in *.
  - by apply elem_of_nil in Hk.
  - by eapply IH.
  - done.
  - apply elem_of_cons in Hk as [->|Hk]; [|by eapply IH].
    apply (blank_row_keeps_blank _ _ _ _ Hr). by apply assign_lookup_eq.
Qed.

Lemma blank_row_no_proto cols : ∀ (obj r : gmap string value),
  blank_row cols obj = Some r → obj !! "__proto__" = None → r !! "__proto__" = None.
Proof.
  induction cols as [|[| |c] cols IH]; intros obj r Hr Hn; simpl in *.
  - by injection Hr as <-.
  - by eapply IH.
  - done.
  - apply (IH _ r Hr). by apply assign_no_proto.
Qed.

Lemma blank_row_dense (cols : list Column) : ∀ (obj : gmap string value),
  blank_row (Col <$> cols) obj
  = Some (foldl (λ row col, assign (key col) (VStr "") row) obj cols).
Proof. induction cols as [|c cols IH]; intros obj; [done|]. simpl. apply IH. Qed.

(** The names [addColumn] makes up are not [__proto__]. *)
Lemma made_up_key_not_proto (n : nat) : "Column" +:+ pretty n ≠ "__proto__".
Proof. simpl. discriminate. Qed.

(** *** addRow / addColumn *)

Lemma addRow_spec s :
  Undefined ∉ columns s →
  columns (addRow s) = columns s
  ∧ ∃ newRow, data (addRow s) = data s ++ [newRow]
      ∧ ∀ col, col ∈ defined (columns s) → key col ≠ "__proto__" →
          newRow !! key col = Some (VStr "").
Proof.
  intros Hnu. unfold addRow.
  destruct (blank_row_some (columns s)
              {[ "id" := VNum (Z.of_nat (length (data s))) ]} Hnu) as [newRow Hrow].
  rewrite Hrow. split; [done|]. exists newRow. split; [done|].
  intros col Hcol Hnp. apply (blank_row_written _ _ _ _ Hrow); [|done].
  by apply list_elem_of_fmap_2.
Qed.

(** [addColumn] writes the empty string under the new key in every row and
    leaves every other property of every row alone. *)
Lemma addColumn_spec s :
  let newKey := "Column" +:+ pretty (length (columns s) + 1) in
  key <$> defined (columns (addColumn s)) = (key <$> defined (columns s)) ++ [newKey]
  ∧ length (data (addColumn s)) = length (data s)
  ∧ ∀ r row, data s !! r = Some row →
      ∃ row', data (addColumn s) !! r = Some row'
        ∧ row' !! newKey = Some (VStr "")
        ∧ ∀ k, k ≠ newKey → row' !! k = row !! k.
Proof.
  intros newKey. unfold addColumn. cbn [columns data].
  split; [by rewrite defined_app, defined_spread, fmap_app|].
  split; [apply length_fmap|].
  intros r row Hr. eexists. split.
  - rewrite list_lookup_fmap, Hr. done.
  - split; [apply lookup_insert_eq|]. intros k Hk. by apply lookup_insert_ne.
Qed.

(** C7. A header row with a blank cell between [a] and [c]: [sheet_to_json]
    leaves an empty slot there, which [headers.map] and [headers.forEach]
    skip. No column is made for it, no name [Column 2] is synthesized, and
    the cell [y] under it is in no row object. (For a header cell that is
    there but holds the empty string the name is synthesized.) *)
Theorem C7_blank_header_cell :
  columns blank_header_sheet
  = [Col (make_column 0 (VStr "a")); Empty; Col (make_column 2 (VStr "c"))]
  ∧ header_names blank_header_sheet = [VStr "a"; VStr "c"]
  ∧ (VStr "Column 2" ∉ header_names blank_header_sheet)
  ∧ data blank_header_sheet
    = [ {[ "id" := VNum 0; "a" := VStr "x"; "c" := VStr "z" ]} ]
  ∧ cell_text blank_header_sheet = [[Value (VStr "x"); Value (VStr "z")]]
  ∧ header_names
      (loadExcelData
         (Some ("Sheet1", dense <$> [[VStr "a"; VStr ""; VStr "c"];
                                     [VStr "x"; VStr "y"; VStr "z"]])) initial)
    = [VStr "a"; VStr "Column 2"; VStr "c"].
Proof.
  split; [reflexivity|]. split; [reflexivity|]. split.
  - intros Hin. change (VStr "Column 2" ∈ [VStr "a"; VStr "c"]) in Hin.
    apply elem_of_cons in Hin as [Heq|Hin]; [discriminate Heq|].
    apply elem_of_cons in Hin as [Heq|Hin]; [discriminate Heq|].
    by apply elem_of_nil in Hin.
  - split; [by vm_compute|]. split; reflexivity.
Qed.

(** A header that reads [__proto__]: the column is made, yet the assignment
    of the cell stores nothing, and the row shows [Object.prototype] in that
    column. *)
Lemma proto_header_cell_lost :
  header_names proto_sheet = [VStr "__proto__"]
  ∧ data proto_sheet = [ {[ "id" := VNum 0 ]} ]
  ∧ cell_text proto_sheet = [[Inherited]].
Proof. split; [reflexivity|]. split; [by vm_compute | reflexivity]. Qed.

(** C8. A sheet loaded with the single header [Column2] shows [x] in its
    only cell; [addColumn] then names the new column's key [Column2] as well,
    and the row shows the empty string in both columns. *)
Theorem C8_addColumn_key_clash :
  key <$> defined (columns column2_sheet) = ["Column2"]
  ∧ cell_text column2_sheet = [[Value (VStr "x")]]
  ∧ key <$> defined (columns (addColumn column2_sheet)) = ["Column2"; "Column2"]
  ∧ cell_text (addColumn column2_sheet) = [[Value (VStr ""); Value (VStr "")]].
Proof. repeat split; reflexivity. Qed.

(** *** Round trip through [handleSave] and [loadExcelData] *)

Lemma plain_codec_text : text_codec plain_codec.
Proof.
  intros aoa _. unfold plain_codec, written, dense.
  rewrite <- list_fmap_compose. apply list_fmap_ext. intros ? row ?. simpl.
  rewrite <- !list_fmap_compose. by apply list_fmap_ext.
Qed.

Lemma map_columns_cols {B} (f : Column → B) (cols : list Column) :
  map_columns f (Col <$> cols) = Some (dense (f <$> cols)).
Proof.
  induction cols as [|c cols IH]; [done|].
  rewrite fmap_cons. cbn [map_columns]. by rewrite IH.
Qed.

Lemma mapM_total {A B} (g : A → option B) (h : A → B) (l : list A) :
  (∀ x, x ∈ l → g x = Some (h x)) → mapM g l = Some (h <$> l).
Proof.
  induction l as [|a l IH]; intros Hg; [done|].
  simpl. rewrite (Hg a) by apply list_elem_of_here. simpl.
  rewrite IH; [done|]. intros x Hx. apply Hg. by apply list_elem_of_further.
Qed.

(** What [handleSave] writes for a grid of plain strings. *)
Lemma wsData_plain d :
  plain_grid d →
  wsData d = Some (written (text_of d)) ∧ Forall (Forall is_text) (text_of d).
Proof.
  intros (Hcols & Hnames & Hcells). unfold wsData, text_of, header_names.
  set (cols := defined (columns d)) in *. rewrite Hcols. split.
  - rewrite map_columns_cols. simpl.
    rewrite (mapM_total _ (λ row, dense ((λ col, or_blank (at_key row (key col)))
                                           <$> cols))).
    + simpl. f_equal. f_equal.
      * unfold dense. by rewrite <- !list_fmap_compose.
      * unfold written. rewrite <- list_fmap_compose. apply list_fmap_ext. intros r row Hr. simpl.
        unfold dense. rewrite <- !list_fmap_compose. apply list_fmap_ext.
        intros c col Hc. simpl. f_equal.
        destruct (Hcells row col) as [t Ht]; [by eapply list_elem_of_lookup_2..|].
        unfold at_key. by rewrite Ht.
    + intros row _. apply map_columns_cols.
  - apply Forall_cons. split.
    + apply Forall_fmap, Forall_forall. intros col Hcol. by apply Hnames.
    + apply Forall_fmap, Forall_forall. intros row Hrow.
      apply Forall_fmap, Forall_forall. intros col Hcol. simpl.
      destruct (Hcells row col Hrow Hcol) as [t Ht]. rewrite Ht. simpl.
      apply or_else_text. by eexists.
Qed.

Lemma header_name_truthy h i : truthy h = true → header_name h i = h.
Proof. intros H. unfold header_name, or_else. by rewrite H. Qed.

Lemma header_key_text t i : truthy (VStr t) = true → header_key (VStr t) i = t.
Proof. intros H. unfold header_key, or_else. by rewrite H. Qed.

Lemma reloaded_names (names : list value) :
  (∀ h, h ∈ names → truthy h = true) →
  name <$> imap make_column names = names.
Proof.
  intros Htruthy. apply list_eq. intros i.
  rewrite list_lookup_fmap, list_lookup_imap.
  destruct (names !! i) as [h|] eqn:Hi; [|done]. simpl.
  rewrite header_name_truthy; [done|]. apply Htruthy. by eapply list_elem_of_lookup_2.
Qed.

Lemma reloaded_cells (names cells : list value) r :
  (∀ h, h ∈ names → is_text h ∧ truthy h = true) →
  NoDup names →
  (VStr "__proto__" ∉ names) →
  length cells = length names →
  (λ col, or_blank (at_key (make_row (dense names) r (dense cells)) (key col)))
    <$> imap make_column names
  = (λ v, Value (or_else v (VStr ""))) <$> cells.
Proof.
  intros Hnames Hnd Hnp Hlen. apply list_eq. intros j.
  rewrite !list_lookup_fmap, list_lookup_imap.
  destruct (names !! j) as [h|] eqn:Hj; simpl.
  - assert (is_Some (cells !! j)) as [v Hv].
    { apply lookup_lt_is_Some. rewrite Hlen. by eapply lookup_lt_Some. }
    rewrite Hv. simpl. f_equal. unfold at_key, make_row.
    destruct (Hnames h) as [[t ->] Ht]; [by eapply list_elem_of_lookup_2|].
    rewrite (fill_row_last (dense names) 0 (dense cells) _ j (VStr t)).
    + simpl. rewrite at_index_dense, Hv. simpl. by rewrite or_else_empty_idem.
    + by rewrite dense_lookup, Hj.
    + simpl. rewrite header_key_text by done. intros ->.
      apply Hnp. by eapply list_elem_of_lookup_2.
    + intros j' h' Hlt Hj'. simpl. rewrite dense_lookup in Hj'.
      destruct (names !! j') as [h''|] eqn:Hj''; [|done]. injection Hj' as ->.
      destruct (Hnames h') as [[t' ->] Ht']; [by eapply list_elem_of_lookup_2|].
      rewrite !header_key_text by done. intros ->.
      assert (j' = j); [|lia]. by eapply NoDup_lookup.
  - rewrite (lookup_ge_None_2 cells j); [done|].
    rewrite Hlen. by apply lookup_ge_None.
Qed.

Section RoundTrip.

(** The way from [handleSave] back into [loadExcelData], through a codec
    that hands string-only sheets back as written. *)
Variable codec : list (list (option cell)) → list (list (option value)).
Hypothesis codec_text : text_codec codec.

Lemma reparse_plain d :
  plain_grid d →
  reparse codec d
  = Some (loadExcelData (Some (worksheetName d, dense <$> text_of d)) initial).
Proof.
  intros Hplain. destruct (wsData_plain d Hplain) as [Hws Htext].
  unfold reparse. rewrite Hws. cbn [fmap option_fmap option_map].
  by rewrite (codec_text _ Htext).
Qed.


End RoundTrip.

Lemma ab_sheet_plain : plain_grid ab_sheet.
Proof.
  split; [reflexivity|]. split.
  - intros col Hcol. vm_compute in Hcol. each_member Hcol ltac:(by eexists).
  - intros row col Hrow Hcol. unfold ab_sheet, loadExcelData in Hrow.
    cbn [data imap fmap list_fmap] in Hrow. vm_compute in Hcol.
    each_member Hrow ltac:(each_member Hcol ltac:(eexists; by vm_compute)).
Qed.

Lemma ab_sheet_named_apart : named_apart ab_sheet.
Proof.
  split; [|split].
  - intros col Hcol. vm_compute in Hcol. each_member Hcol ltac:(done).
  - change (NoDup [VStr "a"; VStr "b"]).
    apply NoDup_cons. split; [|apply NoDup_singleton].
    intros Hin. by apply list_elem_of_singleton in Hin.
  - change (VStr "__proto__" ∉ [VStr "a"; VStr "b"]). intros Hin.
    apply elem_of_cons in Hin as [Heq|Hin]; [discriminate Heq|].
    apply elem_of_cons in Hin as [Heq|Hin]; [discriminate Heq|].
    by apply elem_of_nil in Hin.
Qed.


Lemma twin_names_plain : plain_grid twin_names_sheet.
Proof.
  split; [reflexivity|]. split.
  - intros col Hcol. vm_compute in Hcol. each_member Hcol ltac:(by eexists).
  - intros row col Hrow Hcol.
    unfold twin_names_sheet in Hrow. cbn [data handleRowsChange] in Hrow.
    apply list_elem_of_fmap in Hrow as (row0 & -> & Hrow0).
    cbn in Hrow0. apply list_elem_of_singleton in Hrow0 as ->.
    vm_compute in Hcol. each_member Hcol ltac:(eexists; by vm_compute).
Qed.


(** A second grid of plain strings that does not come back: the header
    [__proto__] over the cell [x]. After save and load the column is there
    and the cell is not. *)
Lemma proto_header_round_trip :
  ∃ d', reparse plain_codec
          (handleRowsChange [ {[ "id" := VNum 0; "__proto__" := VStr "x" ]} ] proto_sheet)
        = Some d'
    ∧ header_names d' = [VStr "__proto__"]
    ∧ cell_text d' = [[Inherited]].
Proof. eexists. split; [by vm_compute|]. split; reflexivity. Qed.

End GridFacts.

(** ** Paginated-document annotation engine *)

Module PdfFacts.
Import Pdf.

Local Open Scope Q_scope.

Lemma draw_on_nothing page : draw_on page [] = page.
Proof. destruct page. unfold draw_on. simpl. by rewrite app_nil_r. Qed.

Lemma page_at_lookup pages n page :
  page_at pages n = Some page → pages !! Z.to_nat (n - 1) = Some page.
Proof. unfold page_at. by destruct (1 <=? n)%Z. Qed.

(** Annotations are only ever appended: no event removes or rewrites one. *)
Ltac through_renderPage ed :=
  unfold renderPage; simpl; destruct (pdfDoc ed); [|done]; by destruct (page_at _ _).

Lemma step_keeps_annotations e ed a :
  a ∈ annotations ed → a ∈ annotations (step ed e).
Proof.
  intros Ha. destruct e; simpl.
  - apply elem_of_app. by left.
  - destruct (currentPage ed <=? 1)%Z; [done|]. through_renderPage ed.
  - destruct (totalPages ed <=? currentPage ed)%Z; [done|]. through_renderPage ed.
  - through_renderPage ed.
  - through_renderPage ed.
  - done.
Qed.

(** Serializing a document that has a page adds none. *)
Lemma save_pages (pages : list Page) : (0 < length pages)%nat → save pages = pages.
Proof. destruct pages; [simpl; lia | done]. Qed.

Lemma run_keeps_annotations events : ∀ ed a,
  a ∈ annotations ed → a ∈ annotations (run events ed).
Proof.
  induction events as [|e events IH]; intros ed a Ha; [done|].
  simpl. apply IH. by apply step_keeps_annotations.
Qed.

(** C4 (as amended). When the page [currentPage - 1] exists in the document
    parsed from the original bytes, [handleSave] hands [onSave] that document
    with the drawings of all annotations of the list, in list order, appended
    to that one page and every other page as parsed. This holds after any
    clicks and page changes: an annotation placed while another page was
    shown is still in the list and is drawn, on the page shown at save time. *)
Theorem C4_export_draws_all_on_current_page
    (events : list event) (ed0 : Editor) (pages : list Page) (page : Page) :
  let ed := run events ed0 in
  page_at pages (currentPage ed) = Some page →
  ∃ doc, handleSave (Some pages) ed = Some doc
    ∧ length doc = length pages
    ∧ doc !! Z.to_nat (currentPage ed - 1)
      = Some (draw_on page (draw <$> annotations ed))
    ∧ (∀ j, j ≠ Z.to_nat (currentPage ed - 1) → doc !! j = pages !! j)
    ∧ (∀ a, a ∈ annotations ed0 → persisted a doc).
Proof.
  intros ed Hpage. pose proof (page_at_lookup _ _ _ Hpage) as Hlook.
  assert (Z.to_nat (currentPage ed - 1) < length pages)%nat as Hlt
    by by eapply lookup_lt_Some.
  exists (<[Z.to_nat (currentPage ed - 1) := draw_on page (draw <$> annotations ed)]> pages).
  split.
  - unfold handleSave. rewrite Hpage.
    destruct (annotations ed) as [|a l] eqn:E.
    + simpl. rewrite draw_on_nothing, list_insert_id by done.
      f_equal. apply save_pages. lia.
    + f_equal. apply save_pages. rewrite length_insert. lia.
  - split; [apply length_insert|]. split; [by apply list_lookup_insert_eq|].
    split; [intros j Hj; by apply list_lookup_insert_ne|].
    intros a Ha. exists (draw_on page (draw <$> annotations ed)). split.
    + eapply list_elem_of_lookup_2. by apply list_lookup_insert_eq.
    + simpl. apply elem_of_app. right. apply list_elem_of_fmap_2.
      by apply run_keeps_annotations.
Qed.

Lemma C4_export_draws_all_on_current_page_witness :
  page_at two_pages (currentPage (run [Next] (handleCanvasClick 30 40 1000 opened)))
  = Some letter
  ∧ ∃ doc, handleSave (Some two_pages) (run [Next] (handleCanvasClick 30 40 1000 opened))
           = Some doc
      ∧ persisted (newAnnotation opened 30 40 1000) doc.
Proof.
  split; [reflexivity|].
  destruct (C4_export_draws_all_on_current_page
              [Next] (handleCanvasClick 30 40 1000 opened) two_pages letter eq_refl)
    as (doc & Hsave & _ & _ & _ & Hall).
  exists doc. split; [exact Hsave|]. apply Hall.
  simpl. apply list_elem_of_here.
Defined.

(** C4 (as stated) fails. An annotation placed on page 1 of a two-page
    document, followed by Next: the saved document carries its drawing, on
    page 2. *)
Lemma C4_placed_on_page_1_saved_on_page_2 :
  currentPage opened = 1%Z
  ∧ annotations click_then_next = [newAnnotation opened 30 40 1000]
  ∧ currentPage click_then_next = 2%Z
  ∧ ∃ doc, handleSave (Some two_pages) click_then_next = Some doc
      ∧ doc = [letter; draw_on letter [draw (newAnnotation opened 30 40 1000)]]
      ∧ persisted (newAnnotation opened 30 40 1000) doc.
Proof.
  split; [reflexivity|]. split; [reflexivity|]. split; [reflexivity|].
  eexists. split; [reflexivity|]. split; [reflexivity|].
  exists (draw_on letter [draw (newAnnotation opened 30 40 1000)]). split.
  - apply list_elem_of_further, list_elem_of_here.
  - apply list_elem_of_here.
Qed.

(** *** Coordinates *)

Lemma canvas_attr_below h : canvas_attr h <= h.
Proof. apply Qfloor_le. Qed.

Lemma canvas_attr_within h : h - canvas_attr h < 1.
Proof.
  unfold canvas_attr. pose proof (Qlt_floor h) as Hlt.
  rewrite inject_Z_plus in Hlt. change (inject_Z 1) with 1 in Hlt. lra.
Qed.

Lemma click_round_trip s canvasHeight viewportHeight px py :
  ¬ s == 0 →
  px / s * s == px
  ∧ viewportHeight - (canvasHeight - py) / s * s - py == viewportHeight - canvasHeight.
Proof. intros Hs. split; field; exact Hs. Qed.

(** The offset between a click and the point painted for it is the fraction
    the canvas height attribute drops from the viewport height. *)
Lemma click_offset (ed : Editor) (viewportHeight px py : Q) (now : Z) :
  ¬ scale ed == 0 →
  let p := screen_point (scale ed) viewportHeight (newAnnotation ed px py now) in
  p.1 == px ∧ p.2 - py == viewportHeight - canvas_height ed.
Proof. intros Hs p. by apply click_round_trip. Qed.

(** C6. A one-page A4 document at the scale 1.5 the editor mounts with: the
    viewport is 1262.835 pixels high and the canvas [height] attribute holds
    1262. [handleCanvasClick] converts with the attribute and
    [renderAnnotations] with the viewport height, so a click at (30, 40) is
    painted at x = 30 and at y = 40.835, not at the click. *)
Theorem C6_click_painted_below_click :
  let p := screen_point (scale opened_a4) (viewport_height a4 (scale opened_a4))
             (newAnnotation opened_a4 30 40 1000) in
  (1 # 2 <= scale opened_a4 <= 3)
  ∧ viewport_height a4 (scale opened_a4) == 1262835 # 1000
  ∧ canvas_height opened_a4 == 1262
  ∧ p.1 == 30
  ∧ p.2 == 40 + (835 # 1000)
  ∧ ¬ p.2 == 40.
Proof.
  split; [split; by vm_compute|]. split; [by vm_compute|]. split; [by vm_compute|].
  split; [by vm_compute|]. split; [by vm_compute|].
  intros H. vm_compute in H. discriminate H.
Qed.

End PdfFacts.

(** ** Session dispatcher *)

Module DispatchFacts.
Import Dispatch.

Lemma renderEditor_pdf type name :
  Js.includes type "pdf" = true → renderEditor type name = PaginatedDoc.
Proof. intros H. unfold renderEditor. by rewrite H. Qed.

Lemma renderEditor_unmatched type name :
  type_match type = None → extension_match name = false →
  renderEditor type name = PlainText.
Proof.
  unfold type_match, extension_match, renderEditor.
  destruct (Js.includes type "pdf"); [done|].
  destruct (Js.includes type "image"); [done|].
  destruct (Js.includes type "sheet"); [done|].
  destruct (Js.includes type "excel"); [done|]. simpl.
  intros _ Hext. by rewrite Hext.
Qed.

(** In the editor chain a tabular extension decides before the image test is
    reached. *)
Lemma renderEditor_extension_first type name :
  Js.includes type "pdf" = false → extension_match name = true →
  renderEditor type name = Grid.
Proof.
  unfold extension_match, renderEditor. intros -> Hext.
  rewrite <- !orb_assoc. rewrite <- !orb_assoc in Hext. rewrite Hext.
  by rewrite !orb_true_r.
Qed.

Lemma renderEditor_tabular type name :
  Js.includes type "pdf" = false → tabular type name = true →
  renderEditor type name = Grid.
Proof.
  unfold tabular, extension_match, renderEditor. intros -> Htab.
  rewrite !orb_assoc in Htab. by rewrite Htab.
Qed.

Lemma renderEditor_not_tabular type name :
  Js.includes type "pdf" = false → tabular type name = false →
  renderEditor type name = if Js.includes type "image" then Scene else PlainText.
Proof.
  unfold tabular, extension_match, renderEditor. intros -> Htab.
  rewrite !orb_assoc in Htab. by rewrite Htab.
Qed.

(** The order of the editor chain: a type naming pdf gives PaginatedDoc;
    otherwise a tabular type or a tabular extension (.xlsx, .xls, .csv) gives
    Grid; otherwise a type naming image gives Scene; otherwise PlainText. *)
Lemma renderEditor_order (type name : string) :
  (Js.includes type "pdf" = true → renderEditor type name = PaginatedDoc)
  ∧ (Js.includes type "pdf" = false → tabular type name = true →
       renderEditor type name = Grid)
  ∧ (Js.includes type "pdf" = false → tabular type name = false →
       Js.includes type "image" = true → renderEditor type name = Scene)
  ∧ (Js.includes type "pdf" = false → tabular type name = false →
       Js.includes type "image" = false → renderEditor type name = PlainText)
  ∧ (type_match type = None → extension_match name = false →
       renderEditor type name = PlainText).
Proof.
  split; [apply renderEditor_pdf|]. split; [apply renderEditor_tabular|].
  split; [intros Hp Ht Hi; by rewrite renderEditor_not_tabular, Hi|].
  split; [intros Hp Ht Hi; by rewrite renderEditor_not_tabular, Hi|].
  apply renderEditor_unmatched.
Qed.

(** C3. A file declared [image/png] and named [chart.csv]: its type names
    the image strategy and only its name has a tabular extension. The viewer
    chain, which tests the image type first, answers Scene, as the priority
    of a type match over the extension fallback asks; the editor chain tests
    the extensions before the image type and answers Grid. *)
Theorem C3_image_type_tabular_name :
  type_match "image/png" = Some Scene
  ∧ extension_match "chart.csv" = true
  ∧ renderViewer "image/png" "chart.csv" = Scene
  ∧ renderEditor "image/png" "chart.csv" = Grid
  ∧ renderEditor "image/png" "chart.csv" ≠ renderViewer "image/png" "chart.csv".
Proof. repeat split; try reflexivity. discriminate. Qed.

End DispatchFacts.

(** ** Load sessions of the spreadsheet editor *)

Module ExcelSessionFacts.
Import ExcelSession.

(** A settling load writes the sheet from the URL it closed over; the prop
    the editor holds by then plays no part. *)
Lemma settle_writes fetch k ed f :
  in_flight ed !! k = Some f →
  file (settle fetch k ed) = file ed
  ∧ sheet (settle fetch k ed) = Grid.loadExcelData (fetch (url f)) (sheet ed).
Proof. intros H. unfold settle. by rewrite H. Qed.

(** C5. Select A, switch to B while A's load is in flight, let B's load
    settle and then A's: the editor, still on B, ends up holding A's sheet. *)
Theorem C5_stale_load_overwrites :
  file b_settled = docB
  ∧ in_flight b_settled = [docA]
  ∧ Grid.wsData (sheet b_settled)
    = Some (Grid.written [[Grid.VStr "b"]; [Grid.VStr "2"]])
  ∧ file a_settled_late = docB
  ∧ Grid.wsData (sheet a_settled_late)
    = Some (Grid.written [[Grid.VStr "a"]; [Grid.VStr "1"]])
  ∧ Grid.worksheetName (sheet a_settled_late) = "A".
Proof. repeat split; reflexivity. Qed.

End ExcelSessionFacts.

(** ** Viewer/editor shell *)

Module ViewerFacts.
Import Viewer.

Lemma handleFileSave_delivers file blob sh app :
  deliver file (handleFileSave file blob sh).2 app
  = Store.handleFileUpdate (Some file) (Store.id file) blob app.
Proof. done. Qed.

(** C10. In the text fallback, typing any content and running [handleSave]
    makes no call to [onFileUpdate]: the store (records, selection snapshot,
    URLs) is as before, the shell has left editing mode, and the next Edit
    starts again from the record's cached content. *)
Theorem C10_text_save_changes_nothing
    (file : Store.UploadedFile) (edited : string) (sh : Shell) (app : Store.App) :
  (handleSave file (setEditedContent edited sh).1).2 = []
  ∧ (type_and_save file edited sh app).2 = app
  ∧ isEditing (type_and_save file edited sh app).1 = false
  ∧ editedContent (handleEdit file (type_and_save file edited sh app).1).1
    = content_or_empty file.
Proof. repeat split; reflexivity. Qed.

End ViewerFacts.

(** ** Raster scene model *)

Module SceneFacts.
Import ListFacts Scene.

Lemma tidy_mounted : tidy mounted.
Proof.
  constructor; simpl; [constructor|..]; intros x Hx; by apply elem_of_nil in Hx.
Qed.

Lemma tidy_setSelectedTool t c : tidy c → tidy (setSelectedTool t c).
Proof. intros [H1 H2 H3 H4]. by constructor. Qed.

(** Adding a fresh object at the front end of the stack. *)
Lemma tidy_add_fresh k sel (a : list nat) dm sl tl cc c :
  tidy c →
  (∀ n, n ∈ a → n < S (next_oid c)) →
  (∀ x, x ∈ objects c → oid x ∈ a → selectable x = true) →
  (next_oid c ∈ a → sel = true) →
  tidy {| objects := objects c
                     ++ [{| oid := next_oid c; kind := k; selectable := sel; angle := 0 |}];
          active := a; isDrawingMode := dm; selection := sl;
          selectedTool := tl; next_oid := S (next_oid c); contextContainer := cc |}.
Proof.
  intros [Hnd Hbelow Hact Hsel] Ha Hold Hnew. constructor; simpl.
  - rewrite fmap_app. apply NoDup_app. split; [done|]. split; [|apply NoDup_singleton].
    intros n Hn Hn'. apply list_elem_of_singleton in Hn'. simpl in Hn'. subst n.
    apply list_elem_of_fmap in Hn as (x & Hx & Hin). apply Hbelow in Hin. lia.
  - intros x Hx. apply elem_of_app in Hx as [Hx|Hx].
    + apply Hbelow in Hx. lia.
    + apply list_elem_of_singleton in Hx as ->. simpl. lia.
  - done.
  - intros x Hx Hin. apply elem_of_app in Hx as [Hx|Hx]; [by apply Hold|].
    apply list_elem_of_singleton in Hx as ->. simpl in *. by apply Hnew.
Qed.

Lemma tidy_addShape k c : tidy c → tidy (addShape k c).
Proof.
  intros Hc. unfold addShape, create, setActiveObject, add, set_active, set_objects.
  simpl. apply tidy_add_fresh; [done|..].
  - intros n Hn. apply list_elem_of_singleton in Hn as ->. lia.
  - intros x Hx Hin. apply list_elem_of_singleton in Hin.
    apply (oids_below c Hc) in Hx. lia.
  - done.
Qed.

Lemma tidy_handleToolClick t c : tidy c → tidy (handleToolClick t c).
Proof.
  intros Hc. unfold handleToolClick, addText, addRectangle, addCircle.
  destruct t; try apply tidy_addShape; by apply tidy_setSelectedTool.
Qed.

Lemma tidy_brushStroke c : tidy c → tidy (brushStroke c).
Proof.
  intros Hc. unfold brushStroke. destruct (isDrawingMode c) eqn:E; [|done].
  unfold create, add, set_objects. simpl.
  apply (tidy_add_fresh Path true (active c) _ _ _ _ c Hc); [|by apply active_selectable|done].
  intros n Hn. apply (active_below c Hc) in Hn. lia.
Qed.

Lemma tidy_pointerSelect targets c : tidy c → tidy (pointerSelect targets c).
Proof.
  intros Hc. unfold pointerSelect. destruct (isDrawingMode c); [done|].
  destruct Hc as [Hnd Hbelow Hact Hsel]. constructor; simpl; [done..| |].
  - intros a Ha. apply list_elem_of_fmap in Ha as (y & -> & Hy).
    apply elem_of_filter in Hy as [Hy _]. by apply Hbelow.
  - intros x Hx Hin. apply list_elem_of_fmap in Hin as (y & Hxy & Hy).
    apply elem_of_filter in Hy as [Hy Hp]. apply andb_true_iff in Hp as [Hp _].
    by rewrite (NoDup_fmap_inj_on oid (objects c) x y).
Qed.

Lemma tidy_rotateImage c : tidy c → tidy (rotateImage c).
Proof.
  intros [Hnd Hbelow Hact Hsel]. unfold rotateImage.
  assert (∀ y, y ∈ objects (rotateImage c) →
            ∃ x, x ∈ objects c ∧ oid y = oid x ∧ selectable y = selectable x) as Hback.
  { intros y Hy. simpl in Hy. apply list_elem_of_fmap in Hy as (x & -> & Hx).
    exists x. split; [done|]. by destruct (bool_decide _). }
  constructor; simpl.
  - rewrite <- list_fmap_compose.
    erewrite list_fmap_ext; [exact Hnd|]. intros i x _. simpl. by destruct (bool_decide _).
  - intros y Hy. destruct (Hback y Hy) as (x & Hx & -> & _). by apply Hbelow.
  - done.
  - intros y Hy Hin. destruct (Hback y Hy) as (x & Hx & Ho & ->).
    rewrite Ho in Hin. by apply Hsel.
Qed.

Lemma removals l : ∀ c,
  let c' := foldl (λ c' obj, remove obj c') c l in
  active c' = active c
  ∧ next_oid c' = next_oid c
  ∧ (∀ x, x ∈ objects c' → x ∈ objects c)
  ∧ (NoDup (oid <$> objects c) → NoDup (oid <$> objects c'))
  ∧ (∀ bg rest, objects c = bg :: rest → (∀ o, o ∈ l → oid o ≠ oid bg) →
       ∃ rest', objects c' = bg :: rest').
Proof.
  induction l as [|o l IH]; intros c; simpl.
  - repeat split; try done. intros bg rest -> _. by exists rest.
  - destruct (IH (remove o c)) as (Ha & Hn & Hin & Hnd & Hhead).
    split; [done|]. split; [done|]. split; [|split].
    + intros x Hx. apply Hin in Hx. simpl in Hx. by apply elem_of_filter in Hx as [Hx _].
    + intros H. apply Hnd. simpl. by apply NoDup_fmap_filter.
    + intros bg rest Hc Hne.
      apply (Hhead bg (List.filter (λ x, negb (oid x =? oid o)%nat) rest)).
      * simpl. rewrite Hc. simpl.
        assert ((oid bg =? oid o)%nat = false) as ->; [|done].
        apply Nat.eqb_neq. intros Heq. apply (Hne o); [apply list_elem_of_here | done].
      * intros o' Ho'. apply Hne. by apply list_elem_of_further.
Qed.

Lemma tidy_deleteSelected c : tidy c → tidy (deleteSelected c).
Proof.
  intros Hc. unfold deleteSelected. destruct (getActiveObjects c) as [|o l]; [done|].
  destruct (removals (o :: l) c) as (Ha & Hn & Hin & Hnd & _).
  destruct Hc as [Hd Hbelow Hact Hsel].
  unfold discardActiveObject, set_active.
  constructor; cbn [objects active next_oid].
  - by apply Hnd.
  - intros x Hx. rewrite Hn. by apply Hbelow, Hin.
  - intros a Ha'. by apply elem_of_nil in Ha'.
  - intros x _ Hx. by apply elem_of_nil in Hx.
Qed.

Create HintDb scene.
#[local] Hint Resolve tidy_handleToolClick tidy_pointerSelect tidy_brushStroke
  tidy_rotateImage tidy_deleteSelected : scene.

Lemma tidy_step o c : tidy c → tidy (step c o).
Proof. intros Hc. destruct o; simpl; unfold selectAll; auto with scene. Qed.

Lemma tidy_run ops : ∀ c, tidy c → tidy (run ops c).
Proof.
  induction ops as [|o ops IH]; intros c Hc; [done|]. by apply IH, tidy_step.
Qed.

(** No canvas operation of the component takes the drawing context away. *)
Lemma removals_alive l : ∀ c,
  contextContainer (foldl (λ c' obj, remove obj c') c l) = contextContainer c.
Proof. induction l as [|o l IH]; intros c; [done|]. simpl. by rewrite IH. Qed.

Lemma step_alive o c : contextContainer (step c o) = contextContainer c.
Proof.
  destruct o as [t|targets| | | |]; simpl.
  - by destruct t.
  - unfold pointerSelect. by destruct (isDrawingMode c).
  - unfold selectAll, pointerSelect. by destruct (isDrawingMode c).
  - unfold brushStroke. by destruct (isDrawingMode c).
  - done.
  - unfold deleteSelected. destruct (getActiveObjects c) as [|o l]; [done|].
    unfold discardActiveObject, set_active. cbn [contextContainer].
    apply removals_alive.
Qed.

Lemma run_alive ops : ∀ c, contextContainer (run ops c) = contextContainer c.
Proof.
  induction ops as [|o ops IH]; intros c; [done|]. simpl. by rewrite IH, step_alive.
Qed.

(** The load callback puts the image under everything already drawn. *)
Lemma imageLoaded_objects c :
  tidy c → contextContainer c = true →
  objects (imageLoaded c)
  = {| oid := next_oid c; kind := Image; selectable := false; angle := 0 |} :: objects c
  ∧ active (imageLoaded c) = active c
  ∧ next_oid (imageLoaded c) = S (next_oid c).
Proof.
  intros Hc Halive. unfold imageLoaded, create, sendToBack, add, set_objects.
  rewrite Halive. simpl.
  split; [|done]. rewrite !List.filter_app. simpl. rewrite Nat.eqb_refl. simpl.
  rewrite filter_none, filter_all, app_nil_r; [done|..].
  - intros x Hx. apply negb_true_iff, Nat.eqb_neq.
    apply (oids_below c Hc) in Hx. lia.
  - intros x Hx. apply Nat.eqb_neq. apply (oids_below c Hc) in Hx. lia.
Qed.

Lemma tidy_imageLoaded c : tidy c → tidy (imageLoaded c).
Proof.
  intros Hc. destruct (contextContainer c) eqn:Halive;
    [|unfold imageLoaded; by rewrite Halive].
  destruct (imageLoaded_objects c Hc Halive) as (Ho & Ha & Hn).
  destruct Hc as [Hd Hbelow Hact Hsel]. constructor; rewrite ?Ho, ?Ha, ?Hn.
  - rewrite fmap_cons. apply NoDup_cons. split; [|done]. simpl.
    intros Hin. apply list_elem_of_fmap in Hin as (x & Hx & Hin). apply Hbelow in Hin. lia.
  - intros x Hx. apply elem_of_cons in Hx as [->|Hx]; [simpl; lia|].
    apply Hbelow in Hx. lia.
  - intros a Hin. apply Hact in Hin. lia.
  - intros x Hx Hin. apply elem_of_cons in Hx as [->|Hx]; [|by apply Hsel].
    simpl in Hin. apply Hact in Hin. lia.
Qed.

(** A load that completes after the canvas was disposed of changes nothing. *)
Lemma imageLoaded_after_dispose c : imageLoaded (dispose c) = dispose c.
Proof. done. Qed.

Lemma background_not_active c bg :
  tidy c → bg ∈ objects c → selectable bg = false → oid bg ∉ active c.
Proof.
  intros Hc Hbg Hsel Hin. apply (active_selectable c Hc) in Hin; [|done]. congruence.
Qed.

(** [deleteSelected] leaves an unselectable object at the back where it is. *)
Lemma deleteSelected_keeps_back c bg :
  tidy c → objects c !! 0 = Some bg → selectable bg = false →
  objects (deleteSelected c) !! 0 = Some bg.
Proof.
  intros Hc Hbg Hsel. unfold deleteSelected.
  destruct (getActiveObjects c) as [|o l] eqn:E; [done|].
  destruct (objects c) as [|bg' rest] eqn:Hobjs; [done|]. injection Hbg as ->.
  destruct (removals (o :: l) c) as (_ & _ & _ & _ & Hhead).
  destruct (Hhead bg rest Hobjs) as [rest' Hrest'].
  - intros o' Ho' Heq. rewrite <- E in Ho'. unfold getActiveObjects in Ho'.
    apply elem_of_filter in Ho' as [_ Hact]. apply bool_decide_eq_true in Hact.
    rewrite Heq in Hact. revert Hact. apply background_not_active; [done| |done].
    rewrite Hobjs. apply list_elem_of_here.
  - simpl. unfold set_active; simpl. simpl in Hrest'. by rewrite Hrest'.
Qed.

Lemma step_keeps_back o c bg :
  tidy c → objects c !! 0 = Some bg → selectable bg = false →
  objects (step c o) !! 0 = Some bg.
Proof.
  intros Hc Hbg Hsel. destruct o as [t|targets| | | |]; simpl.
  - assert (∀ k c0, objects c0 !! 0 = Some bg → objects (addShape k c0) !! 0 = Some bg)
      as Hshape.
    { intros k c0 H0. unfold addShape. simpl. by apply lookup_app_l_Some. }
    unfold handleToolClick, addText, addRectangle, addCircle.
    destruct t; try apply Hshape; done.
  - unfold pointerSelect. by destruct (isDrawingMode c).
  - unfold selectAll, pointerSelect. by destruct (isDrawingMode c).
  - unfold brushStroke. destruct (isDrawingMode c); [|done].
    simpl. by apply lookup_app_l_Some.
  - unfold rotateImage. simpl. rewrite list_lookup_fmap, Hbg. simpl.
    rewrite bool_decide_eq_false_2; [done|].
    apply background_not_active; [done| |done]. by eapply list_elem_of_lookup_2.
  - by apply deleteSelected_keeps_back.
Qed.

Lemma run_keeps_back ops : ∀ c bg,
  tidy c → objects c !! 0 = Some bg → selectable bg = false →
  objects (run ops c) !! 0 = Some bg.
Proof.
  induction ops as [|o ops IH]; intros c bg Hc Hbg Hsel; [done|].
  simpl. apply IH; [by apply tidy_step | by apply step_keeps_back | done].
Qed.

(** C9. Whatever was done on the canvas before the image arrived ([before])
    and whatever is done after ([after]): the image is unselectable and is
    object 0; it is not in the active selection, not even after selecting
    everything; and [deleteSelected] leaves it as object 0, both on the
    current selection and on a selection of everything. *)
Theorem C9_delete_keeps_background (before after : list op) :
  let c := run after (imageLoaded (run before mounted)) in
  ∃ bg, kind bg = Image ∧ selectable bg = false
    ∧ objects c !! 0 = Some bg
    ∧ (oid bg ∉ active c)
    ∧ objects (deleteSelected c) !! 0 = Some bg
    ∧ (oid bg ∉ active (selectAll c))
    ∧ objects (deleteSelected (selectAll c)) !! 0 = Some bg.
Proof.
  intros c. unfold c. clear c.
  assert (tidy (run before mounted)) as Hc0 by apply tidy_run, tidy_mounted.
  assert (contextContainer (run before mounted) = true) as Halive by apply run_alive.
  remember (run before mounted) as c0 eqn:Ec0. clear Ec0 before.
  destruct (imageLoaded_objects c0 Hc0 Halive) as (Hobjs & _ & _).
  remember {| oid := next_oid c0; kind := Image; selectable := false; angle := 0 |}
    as bg eqn:Ebg.
  assert (kind bg = Image ∧ selectable bg = false) as [Hkind Hsel] by by subst bg.
  assert (tidy (imageLoaded c0)) as Hc1 by by apply tidy_imageLoaded.
  remember (run after (imageLoaded c0)) as c eqn:Ec.
  assert (tidy c) as Hc by (subst c; by apply tidy_run).
  assert (objects c !! 0 = Some bg) as Hbg.
  { subst c. apply run_keeps_back; [done | by rewrite Hobjs | done]. }
  assert (tidy (selectAll c)) as Hall by by apply tidy_pointerSelect.
  assert (objects (selectAll c) !! 0 = Some bg) as Hbg'
    by apply (step_keeps_back SelectAll c bg Hc Hbg Hsel).
  exists bg. split; [done|]. split; [done|]. split; [done|].
  split; [apply background_not_active; [done|by eapply list_elem_of_lookup_2|done]|].
  split; [by apply deleteSelected_keeps_back|].
  split; [apply background_not_active; [done|by eapply list_elem_of_lookup_2|done]|].
  by apply deleteSelected_keeps_back.
Qed.

End SceneFacts.

(** * Further properties *)

(** ** Resource store: edge cases, frames and URL accounting *)

Module StoreExtra.
Import ListFacts Store StoreFacts StoreAudit.

Lemma reachable_ok ops : NoDup (minted ops) → handles_ok (run ops init).
Proof.
  intros Hnd. apply (handles_ok_run ops init []); [apply handles_ok_init| |done].
  intros x Hx. simpl in Hx. by apply elem_of_nil in Hx.
Qed.

Lemma unlisted_hits i (files : list UploadedFile) :
  i ∉ id <$> files → List.filter (λ f, String.eqb (id f) i) files = [].
Proof.
  intros Hi. apply filter_none. intros f Hf. apply String.eqb_neq.
  intros Heq. apply Hi. rewrite <- Heq. by apply list_elem_of_fmap_2.
Qed.

Lemma unlisted_keeps i (files : list UploadedFile) :
  i ∉ id <$> files → List.filter (λ f, negb (String.eqb (id f) i)) files = files.
Proof.
  intros Hi. apply filter_all. intros f Hf. apply negb_true_iff, String.eqb_neq.
  intros Heq. apply Hi. rewrite <- Heq. by apply list_elem_of_fmap_2.
Qed.

Lemma unlisted_not_selected i s :
  handles_ok s → i ∉ id <$> uploadedFiles s → selected_is i s = false.
Proof.
  intros Hok Hi. unfold selected_is, seen_is.
  destruct (selectedFile s) as [f|] eqn:Hsel; [|done].
  apply String.eqb_neq. intros Heq.
  apply Hi. rewrite <- Heq. by apply (selection_listed s Hok).
Qed.

Lemma unlisted_swap i newUrl newSize (files : list UploadedFile) :
  i ∉ id <$> files → swap_in i newUrl newSize <$> files = files.
Proof.
  intros Hi. induction files as [|a l IH]; [done|].
  apply not_elem_of_cons in Hi as [Ha Hl]. rewrite fmap_cons.
  rewrite swap_in_miss by done. f_equal. by apply IH.
Qed.

(** X1. In every state the application reaches with distinct ids, deleting an
    id that is not in the list changes nothing at all: same records, same
    selection, no call to the URL registry. *)
Theorem delete_unknown_id_noop (ops : list op) (i : string) :
  NoDup (minted ops) →
  i ∉ id <$> uploadedFiles (run ops init) →
  handleFileDelete i (run ops init) = run ops init.
Proof.
  intros Hnd Hi. pose proof (reachable_ok ops Hnd) as Hok.
  remember (run ops init) as s eqn:Es. clear Es.
  unfold handleFileDelete. rewrite find_filter_head, unlisted_hits, unlisted_keeps by done.
  rewrite unlisted_not_selected by done. simpl. by destruct s.
Qed.

Lemma delete_unknown_id_noop_witness :
  NoDup (minted sample_ops)
  ∧ ("9-9" ∉ id <$> uploadedFiles (run sample_ops init))
  ∧ handleFileDelete "9-9" (run sample_ops init) = run sample_ops init.
Proof.
  assert (NoDup (minted sample_ops)) as Hnd by by apply (bool_decide_unpack _).
  assert ("9-9" ∉ id <$> uploadedFiles (run sample_ops init)) as Hi
    by by apply (bool_decide_unpack _).
  split; [exact Hnd|]. split; [exact Hi|].
  exact (delete_unknown_id_noop sample_ops "9-9" Hnd Hi).
Defined.

(** X2. A save under an id that is not in the list (the record was deleted
    while the save was under way) leaves the records as they are, yet creates
    one object URL: it is live, no record holds it and nothing revoked it.
    The selection is left alone when the handler's closure does not show
    the saved id as selected; when it does, which is how the editors call
    it, the file selected by then has its snapshot rewritten to that URL and
    to the size of the saved blob. *)
Theorem update_unknown_id_leaks_url
    (ops : list op) (seen : option UploadedFile) (i : string) (b : Blob) :
  NoDup (minted ops) →
  i ∉ id <$> uploadedFiles (run ops init) →
  let s := run ops init in
  let s' := handleFileUpdate seen i b s in
  uploadedFiles s' = uploadedFiles s
  ∧ url_log s' = url_log s ++ [CreateObjectURL (next_url s)]
  ∧ live (url_log s') (next_url s)
  ∧ (next_url s ∉ url <$> uploadedFiles s')
  ∧ (seen_is i seen = false → selectedFile s' = selectedFile s)
  ∧ (seen_is i seen = true →
       selectedFile s' = resnap (next_url s) (blob_size b) <$> selectedFile s).
Proof.
  intros Hnd Hi s s'. pose proof (reachable_ok ops Hnd) as Hok. fold s in Hok, Hi.
  assert (uploadedFiles s' = uploadedFiles s
          ∧ url_log s' = url_log s ++ [CreateObjectURL (next_url s)]) as (Hf & Hl).
  { unfold s', handleFileUpdate. rewrite update_files_spec. simpl.
    rewrite unlisted_swap, unlisted_hits by done. simpl. by rewrite app_nil_r. }
  split; [done|]. split; [done|]. split; [|split; [|split]].
  - unfold live. rewrite Hl, created_snoc_create, revoked_snoc_create. split.
    + apply elem_of_app. right. by apply list_elem_of_singleton.
    + intros Hr. apply (revoked_were_created s Hok), (created_below s Hok) in Hr. lia.
  - rewrite Hf. intros Hin. apply list_elem_of_fmap in Hin as (g & Hgu & Hg).
    apply (urls_live s Hok) in Hg as [Hc _]. apply (created_below s Hok) in Hc. lia.
  - intros Hseen. unfold s', handleFileUpdate. rewrite update_files_spec. simpl.
    by rewrite Hseen.
  - intros Hseen. unfold s', handleFileUpdate. rewrite update_files_spec. simpl.
    rewrite Hseen. by destruct (selectedFile s).
Qed.

Lemma update_unknown_id_leaks_url_witness :
  NoDup (minted late_save_ops)
  ∧ ("1000-4" ∉ id <$> uploadedFiles (run late_save_ops init))
  ∧ url <$> selectedFile
              (handleFileUpdate (Some (sample_record "1000-4" "gone.pdf" 100 9))
                 "1000-4" {| blob_size := 1 |} (run late_save_ops init))
    = Some (next_url (run late_save_ops init)).
Proof.
  assert (NoDup (minted late_save_ops)) as Hnd by by apply (bool_decide_unpack _).
  assert ("1000-4" ∉ id <$> uploadedFiles (run late_save_ops init)) as Hi
    by by apply (bool_decide_unpack _).
  split; [exact Hnd|]. split; [exact Hi|].
  destruct (update_unknown_id_leaks_url late_save_ops
              (Some (sample_record "1000-4" "gone.pdf" 100 9)) "1000-4"
              {| blob_size := 1 |} Hnd Hi) as (_ & _ & _ & _ & _ & Hsel).
  rewrite (Hsel eq_refl). reflexivity.
Defined.


Lemma keep_all_but_one (before after : list UploadedFile) f :
  NoDup (id <$> before ++ f :: after) →
  List.filter (λ g, negb (String.eqb (id g) (id f))) (before ++ f :: after)
  = before ++ after
  ∧ List.filter (λ g, String.eqb (id g) (id f)) (before ++ f :: after) = [f].
Proof.
  intros Hnd. rewrite fmap_app, fmap_cons in Hnd.
  apply NoDup_app in Hnd as (_ & Hdisj & Hnd). apply NoDup_cons in Hnd as [Hfa _].
  assert (id f ∉ id <$> before) as Hfb.
  { intros Hin. apply (Hdisj _ Hin). apply list_elem_of_here. }
  rewrite !List.filter_app. simpl. rewrite String.eqb_refl. simpl.
  rewrite (unlisted_keeps _ before Hfb), (unlisted_keeps _ after Hfa).
  rewrite (unlisted_hits _ before Hfb), (unlisted_hits _ after Hfa). done.
Qed.

(** X3. Deleting a listed record, in a state reached with distinct ids, takes
    exactly that record out of the list and keeps the others in their order;
    it revokes that record's URL and makes no other call to the registry; the
    selection is cleared when it showed the record and is kept otherwise. *)
Theorem delete_listed_record (ops : list op) (f : UploadedFile) :
  NoDup (minted ops) →
  f ∈ uploadedFiles (run ops init) →
  let s := run ops init in
  let s' := handleFileDelete (id f) s in
  (∃ before after,
      uploadedFiles s = before ++ f :: after ∧ uploadedFiles s' = before ++ after)
  ∧ url_log s' = url_log s ++ [RevokeObjectURL (url f)]
  ∧ (∀ g, selectedFile s = Some g → id g = id f → selectedFile s' = None)
  ∧ (∀ g, selectedFile s = Some g → id g ≠ id f → selectedFile s' = Some g)
  ∧ (selectedFile s = None → selectedFile s' = None).
Proof.
  intros Hnd Hf s s'. pose proof (reachable_ok ops Hnd) as Hok. fold s in Hok, Hf.
  destruct (list_elem_of_split _ _ Hf) as (before & after & Hsplit).
  pose proof (ids_distinct s Hok) as Hids. rewrite Hsplit in Hids.
  destruct (keep_all_but_one before after f Hids) as [Hkeep Hhit].
  split; [|split; [|split; [|split]]].
  - exists before, after. split; [done|]. unfold s', handleFileDelete. simpl.
    by rewrite Hsplit, Hkeep.
  - unfold s', handleFileDelete. simpl. by rewrite find_filter_head, Hsplit, Hhit.
  - intros g Hg Hgi. unfold s', handleFileDelete, selected_is, seen_is. simpl.
    rewrite Hg. apply String.eqb_eq in Hgi. by rewrite Hgi.
  - intros g Hg Hgi. unfold s', handleFileDelete, selected_is, seen_is. simpl.
    rewrite Hg. apply String.eqb_neq in Hgi. by rewrite Hgi.
  - intros Hnone. unfold s', handleFileDelete, selected_is, seen_is. simpl.
    by rewrite Hnone.
Qed.

Lemma delete_listed_record_witness :
  NoDup (minted sample_ops)
  ∧ ∃ f, f ∈ uploadedFiles (run sample_ops init)
      ∧ url_log (handleFileDelete (id f) (run sample_ops init))
        = url_log (run sample_ops init) ++ [RevokeObjectURL (url f)].
Proof.
  assert (NoDup (minted sample_ops)) as Hnd by by apply (bool_decide_unpack _).
  split; [exact Hnd|].
  assert (∃ f, uploadedFiles (run sample_ops init) !! 0 = Some f) as [f Hf]
    by (eexists; reflexivity).
  apply list_elem_of_lookup_2 in Hf. exists f. split; [exact Hf|].
  exact (proj1 (proj2 (delete_listed_record sample_ops f Hnd Hf))).
Defined.

(** X4. A save never renames, retypes, reorders, adds or removes records and
    never touches the cached text: the ids, names, declared types and cached
    contents of the list are the same before and after; a record with another
    id is left exactly as it is, and every record with the saved id gets the
    newly created URL and the size of the saved blob. *)
Theorem update_frame (seen : option UploadedFile) (i : string) (b : Blob) (s : App) :
  let s' := handleFileUpdate seen i b s in
  id <$> uploadedFiles s' = id <$> uploadedFiles s
  ∧ name <$> uploadedFiles s' = name <$> uploadedFiles s
  ∧ type <$> uploadedFiles s' = type <$> uploadedFiles s
  ∧ content <$> uploadedFiles s' = content <$> uploadedFiles s
  ∧ (∀ n f, uploadedFiles s !! n = Some f → id f ≠ i →
       uploadedFiles s' !! n = Some f)
  ∧ (∀ n f, uploadedFiles s !! n = Some f → id f = i →
       ∃ f', uploadedFiles s' !! n = Some f'
         ∧ url f' = next_url s ∧ size f' = blob_size b).
Proof.
  intros s'.
  assert (uploadedFiles s' = swap_in i (next_url s) (blob_size b) <$> uploadedFiles s)
    as Hfiles.
  { unfold s', handleFileUpdate. by rewrite update_files_spec. }
  rewrite Hfiles.
  assert (∀ {B} (proj : UploadedFile → B),
            (∀ f, proj (swap_in i (next_url s) (blob_size b) f) = proj f) →
            proj <$> (swap_in i (next_url s) (blob_size b) <$> uploadedFiles s)
            = proj <$> uploadedFiles s) as Hproj.
  { intros B proj Hp. rewrite <- list_fmap_compose. apply list_fmap_ext.
    intros _ f _. apply Hp. }
  assert (∀ f, swap_in i (next_url s) (blob_size b) f = f
               ∨ (name (swap_in i (next_url s) (blob_size b) f) = name f
                  ∧ type (swap_in i (next_url s) (blob_size b) f) = type f
                  ∧ content (swap_in i (next_url s) (blob_size b) f) = content f))
    as Hcases.
  { intros f. unfold swap_in. destruct (String.eqb (id f) i); [by right | by left]. }
  split; [apply Hproj, swap_in_id|].
  split; [apply Hproj; intros f; destruct (Hcases f) as [->|(? & ? & ?)]; done|].
  split; [apply Hproj; intros f; destruct (Hcases f) as [->|(? & ? & ?)]; done|].
  split; [apply Hproj; intros f; destruct (Hcases f) as [->|(? & ? & ?)]; done|].
  split.
  - intros n f Hn Hi. rewrite list_lookup_fmap, Hn. simpl. by rewrite swap_in_miss.
  - intros n f Hn Hi. eexists. rewrite list_lookup_fmap, Hn. simpl.
    split; [done|]. by apply swap_in_hit.
Qed.


Lemma upload_loop_records files : ∀ i next log n f now,
  files !! n = Some (f, now) →
  (upload_loop i files next log).1 !! n
  = Some {| id := mint_id now (i + n); name := f_name f; type := f_type f;
            size := f_size f; url := next + n; content := read_content f |}.
Proof.
  induction files as [|[f0 now0] rest IH]; intros i next log n f now Hn; [done|].
  simpl. specialize (IH (S i) (S next) (log ++ [CreateObjectURL next])).
  destruct (upload_loop (S i) rest (S next) (log ++ [CreateObjectURL next]))
    as [newFiles reg]. simpl in *.
  destruct n as [|n]; simpl in *.
  - injection Hn as -> ->. by rewrite !Nat.add_0_r.
  - rewrite (IH n f now Hn). do 2 f_equal; [f_equal; lia | lia].
Qed.

(** X5. An upload keeps the records already listed and the selection, and
    appends one record per file, in the order of the batch: the n-th file's
    record carries the file's name, type and size, the id minted from its
    clock reading and its index n, a URL created for it alone, and as cached
    text what [file.text()] gave for a text or .csv file and the empty string
    otherwise. *)
Theorem upload_appends_records (files : list (File * Z)) (s : App) :
  let s' := handleFileUpload files s in
  selectedFile s' = selectedFile s
  ∧ length (uploadedFiles s') = (length (uploadedFiles s) + length files)%nat
  ∧ (∀ n r, uploadedFiles s !! n = Some r → uploadedFiles s' !! n = Some r)
  ∧ (∀ n f now, files !! n = Some (f, now) →
       uploadedFiles s' !! (length (uploadedFiles s) + n)%nat
       = Some {| id := mint_id now n; name := f_name f; type := f_type f;
                 size := f_size f; url := next_url s + n;
                 content := read_content f |})
  ∧ url_log s'
    = url_log s ++ (CreateObjectURL <$> seq (next_url s) (length files)).
Proof.
  intros s'. unfold s', handleFileUpload.
  pose proof (upload_loop_spec files 0 (next_url s) (url_log s)) as Hspec.
  pose proof (upload_loop_records files 0 (next_url s) (url_log s)) as Hrec.
  destruct (upload_loop 0 files (next_url s) (url_log s)) as [newFiles [next log]].
  simpl in *. destruct Hspec as (_ & Hurl & Hreg). injection Hreg as -> ->.
  assert (length newFiles = length files) as Hlen.
  { rewrite <- (length_fmap url newFiles), Hurl. apply length_seq. }
  split; [done|]. split; [by rewrite length_app, Hlen|].
  split; [intros n r Hn; by apply lookup_app_l_Some|]. split; [|done].
  intros n f now Hn. rewrite lookup_app_r by lia.
  replace (length (uploadedFiles s) + n - length (uploadedFiles s))%nat with n by lia.
  by apply Hrec.
Qed.

(** The cached text of an uploaded record. *)
Lemma read_content_cases f :
  (Js.includes (f_type f) "text" = false → Js.endsWith (f_name f) ".csv" = false →
     read_content f = "")
  ∧ (f_text f = None → read_content f = "").
Proof.
  unfold read_content. split.
  - by intros -> ->.
  - intros ->. by destruct (_ || _).
Qed.

Lemma run_ids_known ops : ∀ s (seen : list string),
  (∀ x, x ∈ id <$> uploadedFiles s → x ∈ seen) →
  ∀ x, x ∈ id <$> uploadedFiles (run ops s) → x ∈ seen ++ minted ops.
Proof.
  induction ops as [|o ops IH]; intros s seen Hseen x Hx.
  - simpl. rewrite app_nil_r. by apply Hseen.
  - rewrite minted_cons, app_assoc.
    apply (IH (step s o) (seen ++ minted [o])); [|done].
    by apply step_ids_known.
Qed.

Lemma hits_listed i s :
  listed i s = negb (bool_decide
    (List.filter (λ f, String.eqb (id f) i) (uploadedFiles s) = [])).
Proof.
  unfold listed. induction (uploadedFiles s) as [|a l IH]; simpl; [done|].
  destruct (String.eqb (id a) i); simpl; [done | exact IH].
Qed.

(** The balance of the registry: URLs created against URLs revoked, records
    listed and saves that missed. *)
Lemma balance_step o s k :
  handles_ok s →
  length (created (url_log s))
  = (length (revoked (url_log s)) + length (uploadedFiles s) + k)%nat →
  length (created (url_log (step s o)))
  = (length (revoked (url_log (step s o))) + length (uploadedFiles (step s o))
     + (k + missed_updates [o] s))%nat.
Proof.
  intros Hok Hbal. destruct o as [files|n|i|seen0 i b|]; simpl.
  - destruct (upload_appends_records files s) as (_ & Hlen & _ & _ & Hlog).
    rewrite Hlen, Hlog, created_app_creates, revoked_app_creates, length_app, length_seq.
    lia.
  - destruct (uploadedFiles s !! n); simpl; lia.
  - unfold handleFileDelete. rewrite find_filter_head. simpl.
    pose proof (filter_length (λ f, String.eqb (id f) i) (uploadedFiles s)) as Hsum.
    destruct (filter_id_unique i _ (ids_distinct s Hok)) as [Hnone|(f & Hone & _)].
    + rewrite Hnone in *. simpl in *. lia.
    + rewrite Hone in *. simpl in *.
      rewrite created_snoc_revoke, revoked_snoc_revoke, length_app. simpl. lia.
  - unfold handleFileUpdate. rewrite update_files_spec. simpl.
    rewrite created_app_revokes, revoked_app_revokes, created_snoc_create,
      revoked_snoc_create, !length_app, !length_fmap. simpl.
    rewrite hits_listed.
    destruct (filter_id_unique i _ (ids_distinct s Hok)) as [Hnone|(f & Hone & _)].
    + rewrite Hnone. simpl. lia.
    + rewrite Hone. simpl. lia.
  - lia.
Qed.

Lemma balance_run ops : ∀ s (seen : list string) k,
  handles_ok s →
  (∀ x, x ∈ id <$> uploadedFiles s → x ∈ seen) →
  NoDup (seen ++ minted ops) →
  length (created (url_log s))
  = (length (revoked (url_log s)) + length (uploadedFiles s) + k)%nat →
  length (created (url_log (run ops s)))
  = (length (revoked (url_log (run ops s))) + length (uploadedFiles (run ops s))
     + (k + missed_updates ops s))%nat.
Proof.
  induction ops as [|o ops IH]; intros s seen k Hok Hseen Hnd Hbal.
  - simpl. lia.
  - rewrite minted_cons, app_assoc in Hnd.
    assert (handles_ok (step s o)) as Hok'.
    { apply (handles_ok_step o s seen); [done..|].
      by apply NoDup_app in Hnd as (? & _ & _). }
    pose proof (balance_step o s k Hok Hbal) as Hstep. simpl in Hstep.
    pose proof (IH (step s o) (seen ++ minted [o]) _ Hok'
                  (step_ids_known o s seen Hseen) Hnd Hstep) as Hrun.
    simpl. rewrite Hrun. lia.
Qed.

(** X6. Along every run with distinct ids the registry balances: the URLs
    created so far are the URLs revoked so far, plus one per record listed,
    plus one per save that addressed an id not in the list. Uploads, deletes
    and saves of listed records leave no other URL behind. *)
Theorem url_accounting (ops : list op) :
  NoDup (minted ops) →
  let s := run ops init in
  length (created (url_log s))
  = (length (revoked (url_log s)) + length (uploadedFiles s)
     + missed_updates ops init)%nat.
Proof.
  intros Hnd s.
  apply (balance_run ops init [] 0); [apply handles_ok_init| |done|done].
  intros x Hx. simpl in Hx. by apply elem_of_nil in Hx.
Qed.

Lemma url_accounting_witness :
  NoDup (minted sample_ops)
  ∧ length (created (url_log (run sample_ops init)))
    = (length (revoked (url_log (run sample_ops init)))
       + length (uploadedFiles (run sample_ops init))
       + missed_updates sample_ops init)%nat.
Proof.
  assert (NoDup (minted sample_ops)) as Hnd by by apply (bool_decide_unpack _).
  split; [exact Hnd | exact (url_accounting sample_ops Hnd)].
Defined.

(** X7. A Save started in a format editor opened on [file] and settling in
    a state, reached with distinct ids, that still lists a record with the
    id of [file]: the shell leaves editing mode; that record takes the new
    URL and the size of the saved blob, the URL it held is revoked and the
    new one is live. The selection snapshot current at that moment,
    whichever file it shows, keeps its id, name, type and cached text and
    takes the new URL and size: when another file has been selected since
    the save was started, its snapshot now points at the saved file. *)
Theorem editor_save_swaps_url (ops : list op) (file rec : UploadedFile) (b : Blob)
    (sh : Viewer.Shell) :
  NoDup (minted ops) →
  rec ∈ uploadedFiles (run ops init) →
  id rec = id file →
  let s := run ops init in
  let r := save_from_editor file b sh s in
  Viewer.isEditing r.1 = false
  ∧ resnap (next_url s) (blob_size b) rec ∈ uploadedFiles r.2
  ∧ live (url_log r.2) (next_url s)
  ∧ url rec ∈ revoked (url_log r.2)
  ∧ selectedFile r.2 = resnap (next_url s) (blob_size b) <$> selectedFile s.
Proof.
  intros Hnd Hrec Hid s r. pose proof (reachable_ok ops Hnd) as Hok.
  fold s in Hok, Hrec.
  assert (r.2 = handleFileUpdate (Some file) (id file) b s) as Hr2 by done.
  pose proof (handles_ok_update (Some file) (id file) b s Hok) as Hok'.
  assert (resnap (next_url s) (blob_size b) rec ∈ uploadedFiles r.2) as Hnew.
  { rewrite Hr2. unfold handleFileUpdate. rewrite update_files_spec. simpl.
    apply list_elem_of_fmap. exists rec. split; [|done].
    unfold swap_in, resnap. apply String.eqb_eq in Hid. by rewrite Hid. }
  split; [done|]. split; [done|]. split; [|split].
  - rewrite Hr2 in Hnew |- *. by apply (urls_live _ Hok') in Hnew.
  - rewrite Hr2, (handles_ok_replace_ordered s Hok (Some file) (id file) b rec Hrec Hid).
    change [CreateObjectURL (next_url s); RevokeObjectURL (url rec)]
      with ([CreateObjectURL (next_url s)] ++ [RevokeObjectURL (url rec)]).
    rewrite app_assoc, revoked_snoc_revoke. apply elem_of_app. right.
    by apply list_elem_of_singleton.
  - rewrite Hr2. unfold handleFileUpdate. rewrite update_files_spec. simpl.
    rewrite String.eqb_refl. by destruct (selectedFile s).
Qed.

Lemma editor_save_swaps_url_witness :
  NoDup (minted (take 3 late_save_ops))
  ∧ sample_record "1000-0" "a.pdf" 100 0 ∈ uploadedFiles (run (take 3 late_save_ops) init)
  ∧ selectedFile
      (save_from_editor (sample_record "1000-0" "a.pdf" 100 0) {| blob_size := 120 |}
         Viewer.closed (run (take 3 late_save_ops) init)).2
    = Some (sample_record "1000-1" "b.pdf" 120 2).
Proof.
  assert (NoDup (minted (take 3 late_save_ops))) as Hnd by by apply (bool_decide_unpack _).
  assert (sample_record "1000-0" "a.pdf" 100 0
            ∈ uploadedFiles (run (take 3 late_save_ops) init)) as Hrec
    by apply list_elem_of_here.
  split; [exact Hnd|]. split; [exact Hrec|].
  destruct (editor_save_swaps_url (take 3 late_save_ops)
              (sample_record "1000-0" "a.pdf" 100 0)
              (sample_record "1000-0" "a.pdf" 100 0) {| blob_size := 120 |}
              Viewer.closed Hnd Hrec eq_refl) as (_ & _ & _ & _ & Hsel).
  rewrite Hsel. reflexivity.
Defined.

End StoreExtra.

(** ** String tests and the dispatch chains *)

Module DispatchExtra.
Import Dispatch JsSpec.

Lemma app_cons c (a b : string) : String c a +:+ b = String c (a +:+ b).
Proof. reflexivity. Qed.

Lemma app_empty (b : string) : "" +:+ b = b.
Proof. reflexivity. Qed.

Lemma length_app_string (a b : string) :
  String.length (a +:+ b) = (String.length a + String.length b)%nat.
Proof. induction a as [|c a IH]; [done|]. rewrite app_cons. simpl. by rewrite IH. Qed.

Lemma prefix_spec (sub : string) : ∀ s,
  String.prefix sub s = true ↔ ∃ b, s = sub +:+ b.
Proof.
  induction sub as [|c sub IH]; intros s.
  - split; [intros _; exists s; reflexivity | intros _; by destruct s].
  - destruct s as [|d s]; simpl.
    + split; [discriminate | intros [b Hb]; rewrite app_cons in Hb; discriminate].
    + destruct (Ascii.ascii_dec c d) as [->|Hne].
      * rewrite IH. split; intros [b Hb]; exists b.
        -- by rewrite app_cons, Hb.
        -- rewrite app_cons in Hb. by injection Hb.
      * split; [done|]. intros [b Hb]. rewrite app_cons in Hb. by injection Hb.
Qed.

Lemma includes_unfold s sub :
  Js.includes s sub
  = if String.prefix sub s then true
    else match s with
         | EmptyString => false
         | String _ rest => Js.includes rest sub
         end.
Proof. by destruct s. Qed.

(** [Js.includes] is the substring test. *)
Lemma includes_spec (sub : string) : ∀ s,
  Js.includes s sub = true ↔ contains s sub.
Proof.
  intros s. induction s as [|c s IH]; rewrite includes_unfold.
  - destruct (String.prefix sub "") eqn:E.
    + split; [intros _|done]. apply prefix_spec in E as [b Hb]. by exists "", b.
    + split; [done|]. intros ([|? a] & b & Hab); [|by rewrite app_cons in Hab].
      rewrite app_empty in Hab. apply not_true_iff_false in E. destruct E.
      apply prefix_spec. by exists b.
  - destruct (String.prefix sub (String c s)) eqn:E.
    + split; [intros _|done]. apply prefix_spec in E as [b Hb]. by exists "", b.
    + rewrite IH. split.
      * intros (a & b & ->). by exists (String c a), b.
      * intros ([|d a] & b & Hab).
        -- rewrite app_empty in Hab. apply not_true_iff_false in E. destruct E.
           apply prefix_spec. by exists b.
        -- rewrite app_cons in Hab. injection Hab as -> ->. by exists a, b.
Qed.

Lemma substring_all (s : string) : String.substring 0 (String.length s) s = s.
Proof. induction s as [|c s IH]; simpl; [done | by rewrite IH]. Qed.

Lemma substring_skip (a b : string) :
  String.substring (String.length a) (String.length b) (a +:+ b) = b.
Proof.
  induction a as [|c a IH]; [apply substring_all|]. rewrite app_cons. exact IH.
Qed.

Lemma substring_split (s : string) : ∀ k,
  (k ≤ String.length s)%nat →
  s = String.substring 0 k s +:+ String.substring k (String.length s - k) s.
Proof.
  induction s as [|c s IH]; intros k Hk.
  - simpl in Hk. assert (k = 0%nat) as -> by lia. done.
  - destruct k as [|k].
    + simpl. by rewrite substring_all.
    + simpl. rewrite app_cons. f_equal. apply IH. simpl in Hk. lia.
Qed.

(** [Js.endsWith] is the suffix test. *)
Lemma endsWith_spec s suffix : Js.endsWith s suffix = true ↔ ends_with s suffix.
Proof.
  unfold Js.endsWith, ends_with. split.
  - destruct (Nat.leb_spec (String.length suffix) (String.length s)) as [Hle|Hlt];
      [|done].
    intros Heq. apply String.eqb_eq in Heq.
    exists (String.substring 0 (String.length s - String.length suffix) s).
    pose proof (substring_split s (String.length s - String.length suffix)) as Hsp.
    replace (String.length s - (String.length s - String.length suffix))%nat
      with (String.length suffix) in Hsp by lia.
    rewrite Heq in Hsp. apply Hsp. lia.
  - intros [a ->]. rewrite length_app_string.
    rewrite (proj2 (Nat.leb_le _ _)) by lia.
    replace (String.length a + String.length suffix - String.length suffix)%nat
      with (String.length a) by lia.
    rewrite substring_skip. apply String.eqb_refl.
Qed.

Lemma includes_false s sub : Js.includes s sub = false ↔ ¬ contains s sub.
Proof. rewrite <- includes_spec. by destruct (Js.includes s sub). Qed.

Lemma endsWith_false s suffix : Js.endsWith s suffix = false ↔ ¬ ends_with s suffix.
Proof. rewrite <- endsWith_spec. by destruct (Js.endsWith s suffix). Qed.

(** X8. What the editor chain decides, said with substrings and suffixes:
    the PDF editor exactly when the type contains [pdf]; the grid editor
    exactly when it does not and the type contains [sheet] or [excel] or the
    name ends with [.xlsx], [.xls] or [.csv]; the image editor exactly when
    neither holds and the type contains [image]; the textarea otherwise. *)
Theorem editor_strategy_meaning (type name : string) :
  let tabular_file :=
    contains type "sheet" ∨ contains type "excel"
    ∨ ends_with name ".xlsx" ∨ ends_with name ".xls" ∨ ends_with name ".csv" in
  (renderEditor type name = PaginatedDoc ↔ contains type "pdf")
  ∧ (renderEditor type name = Grid ↔ ¬ contains type "pdf" ∧ tabular_file)
  ∧ (renderEditor type name = Scene ↔
       ¬ contains type "pdf" ∧ ¬ tabular_file ∧ contains type "image")
  ∧ (renderEditor type name = PlainText ↔
       ¬ contains type "pdf" ∧ ¬ tabular_file ∧ ¬ contains type "image").
Proof.
  intros tabular_file. unfold tabular_file, renderEditor.
  rewrite <- !includes_spec, <- !endsWith_spec.
  destruct (Js.includes type "pdf"), (Js.includes type "sheet"),
    (Js.includes type "excel"), (Js.endsWith name ".xlsx"),
    (Js.endsWith name ".xls"), (Js.endsWith name ".csv"),
    (Js.includes type "image"); simpl; intuition congruence.
Qed.

(** X9. The preview and the editor are chosen alike for every file whose type
    does not contain [image] and whose name ends with neither [.xlsx] nor
    [.xls]. *)
Theorem viewer_editor_agree (type name : string) :
  ¬ contains type "image" → ¬ ends_with name ".xlsx" → ¬ ends_with name ".xls" →
  renderViewer type name = renderEditor type name.
Proof.
  rewrite <- includes_false, <- !endsWith_false. intros Hi Hx Hs.
  unfold renderViewer, renderEditor. rewrite Hi, Hx, Hs.
  destruct (Js.includes type "pdf"), (Js.includes type "sheet"),
    (Js.includes type "excel"), (Js.endsWith name ".csv"); done.
Qed.

Lemma not_contains_by_test s sub : Js.includes s sub = false → ¬ contains s sub.
Proof. apply includes_false. Qed.

Lemma not_ends_with_by_test s suffix : Js.endsWith s suffix = false → ¬ ends_with s suffix.
Proof. apply endsWith_false. Qed.

Lemma viewer_editor_agree_witness :
  ¬ contains "text/csv" "image" ∧ ¬ ends_with "table.csv" ".xlsx"
  ∧ ¬ ends_with "table.csv" ".xls"
  ∧ renderViewer "text/csv" "table.csv" = renderEditor "text/csv" "table.csv".
Proof.
  assert (¬ contains "text/csv" "image") as H1 by by apply not_contains_by_test.
  assert (¬ ends_with "table.csv" ".xlsx") as H2 by by apply not_ends_with_by_test.
  assert (¬ ends_with "table.csv" ".xls") as H3 by by apply not_ends_with_by_test.
  split; [exact H1|]. split; [exact H2|]. split; [exact H3|].
  exact (viewer_editor_agree "text/csv" "table.csv" H1 H2 H3).
Defined.

(** The two chains part ways on a spreadsheet that only its name gives away. *)
Lemma viewer_editor_differ_on_xlsx :
  renderViewer "" "book.xlsx" = PlainText ∧ renderEditor "" "book.xlsx" = Grid.
Proof. split; reflexivity. Qed.

(** X10. The icon of a row in the list tells the editor the file opens in,
    for every file whose name ends with none of [.xlsx], [.xls], [.csv]. *)
Theorem icon_tells_editor (type name : string) :
  ¬ ends_with name ".xlsx" → ¬ ends_with name ".xls" → ¬ ends_with name ".csv" →
  Sidebar.icon_strategy (Sidebar.getFileIcon type) = renderEditor type name.
Proof.
  rewrite <- !endsWith_false. intros Hx Hs Hc.
  unfold Sidebar.getFileIcon, renderEditor. rewrite Hx, Hs, Hc.
  destruct (Js.includes type "pdf"), (Js.includes type "sheet"),
    (Js.includes type "excel"), (Js.includes type "image"); done.
Qed.

Lemma icon_tells_editor_witness :
  ¬ ends_with "photo.png" ".xlsx" ∧ ¬ ends_with "photo.png" ".xls"
  ∧ ¬ ends_with "photo.png" ".csv"
  ∧ Sidebar.icon_strategy (Sidebar.getFileIcon "image/png")
    = renderEditor "image/png" "photo.png".
Proof.
  assert (¬ ends_with "photo.png" ".xlsx") as H1 by by apply not_ends_with_by_test.
  assert (¬ ends_with "photo.png" ".xls") as H2 by by apply not_ends_with_by_test.
  assert (¬ ends_with "photo.png" ".csv") as H3 by by apply not_ends_with_by_test.
  split; [exact H1|]. split; [exact H2|]. split; [exact H3|].
  exact (icon_tells_editor "image/png" "photo.png" H1 H2 H3).
Defined.

End DispatchExtra.

(** ** Sidebar: the highlighted row *)

Module SidebarExtra.
Import ListFacts Store StoreFacts StoreExtra Sidebar.

Lemma mint_id_nonempty now i : mint_id now i ≠ "".
Proof. unfold mint_id. by destruct (pretty now). Qed.

Lemma batch_ids_nonempty files : ∀ i x, x ∈ batch_ids i files → x ≠ "".
Proof.
  induction files as [|[f now] rest IH]; intros i x Hx; simpl in Hx.
  - by apply elem_of_nil in Hx.
  - apply elem_of_cons in Hx as [->|Hx]; [apply mint_id_nonempty | by eapply IH].
Qed.

Lemma minted_nonempty ops : ∀ x, x ∈ minted ops → x ≠ "".
Proof.
  induction ops as [|o ops IH]; intros x Hx; simpl in Hx.
  - by apply elem_of_nil in Hx.
  - destruct o; try by apply IH.
    apply elem_of_app in Hx as [Hx|Hx]; [by eapply batch_ids_nonempty | by apply IH].
Qed.

Lemma listed_ids_nonempty ops f :
  f ∈ uploadedFiles (run ops init) → id f ≠ "".
Proof.
  intros Hf. apply (minted_nonempty ops).
  apply (run_ids_known ops init []); [|by apply list_elem_of_fmap_2].
  intros x Hx. simpl in Hx. by apply elem_of_nil in Hx.
Qed.

(** X11. In every state reached with distinct ids the list highlights exactly
    one row while a file is selected, the row of the one record that has the
    id of the selection, and no row when nothing is selected. *)
Theorem one_row_highlighted (ops : list op) :
  NoDup (minted ops) →
  let s := run ops init in
  (∀ f, selectedFile s = Some f →
     ∃ g, highlighted_rows s = [g] ∧ g ∈ uploadedFiles s ∧ id g = id f
       ∧ ∀ g', g' ∈ uploadedFiles s → id g' = id f → g' = g)
  ∧ (selectedFile s = None → highlighted_rows s = []).
Proof.
  intros Hnd s. pose proof (reachable_ok ops Hnd) as Hok. fold s in Hok. split.
  - intros f Hsel.
    pose proof (selection_listed s Hok f Hsel) as Hlisted.
    apply list_elem_of_fmap in Hlisted as (g & Hgi & Hg).
    assert (id f ≠ "") as Hne.
    { rewrite Hgi. by apply (listed_ids_nonempty ops). }
    exists g. split; [|split; [done|split; [done|]]].
    + unfold highlighted_rows.
      rewrite (List.filter_ext (highlighted s) (λ x, String.eqb (id x) (id f))).
      * destruct (filter_id_unique (id f) _ (ids_distinct s Hok))
          as [Hnone|(g' & Hone & Hg' & Hgi')].
        -- exfalso.
           assert (In g (List.filter (λ x, String.eqb (id x) (id f)) (uploadedFiles s)))
             as Hin.
           { apply filter_In. split; [by apply list_elem_of_In | by apply String.eqb_eq]. }
           by rewrite Hnone in Hin.
        -- rewrite Hone. f_equal.
           apply (NoDup_fmap_inj_on id (uploadedFiles s));
             [by apply ids_distinct|done..|congruence].
      * intros x. unfold highlighted, selectedFileId. rewrite Hsel.
        apply String.eqb_neq in Hne. rewrite Hne. apply String.eqb_sym.
    + intros g' Hg' Hgi'.
      apply (NoDup_fmap_inj_on id (uploadedFiles s));
        [by apply ids_distinct|done..|congruence].
  - intros Hnone. unfold highlighted_rows. apply filter_none.
    intros x _. unfold highlighted, selectedFileId. by rewrite Hnone.
Qed.

Lemma one_row_highlighted_witness :
  NoDup (minted sample_ops)
  ∧ ∃ f g, selectedFile (run sample_ops init) = Some f
      ∧ highlighted_rows (run sample_ops init) = [g] ∧ id g = id f.
Proof.
  assert (NoDup (minted sample_ops)) as Hnd by by apply (bool_decide_unpack _).
  split; [exact Hnd|].
  assert (∃ f, selectedFile (run sample_ops init) = Some f) as [f Hf]
    by (eexists; reflexivity).
  destruct (proj1 (one_row_highlighted sample_ops Hnd) f Hf) as (g & Hrows & _ & Hid & _).
  exists f, g. split; [exact Hf|]. split; [exact Hrows | exact Hid].
Defined.

End SidebarExtra.

(** ** Grid: invariants of an editing session, shapes, positional removal *)

Module GridExtra.
Import ListFacts Grid GridFacts GridEdits.

Lemma fresh_row_no_proto (v : value) :
  ({[ "id" := v ]} : gmap string value) !! "__proto__" = None.
Proof. by apply lookup_singleton_ne. Qed.

Lemma complete_initial : complete initial.
Proof. intros row Hrow. by apply elem_of_nil in Hrow. Qed.

Lemma complete_load outcome s : complete s → complete (loadExcelData outcome s).
Proof.
  intros Hs. destruct outcome as [[sheetName [|headers rows]]|].
  - exact Hs.
  - intros row Hrow. cbn [loadExcelData data columns] in *.
    apply list_elem_of_lookup in Hrow as [r Hr]. rewrite list_lookup_imap in Hr.
    destruct (rows !! r) as [row0|]; [|done]. injection Hr as <-. split.
    + apply fill_row_no_proto, fresh_row_no_proto.
    + intros col Hcol Hnp. apply loaded_column_inv in Hcol as (c & h & Hh & ->).
      apply (fill_row_has_key headers 0 row0 _ c h Hh Hnp).
  - intros row Hrow. unfold loadExcelData, createEmptySpreadsheet in *.
    cbn [data columns] in *. apply list_elem_of_fmap in Hrow as (i & -> & _).
    match goal with
    | |- context [foldl _ ?obj ?cols] => pose proof (blank_row_dense cols obj) as Hb
    end.
    split.
    + apply (blank_row_no_proto _ _ _ Hb), fresh_row_no_proto.
    + intros col Hcol Hnp. rewrite (blank_row_written _ _ _ (key col) Hb);
        [by eexists | by apply list_elem_of_fmap_2 | done].
Qed.

Lemma deleteRow_rows rowIndex s row :
  row ∈ data (deleteRow rowIndex s) → row ∈ data s.
Proof.
  unfold deleteRow. cbn [data]. intros Hrow.
  apply list_elem_of_fmap in Hrow as ([k x] & -> & Hin).
  apply elem_of_filter in Hin as [Hin _].
  apply list_elem_of_lookup in Hin as [j Hj]. rewrite list_lookup_imap in Hj.
  destruct (data s !! j) as [y|] eqn:Hy; [|done]. injection Hj as _ <-.
  by eapply list_elem_of_lookup_2.
Qed.

Lemma complete_edit e s : complete s → complete (apply_edit s e).
Proof.
  intros Hs. destruct e as [| |rowIndex]; simpl.
  - unfold addRow.
    destruct (blank_row (columns s) _) as [newRow|] eqn:Hb; [|exact Hs].
    intros row Hrow. cbn [data columns] in *.
    apply elem_of_app in Hrow as [Hrow|Hrow]; [by apply Hs|].
    apply list_elem_of_singleton in Hrow as ->. split.
    + apply (blank_row_no_proto _ _ _ Hb), fresh_row_no_proto.
    + intros col Hcol Hnp. rewrite (blank_row_written _ _ _ (key col) Hb);
        [by eexists | by apply list_elem_of_fmap_2 | done].
  - intros row Hrow. unfold addColumn in *. cbn [data columns] in *.
    apply list_elem_of_fmap in Hrow as (row0 & -> & Hrow0).
    destruct (Hs row0 Hrow0) as [Hproto Hkeys]. split.
    + rewrite lookup_insert_ne; [done | apply made_up_key_not_proto].
    + intros col Hcol Hnp. rewrite defined_app, defined_spread in Hcol.
      apply elem_of_app in Hcol as [Hcol|Hcol].
      * destruct (decide ("Column" +:+ pretty (length (columns s) + 1) = key col))
          as [->|Hne].
        -- rewrite lookup_insert_eq. by eexists.
        -- rewrite lookup_insert_ne by done. by apply Hkeys.
      * apply list_elem_of_singleton in Hcol as ->. cbn [key].
        rewrite lookup_insert_eq. by eexists.
  - intros row Hrow. apply Hs. by eapply deleteRow_rows.
Qed.

(** X12. Whatever the load produced (a decoded sheet, an empty decode or the
    recovery grid) and whatever rows and columns are then added and rows
    deleted, every row object has a property of its own under the key of
    every column object, save a column keyed [__proto__]: under that name no
    row has a property of its own, so the row reads [Object.prototype]
    there. *)
Theorem edits_keep_rows_complete (outcome : decoded) (es : list edit) :
  let s := apply_edits es (loadExcelData outcome initial) in
  ∀ row, row ∈ data s →
    at_key row "__proto__" = Inherited
    ∧ ∀ col, col ∈ defined (columns s) → key col ≠ "__proto__" →
        ∃ v, row !! key col = Some v ∧ at_key row (key col) = Value v.
Proof.
  assert (∀ s0, complete s0 → complete (apply_edits es s0)) as Hrun.
  { induction es as [|e es IH]; intros s0 Hs0; [done|].
    simpl. by apply IH, complete_edit. }
  intros s row Hrow.
  destruct (Hrun _ (complete_load outcome initial complete_initial) row Hrow)
    as [Hproto Hkeys].
  split.
  - unfold at_key. by rewrite Hproto.
  - intros col Hcol Hnp. destruct (Hkeys col Hcol Hnp) as [v Hv].
    exists v. split; [done|]. unfold at_key. by rewrite Hv.
Qed.

Lemma edits_keep_rows_complete_witness :
  ∃ row,
    row ∈ data (apply_edits [AddColumn; AddRow] (loadExcelData None initial))
    ∧ at_key row "__proto__" = Inherited.
Proof.
  assert (∃ row, data (apply_edits [AddColumn; AddRow] (loadExcelData None initial))
                   !! 10%nat = Some row) as [row Hrow]
    by (eexists; reflexivity).
  apply list_elem_of_lookup_2 in Hrow. exists row. split; [exact Hrow|].
  exact (proj1 (edits_keep_rows_complete None [AddColumn; AddRow] row Hrow)).
Defined.

(** *** Positional removal *)

Lemma imap_shift (l : list (gmap string value)) j :
  imap ((λ k x, (j + k, x)%nat) ∘ S) l = imap (λ k x, (S j + k, x)%nat) l.
Proof. apply imap_ext. intros k y _. simpl. f_equal. lia. Qed.

Lemma keep_after (l : list (gmap string value)) : ∀ j i,
  (i < j)%nat →
  snd <$> List.filter (λ p, negb (p.1 =? i)%nat) (imap (λ k x, (j + k, x)%nat) l) = l.
Proof.
  induction l as [|x l IH]; intros j i Hlt; [done|].
  rewrite imap_cons, imap_shift. cbn [List.filter fst].
  assert ((j + 0 =? i)%nat = false) as -> by (apply Nat.eqb_neq; lia).
  cbn [negb]. rewrite fmap_cons. cbn [snd]. f_equal. apply IH. lia.
Qed.

Lemma remove_at (l : list (gmap string value)) : ∀ j i,
  snd <$> List.filter (λ p, negb (p.1 =? j + i)%nat) (imap (λ k x, (j + k, x)%nat) l)
  = take i l ++ drop (S i) l.
Proof.
  induction l as [|x l IH]; intros j i; [by destruct i|].
  rewrite imap_cons, imap_shift. cbn [List.filter fst]. destruct i as [|i].
  - rewrite Nat.eqb_refl. cbn [negb take drop app]. apply keep_after. lia.
  - assert ((j + 0 =? j + S i)%nat = false) as -> by (apply Nat.eqb_neq; lia).
    cbn [negb take drop app]. rewrite fmap_cons. cbn [snd]. f_equal.
    replace (j + S i)%nat with (S j + i)%nat by lia. apply IH.
Qed.

(** X13. [deleteRow] removes the row at the given position and nothing else:
    the rows before it and the rows after it stay, in order, and the columns
    are untouched; a position past the last row removes nothing. *)
Theorem deleteRow_positional (rowIndex : nat) (s : Sheet) :
  data (deleteRow rowIndex s) = take rowIndex (data s) ++ drop (S rowIndex) (data s)
  ∧ columns (deleteRow rowIndex s) = columns s
  ∧ ((length (data s) ≤ rowIndex)%nat → data (deleteRow rowIndex s) = data s)
  ∧ ((rowIndex < length (data s))%nat →
       length (data (deleteRow rowIndex s)) = pred (length (data s))).
Proof.
  assert (data (deleteRow rowIndex s)
          = take rowIndex (data s) ++ drop (S rowIndex) (data s)) as Hdata.
  { unfold deleteRow. cbn [data]. apply (remove_at (data s) 0 rowIndex). }
  split; [done|]. split; [done|]. rewrite Hdata. split.
  - intros Hge. rewrite take_ge by done. rewrite drop_ge by lia. apply app_nil_r.
  - intros Hlt. rewrite length_app, length_take, length_drop. lia.
Qed.

(** *** Adding rows and columns *)

(** What a row just made by [addRow] shows under a column key. *)
Lemma new_row_cell cols (obj newRow : gmap string value) col :
  blank_row cols obj = Some newRow →
  obj !! "__proto__" = None →
  col ∈ defined cols →
  or_blank (at_key newRow (key col))
  = if String.eqb (key col) "__proto__" then Inherited else Value (VStr "").
Proof.
  intros Hb Hn Hcol. destruct (String.eqb_spec (key col) "__proto__") as [->|Hne].
  - unfold at_key. by rewrite (blank_row_no_proto _ _ _ Hb Hn).
  - unfold at_key. rewrite (blank_row_written _ _ _ _ Hb); [done| |done].
    by apply list_elem_of_fmap_2.
Qed.

(** X14. When every element of [columns] is a column or an empty slot,
    [addRow] leaves the header names and the text of every existing cell as
    they are and appends one row, which shows the empty string in every
    column but a column keyed [__proto__]: the assignment stores nothing
    under that name and the row reads [Object.prototype] there. When an
    element of [columns] is [undefined], [addRow] throws before it sets the
    state, and the sheet stays as it is. *)
Theorem addRow_appends_blank_row (s : Sheet) :
  (Undefined ∉ columns s →
     header_names (addRow s) = header_names s
     ∧ cell_text (addRow s)
       = cell_text s
         ++ [(λ col, if String.eqb (key col) "__proto__" then Inherited
                     else Value (VStr "")) <$> defined (columns s)])
  ∧ (Undefined ∈ columns s → addRow s = s).
Proof.
  split.
  - intros Hnu. unfold addRow.
    destruct (blank_row_some (columns s)
                {[ "id" := VNum (Z.of_nat (length (data s))) ]} Hnu) as [newRow Hb].
    rewrite Hb. split; [done|]. unfold cell_text. cbn [data columns].
    rewrite fmap_app. f_equal. simpl. f_equal.
    apply list_fmap_ext. intros c col Hc.
    apply (new_row_cell _ _ _ _ Hb); [apply fresh_row_no_proto|].
    by eapply list_elem_of_lookup_2.
  - intros Hu. unfold addRow. by rewrite blank_row_none.
Qed.

(** X15. When no column already has the key [Column<n+1>] that [addColumn]
    makes up for a sheet of n columns, [addColumn] leaves the text of every
    existing cell as it is, appends the header [Column <n+1>] and shows the
    empty string in the new column of every row. *)
Theorem addColumn_fresh_key (s : Sheet) :
  "Column" +:+ pretty (length (columns s) + 1) ∉ key <$> defined (columns s) →
  header_names (addColumn s)
  = header_names s ++ [VStr ("Column " +:+ pretty (length (columns s) + 1))]
  ∧ cell_text (addColumn s) = (λ cells, cells ++ [Value (VStr "")]) <$> cell_text s.
Proof.
  intros Hfresh. split.
  - unfold header_names, addColumn. cbn [columns].
    by rewrite defined_app, defined_spread, fmap_app.
  - unfold cell_text, addColumn. cbn [data columns].
    rewrite defined_app, defined_spread.
    rewrite <- !list_fmap_compose. apply list_fmap_ext. intros r row Hr. simpl.
    rewrite fmap_app. simpl. f_equal.
    + apply list_fmap_ext. intros c col Hc. unfold at_key.
      rewrite lookup_insert_ne; [done|].
      intros Heq. apply Hfresh. rewrite Heq.
      apply list_elem_of_fmap_2. by eapply list_elem_of_lookup_2.
    + unfold at_key. by rewrite lookup_insert_eq.
Qed.

Lemma addColumn_fresh_key_witness :
  ("Column" +:+ pretty (length (columns ab_sheet) + 1)
     ∉ key <$> defined (columns ab_sheet))
  ∧ cell_text (addColumn ab_sheet)
    = (λ cells, cells ++ [Value (VStr "")]) <$> cell_text ab_sheet.
Proof.
  assert ("Column" +:+ pretty (length (columns ab_sheet) + 1)
            ∉ key <$> defined (columns ab_sheet))
    as Hfresh by by apply (bool_decide_unpack _).
  split; [exact Hfresh | exact (proj2 (addColumn_fresh_key ab_sheet Hfresh))].
Defined.

(** *** What the load reads of a row *)

Lemma fill_row_take headers : ∀ i row (obj : gmap string value),
  fill_row headers i row obj
  = fill_row headers i (take (i + length headers) row) obj.
Proof.
  induction headers as [|h rest IH]; intros i row obj; [done|].
  cbn [fill_row length]. rewrite (IH (S i) row), (IH (S i) (take _ row)).
  replace (S i + length rest)%nat with (i + S (length rest))%nat by lia.
  rewrite take_take, Nat.min_id. f_equal.
  destruct h as [h|]; [|done]. f_equal. f_equal.
  unfold at_index. rewrite lookup_take_lt; [done | lia].
Qed.

(** X16. The load reads of each data row only as many cells as the header
    row has: cells further right are dropped, so a sheet and the same sheet
    with every data row cut to the width of its header load alike. *)
Theorem load_reads_header_width (s : Sheet) (sheetName : string)
    (headers : list (option value)) (rows : list (list (option value))) :
  loadExcelData (Some (sheetName, headers :: rows)) s
  = loadExcelData (Some (sheetName, headers :: (take (length headers) <$> rows))) s.
Proof.
  unfold loadExcelData. f_equal. apply list_eq. intros r.
  rewrite !list_lookup_imap, list_lookup_fmap.
  destruct (rows !! r) as [row|]; [|done]. simpl. f_equal.
  unfold make_row. apply (fill_row_take headers 0 row).
Qed.

(** *** Row ids *)

Lemma make_row_id headers r row :
  (∀ c h, headers !! c = Some (Some h) → header_key h c ≠ "id") →
  row_id (make_row headers r row) = Value (VNum (Z.of_nat r)).
Proof.
  intros Hkeys. unfold row_id, at_key, make_row.
  rewrite fill_row_other; [by rewrite lookup_singleton_eq|].
  intros j h Hj. by apply Hkeys.
Qed.

Lemma loaded_keys_without_id s sheetName headers rows :
  (∀ c h, headers !! c = Some (Some h) → header_key h c ≠ "id") →
  "id" ∉ key <$> defined (columns (loadExcelData (Some (sheetName, headers :: rows)) s)).
Proof.
  intros Hkeys Hin. apply list_elem_of_fmap in Hin as (col & Hk & Hcol).
  cbn [loadExcelData columns] in Hcol.
  apply loaded_column_inv in Hcol as (c & h & Hh & ->).
  by apply (Hkeys c h Hh).
Qed.

(** X17. Row ids are not renumbered. In a sheet loaded from n data rows with
    no column keyed [id], delete any row but the last and add a row: the sheet
    has n rows again, and its last two rows carry the same id, n-1, the one
    the old last row was loaded with and the one [addRow] takes from the
    row count. *)
Theorem delete_then_add_repeats_row_id (s : Sheet) (sheetName : string)
    (headers : list (option value)) (rows : list (list (option value))) (i : nat) :
  (∀ c h, headers !! c = Some (Some h) → header_key h c ≠ "id") →
  (S i < length rows)%nat →
  let loaded := loadExcelData (Some (sheetName, headers :: rows)) s in
  let edited := addRow (deleteRow i loaded) in
  let n := length rows in
  length (data edited) = n
  ∧ row_id <$> data edited !! (n - 2)%nat = Some (Value (VNum (Z.of_nat (n - 1))))
  ∧ row_id <$> data edited !! (n - 1)%nat = Some (Value (VNum (Z.of_nat (n - 1)))).
Proof.
  intros Hkeys Hi loaded edited n.
  assert (length (data loaded) = n) as Hlen by apply length_imap.
  assert (n = length rows) as Hn by done. clearbody n. rewrite <- Hn in Hi.
  destruct (deleteRow_positional i loaded) as (Hdel & Hcols & _ & Hdlen).
  specialize (Hdlen ltac:(lia)).
  assert (Undefined ∉ columns (deleteRow i loaded)) as Hnu.
  { rewrite Hcols. apply loaded_no_undefined. }
  destruct (blank_row_some (columns (deleteRow i loaded))
              {[ "id" := VNum (Z.of_nat (length (data (deleteRow i loaded)))) ]} Hnu)
    as [newRow Hb].
  assert (data edited = data (deleteRow i loaded) ++ [newRow]) as Hedit.
  { unfold edited, addRow. by rewrite Hb. }
  split; [rewrite Hedit, length_app, Hdlen; cbn [length]; lia|]. split.
  - rewrite Hedit, lookup_app_l by lia. rewrite Hdel.
    rewrite lookup_app_r by (rewrite length_take; lia).
    rewrite length_take, lookup_drop.
    replace (S i + (n - 2 - i `min` length (data loaded)))%nat with (n - 1)%nat by lia.
    unfold loaded. rewrite loaded_rows.
    destruct (rows !! (n - 1)%nat) as [row|] eqn:Hrow.
    + simpl. by rewrite make_row_id.
    + apply lookup_ge_None in Hrow. lia.
  - rewrite Hedit, lookup_app_r by lia.
    rewrite Hdlen, Hlen. replace (n - 1 - pred n)%nat with 0%nat by lia.
    assert (∀ x : gmap string value, [x] !! 0%nat = Some x) as -> by done.
    cbn [fmap option_fmap option_map].
    unfold row_id, at_key. rewrite (blank_row_other _ _ _ "id" Hb).
    + rewrite lookup_singleton_eq, Hdlen, Hlen. do 3 f_equal. lia.
    + rewrite Hcols. by apply loaded_keys_without_id.
Qed.

Lemma delete_then_add_repeats_row_id_witness :
  (∀ c h, dense [VStr "a"; VStr "b"] !! c = Some (Some h) → header_key h c ≠ "id")
  ∧ (1 < length (dense <$> [[VStr "1"; VStr "2"]; [VStr "3"; VStr "4"]]))%nat
  ∧ row_id <$> data (addRow (deleteRow 0 ab_sheet)) !! 0%nat = Some (Value (VNum 1))
  ∧ row_id <$> data (addRow (deleteRow 0 ab_sheet)) !! 1%nat = Some (Value (VNum 1)).
Proof.
  assert (∀ c h, dense [VStr "a"; VStr "b"] !! c = Some (Some h)
                 → header_key h c ≠ "id") as Hkeys.
  { intros [|[|c]] h Hc; [injection Hc as <-; done | injection Hc as <-; done | done]. }
  assert (1 < length (dense <$> [[VStr "1"; VStr "2"]; [VStr "3"; VStr "4"]]))%nat as Hlen
    by (simpl; lia).
  split; [exact Hkeys|]. split; [exact Hlen|].
  exact (proj2 (delete_then_add_repeats_row_id initial "Sheet1"
                  (dense [VStr "a"; VStr "b"])
                  (dense <$> [[VStr "1"; VStr "2"]; [VStr "3"; VStr "4"]]) 0 Hkeys Hlen)).
Defined.

End GridExtra.

(** ** PDF editor: navigation, zoom, canvas and export *)

Module PdfExtra.
Import Pdf PdfFacts PdfAudit.

Lemma page_at_in_range (pages : list Page) (n : Z) :
  (1 ≤ n ≤ Z.of_nat (length pages))%Z → is_Some (page_at pages n).
Proof.
  intros [Hlo Hhi]. unfold page_at. rewrite (proj2 (Z.leb_le 1 n)) by done.
  apply lookup_lt_is_Some. lia.
Qed.

Lemma renderPage_shown pages ed :
  pdfDoc ed = Some pages →
  totalPages ed = Z.of_nat (length pages) →
  (1 ≤ currentPage ed ≤ totalPages ed)%Z →
  shown pages (renderPage ed).
Proof.
  intros Hdoc Htot Hrange.
  destruct (page_at_in_range pages (currentPage ed)) as [page Hpage]; [lia|].
  unfold renderPage. rewrite Hdoc, Hpage.
  constructor; simpl; try done. intros page' Hpage'. congruence.
Qed.

Lemma shown_step pages e ed : shown pages ed → shown pages (step ed e).
Proof.
  intros [Hdoc Htot Hrange Hfit]. destruct e as [px py now| | | | |t]; simpl.
  - by constructor.
  - destruct (Z.leb_spec (currentPage ed) 1); [by constructor|].
    apply renderPage_shown; simpl; [done..|lia].
  - destruct (Z.leb_spec (totalPages ed) (currentPage ed)); [by constructor|].
    apply renderPage_shown; simpl; [done..|lia].
  - by apply renderPage_shown.
  - by apply renderPage_shown.
  - by constructor.
Qed.

Lemma shown_run pages events : ∀ ed, shown pages ed → shown pages (run events ed).
Proof.
  induction events as [|e events IH]; intros ed Hed; [done|].
  simpl. by apply IH, shown_step.
Qed.

Lemma shown_after_load pages ed0 :
  pages ≠ [] → shown pages (renderPage (loadPDF pages ed0)).
Proof.
  intros Hne. apply renderPage_shown; simpl; [done..|].
  destruct pages; [done|]. simpl. lia.
Qed.

Lemma save_persists pages page ed a :
  page_at pages (currentPage ed) = Some page →
  a ∈ annotations ed →
  ∃ doc, handleSave (Some pages) ed = Some doc ∧ persisted a doc.
Proof.
  intros Hpage Ha. pose proof (page_at_lookup _ _ _ Hpage) as Hlook.
  assert (Z.to_nat (currentPage ed - 1) < length pages)%nat as Hlt
    by by eapply lookup_lt_Some.
  exists (<[Z.to_nat (currentPage ed - 1) := draw_on page (draw <$> annotations ed)]> pages).
  split.
  - unfold handleSave. rewrite Hpage.
    destruct (annotations ed) as [|a0 l] eqn:E; [by apply elem_of_nil in Ha|].
    f_equal. apply save_pages. rewrite length_insert. lia.
  - exists (draw_on page (draw <$> annotations ed)). split.
    + eapply list_elem_of_lookup_2. by apply list_lookup_insert_eq.
    + simpl. apply elem_of_app. right. by apply list_elem_of_fmap_2.
Qed.

(** X18. Once a document with at least one page is loaded, no sequence of
    clicks, Previous, Next, zooms and tool picks takes the page counter out of
    1..totalPages, and totalPages stays the number of pages of the document;
    so a save that fetches that document always finds its page and hands a
    document of the same length to [onSave]. *)
Theorem page_counter_stays_in_document
    (pages : list Page) (ed0 : Editor) (events : list event) :
  pages ≠ [] →
  let ed := run events (renderPage (loadPDF pages ed0)) in
  totalPages ed = Z.of_nat (length pages)
  ∧ (1 ≤ currentPage ed ≤ totalPages ed)%Z
  ∧ ∃ doc, handleSave (Some pages) ed = Some doc ∧ length doc = length pages.
Proof.
  intros Hne ed.
  destruct (shown_run pages events _ (shown_after_load pages ed0 Hne))
    as [Hdoc Htot Hrange _]. fold ed in Hdoc, Htot, Hrange.
  split; [done|]. split; [done|].
  destruct (page_at_in_range pages (currentPage ed)) as [page Hpage]; [lia|].
  assert (0 < length pages)%nat as Hpos by (destruct pages; [done | simpl; lia]).
  unfold handleSave. rewrite Hpage.
  destruct (annotations ed); eexists; (split; [done|]).
  - by rewrite save_pages.
  - rewrite save_pages by (rewrite length_insert; lia). apply length_insert.
Qed.

Lemma page_counter_stays_in_document_witness :
  two_pages ≠ []
  ∧ (1 ≤ currentPage (run [Next; Next; Previous] opened) ≤ 2)%Z.
Proof.
  assert (two_pages ≠ []) as Hne by done.
  split; [exact Hne|].
  exact (proj1 (proj2 (page_counter_stays_in_document two_pages mounted
                         [Next; Next; Previous] Hne))).
Defined.

(** X19. A document without pages: the page buttons stay disabled, so a save
    after any events finds no page to draw on. When no annotation was placed
    [onSave] receives a document of one blank A4 page, the page pdf-lib adds
    on saving a document that has none, and not the fetched document; once
    there is an annotation the drawing throws and nothing is saved. *)
Theorem save_on_empty_document (ed0 : Editor) (events : list event) :
  let ed := run events (renderPage (loadPDF [] ed0)) in
  currentPage ed = 1%Z
  ∧ (annotations ed = [] → handleSave (Some []) ed = Some [a4])
  ∧ (annotations ed ≠ [] → handleSave (Some []) ed = None).
Proof.
  intros ed.
  assert (∀ e, currentPage e = 1%Z → totalPages e = 0%Z → pdfDoc e = Some [] →
            currentPage (run events e) = 1%Z) as Hrun.
  { induction events as [|ev events IH]; intros e Hc Ht Hd; [done|].
    simpl. assert (step e ev = e ∨ (currentPage (step e ev) = 1%Z
                     ∧ totalPages (step e ev) = 0%Z ∧ pdfDoc (step e ev) = Some []))
      as [->|(? & ? & ?)]; [|by apply IH|by apply IH].
    destruct ev; simpl; rewrite ?Hc, ?Ht; simpl; auto;
      right; unfold renderPage; simpl; rewrite ?Hd, ?Hc; simpl; done. }
  assert (currentPage ed = 1%Z) as Hc by by apply Hrun.
  split; [done|]. unfold handleSave, page_at. rewrite Hc. simpl.
  split; [by intros -> | intros Hne; by destruct (annotations ed)].
Qed.


Local Open Scope Q_scope.

Lemma scale_renderPage ed : scale (renderPage ed) = scale ed.
Proof.
  unfold renderPage. destruct (pdfDoc ed); [|done]. by destruct (page_at _ _).
Qed.

Lemma zoom_out_in_range q : 1 # 2 <= q <= 3 → 1 # 2 <= Qmax (1 # 2) (q - (1 # 4)) <= 3.
Proof.
  intros [Hlo Hhi].
  destruct (Q.max_spec (1 # 2) (q - (1 # 4))) as [[H1 H2]|[H1 H2]];
    rewrite H2; lra.
Qed.

Lemma zoom_in_in_range q : 1 # 2 <= q <= 3 → 1 # 2 <= Qmin 3 (q + (1 # 4)) <= 3.
Proof.
  intros [Hlo Hhi].
  destruct (Q.min_spec 3 (q + (1 # 4))) as [[H1 H2]|[H1 H2]];
    rewrite H2; lra.
Qed.

(** X20. The zoom buttons keep the render scale between 0.5 and 3.0: from a
    scale in that range (the editor mounts at 1.5) every sequence of events
    leaves it in that range. *)
Theorem scale_stays_in_range (events : list event) (ed : Editor) :
  1 # 2 <= scale ed <= 3 →
  1 # 2 <= scale (run events ed) <= 3.
Proof.
  revert ed. induction events as [|e events IH]; intros ed Hs; [done|].
  simpl. apply IH. destruct e as [px py now| | | | |t]; simpl.
  - done.
  - destruct (currentPage ed <=? 1)%Z; [done|]. by rewrite scale_renderPage.
  - destruct (totalPages ed <=? currentPage ed)%Z; [done|]. by rewrite scale_renderPage.
  - rewrite scale_renderPage. simpl. by apply zoom_out_in_range.
  - rewrite scale_renderPage. simpl. by apply zoom_in_in_range.
  - done.
Qed.

Lemma scale_stays_in_range_witness :
  1 # 2 <= scale mounted <= 3
  ∧ 1 # 2 <= scale (run [ZoomOut; ZoomOut; ZoomOut; ZoomOut; ZoomOut; ZoomIn] mounted) <= 3.
Proof.
  assert (1 # 2 <= scale mounted <= 3) as Hs by (split; by vm_compute).
  split; [exact Hs|].
  exact (scale_stays_in_range [ZoomOut; ZoomOut; ZoomOut; ZoomOut; ZoomOut; ZoomIn]
           mounted Hs).
Defined.

(** X21. After a document with at least one page is loaded, and after any
    events, the canvas has the height of the viewport of the page shown at
    the current scale (its integral part); so, with the scale in range, a
    click at any point is painted back at its x and less than one pixel
    below its y. *)
Theorem canvas_follows_page
    (pages : list Page) (ed0 : Editor) (events : list event) :
  pages ≠ [] →
  1 # 2 <= scale ed0 <= 3 →
  let ed := run events (renderPage (loadPDF pages ed0)) in
  ∃ page, page_at pages (currentPage ed) = Some page
    ∧ canvas_height ed = canvas_attr (viewport_height page (scale ed))
    ∧ ∀ px py now,
        let p := screen_point (scale ed) (viewport_height page (scale ed))
                   (newAnnotation ed px py now) in
        p.1 == px ∧ 0 <= p.2 - py ∧ p.2 - py < 1.
Proof.
  intros Hne Hs0 ed.
  destruct (shown_run pages events _ (shown_after_load pages ed0 Hne))
    as [Hdoc Htot Hrange Hfit]. fold ed in Hdoc, Htot, Hrange, Hfit.
  destruct (page_at_in_range pages (currentPage ed)) as [page Hpage]; [lia|].
  exists page. split; [done|]. split; [by apply Hfit|].
  intros px py now p.
  assert (1 # 2 <= scale ed <= 3) as [Hlo Hhi].
  { apply scale_stays_in_range. by rewrite scale_renderPage. }
  assert (¬ scale ed == 0) as Hnz.
  { intros H0. rewrite H0 in Hlo. by apply Qle_not_lt in Hlo. }
  unfold p, screen_point, newAnnotation. simpl. rewrite (Hfit page Hpage).
  set (vh := viewport_height page (scale ed)).
  destruct (click_round_trip (scale ed) (canvas_attr vh) vh px py Hnz) as [Hx Hy].
  pose proof (canvas_attr_below vh) as Hbelow.
  pose proof (canvas_attr_within vh) as Hwithin.
  split; [exact Hx|]. split; lra.
Qed.

Lemma canvas_follows_page_witness :
  two_pages ≠ [] ∧ 1 # 2 <= scale mounted <= 3
  ∧ ∃ page, page_at two_pages (currentPage (run [ZoomIn; Next] opened)) = Some page
      ∧ canvas_height (run [ZoomIn; Next] opened)
        = canvas_attr (viewport_height page (scale (run [ZoomIn; Next] opened))).
Proof.
  assert (two_pages ≠ []) as Hne by done.
  assert (1 # 2 <= scale mounted <= 3) as Hs by (split; by vm_compute).
  split; [exact Hne|]. split; [exact Hs|].
  destruct (canvas_follows_page two_pages mounted [ZoomIn; Next] Hne Hs)
    as (page & Hpage & Hfit & _).
  exists page. split; [exact Hpage | exact Hfit].
Defined.

Local Close Scope Q_scope.

Lemma step_appends e ed :
  ∃ added, annotations (step ed e) = annotations ed ++ added
    ∧ length added = (if is_click e then 1 else 0)%nat.
Proof.
  destruct e as [px py now| | | | |t]; simpl.
  - by eexists.
  - exists []. rewrite app_nil_r. split; [|done].
    destruct (currentPage ed <=? 1)%Z; [done|]. through_renderPage ed.
  - exists []. rewrite app_nil_r. split; [|done].
    destruct (totalPages ed <=? currentPage ed)%Z; [done|]. through_renderPage ed.
  - exists []. rewrite app_nil_r. split; [|done]. through_renderPage ed.
  - exists []. rewrite app_nil_r. split; [|done]. through_renderPage ed.
  - exists []. by rewrite app_nil_r.
Qed.

(** X22. The annotation list is append-only: after any events it is the
    list before them followed by one annotation per click, in click order;
    page changes, zooms and tool picks add and remove none. *)
Theorem annotations_append_only (events : list event) (ed : Editor) :
  ∃ added, annotations (run events ed) = annotations ed ++ added
    ∧ length added = length (List.filter is_click events).
Proof.
  revert ed. induction events as [|e events IH]; intros ed.
  - exists []. by rewrite app_nil_r.
  - simpl. destruct (IH (step ed e)) as (later & Hlater & Hlen).
    destruct (step_appends e ed) as (first & Hfirst & Hflen).
    exists (first ++ later). rewrite Hlater, Hfirst, <- app_assoc. split; [done|].
    rewrite length_app, Hlen, Hflen. by destruct (is_click e).
Qed.

(** X23. Loading another document does not clear the annotation list: an
    annotation placed before the load is still there after it and after any
    further events, and a save draws it into the newly loaded document. *)
Theorem annotations_outlive_document
    (ed : Editor) (pages : list Page) (events : list event) (a : Annotation) :
  pages ≠ [] →
  a ∈ annotations ed →
  let ed' := run events (renderPage (loadPDF pages ed)) in
  a ∈ annotations ed'
  ∧ ∃ doc, handleSave (Some pages) ed' = Some doc ∧ persisted a doc.
Proof.
  intros Hne Ha ed'.
  assert (a ∈ annotations ed') as Ha'.
  { apply run_keeps_annotations. unfold renderPage, loadPDF. simpl.
    by destruct (page_at pages 1). }
  split; [done|].
  destruct (shown_run pages events _ (shown_after_load pages ed Hne))
    as [Hdoc Htot Hrange _]. fold ed' in Hdoc, Htot, Hrange.
  destruct (page_at_in_range pages (currentPage ed')) as [page Hpage]; [lia|].
  by apply (save_persists pages page).
Qed.

Lemma annotations_outlive_document_witness :
  two_pages ≠ []
  ∧ newAnnotation opened 30 40 1000 ∈ annotations (handleCanvasClick 30 40 1000 opened)
  ∧ ∃ doc, handleSave (Some two_pages)
             (run [] (renderPage (loadPDF two_pages (handleCanvasClick 30 40 1000 opened))))
           = Some doc
      ∧ persisted (newAnnotation opened 30 40 1000) doc.
Proof.
  assert (two_pages ≠ []) as Hne by done.
  assert (newAnnotation opened 30 40 1000
            ∈ annotations (handleCanvasClick 30 40 1000 opened)) as Ha
    by (simpl; apply list_elem_of_here).
  split; [exact Hne|]. split; [exact Ha|].
  exact (proj2 (annotations_outlive_document (handleCanvasClick 30 40 1000 opened)
                  two_pages [] (newAnnotation opened 30 40 1000) Hne Ha)).
Defined.

(** X24. For a rectangle annotation the preview and the export are given
    boxes of the same size at the same x (the preview's being the export's
    times the scale), and both are given [y - height] as their y, although
    the canvas axis points down and the page axis up: the canvas position
    at which the previewed box ends, [py + ph], is that of the page height
    [dy + dh] at which the exported box ends, and the exported box starts
    one box height further down the canvas. *)
Theorem rectangle_preview_and_export (a : Annotation) (s vh : Q) :
  type a = Rectangle →
  ∃ px py pw ph dx dy dw dh,
    renderAnnotations s vh [a] = [StrokeRect px py pw ph]
    ∧ draw a = DrawRectangle dx dy dw dh 2
    ∧ (px == dx * s ∧ pw == dw * s ∧ ph == dh * s
       ∧ py + ph == vh - (dy + dh) * s
       ∧ py + ph + ph == vh - dy * s)%Q.
Proof.
  intros Ht. unfold renderAnnotations, draw, screen_point. rewrite fmap_cons, fmap_nil.
  cbn beta iota. rewrite Ht. do 8 eexists. split; [reflexivity|]. split; [reflexivity|].
  repeat split; try reflexivity; lra.
Qed.

Lemma rectangle_preview_and_export_witness :
  type (newAnnotation (setSelectedTool Rectangle opened) 30 40 1000) = Rectangle
  ∧ ∃ px py pw ph dx dy dw dh,
      renderAnnotations (3 # 2) 1188
        [newAnnotation (setSelectedTool Rectangle opened) 30 40 1000]
      = [StrokeRect px py pw ph]
      ∧ draw (newAnnotation (setSelectedTool Rectangle opened) 30 40 1000)
        = DrawRectangle dx dy dw dh 2
      ∧ (px == dx * (3 # 2) ∧ pw == dw * (3 # 2) ∧ ph == dh * (3 # 2)
         ∧ py + ph == 1188 - (dy + dh) * (3 # 2)
         ∧ py + ph + ph == 1188 - dy * (3 # 2))%Q.
Proof.
  split; [reflexivity|].
  exact (rectangle_preview_and_export
           (newAnnotation (setSelectedTool Rectangle opened) 30 40 1000)
           (3 # 2) 1188 eq_refl).
Defined.

End PdfExtra.

(** ** Image editor: placement, deletion and rotation *)

Module SceneExtra.
Import ListFacts Scene SceneFacts SceneAudit.

Lemma filter_twice {A} (f g h : A → bool) (l : list A) :
  (∀ x, x ∈ l → h x = g x && f x) →
  List.filter f (List.filter g l) = List.filter h l.
Proof.
  induction l as [|a l IH]; intros Hh; [done|]. cbn [List.filter].
  rewrite (Hh a) by apply list_elem_of_here.
  assert (List.filter f (List.filter g l) = List.filter h l) as IH'.
  { apply IH. intros x Hx. apply Hh. by apply list_elem_of_further. }
  destruct (g a); cbn [List.filter andb]; [|done]. destruct (f a); by rewrite IH'.
Qed.

(** Removing the objects of [l] one by one leaves those whose identity is
    not in [l], in their order. *)
Lemma removals_objects l : ∀ c,
  objects (foldl (λ c' obj, remove obj c') c l)
  = List.filter (λ x, negb (bool_decide (oid x ∈ oid <$> l))) (objects c).
Proof.
  induction l as [|o l IH]; intros c.
  - cbn [foldl]. symmetry. apply filter_all. intros x _.
    apply negb_true_iff, bool_decide_eq_false. rewrite fmap_nil. apply not_elem_of_nil.
  - cbn [foldl]. rewrite IH. unfold remove, set_objects. cbn [objects].
    apply filter_twice. intros x _. rewrite fmap_cons.
    destruct (Nat.eqb_spec (oid x) (oid o)) as [Heq|Hne]; cbn [negb andb].
    + apply negb_false_iff, bool_decide_eq_true. rewrite Heq. apply list_elem_of_here.
    + f_equal. apply bool_decide_ext. rewrite elem_of_cons.
      split; [by intros [?|?] | by right].
Qed.

Lemma active_objects_ids c x :
  x ∈ objects c → oid x ∈ oid <$> getActiveObjects c ↔ oid x ∈ active c.
Proof.
  intros Hx. unfold getActiveObjects. split.
  - intros Hin. apply list_elem_of_fmap in Hin as (y & -> & Hy).
    apply elem_of_filter in Hy as [_ Hy]. by apply bool_decide_eq_true in Hy.
  - intros Hin. apply list_elem_of_fmap_2, elem_of_filter. split; [done|].
    by apply bool_decide_eq_true.
Qed.

Lemma deleteSelected_objects c : objects (deleteSelected c) = inactive c.
Proof.
  unfold deleteSelected, inactive.
  destruct (getActiveObjects c) as [|o l] eqn:E.
  - symmetry. apply filter_all. intros x Hx. apply negb_true_iff, bool_decide_eq_false.
    intros Hin. apply (active_objects_ids c x Hx) in Hin. rewrite E in Hin.
    by apply elem_of_nil in Hin.
  - unfold discardActiveObject, set_active. cbn [objects]. rewrite removals_objects.
    rewrite <- E. apply List.filter_ext_in. intros x Hx. apply list_elem_of_In in Hx.
    f_equal. apply bool_decide_ext. by apply active_objects_ids.
Qed.

Lemma deleteSelected_none_active c : getActiveObjects (deleteSelected c) = [].
Proof.
  unfold deleteSelected. destruct (getActiveObjects c) as [|o l] eqn:E; [done|].
  unfold getActiveObjects, discardActiveObject, set_active. cbn [active objects].
  apply filter_none. intros x _. apply bool_decide_eq_false, not_elem_of_nil.
Qed.

(** X25. Delete removes exactly the objects of the active selection: what
    is left on the canvas are the objects that were not active, in their
    stacking order, and nothing is active afterwards. *)
Theorem delete_removes_selection_only (c : Canvas) :
  objects (deleteSelected c) = inactive c
  ∧ getActiveObjects (deleteSelected c) = []
  ∧ ∀ x, x ∈ objects (deleteSelected c) ↔ x ∈ objects c ∧ (oid x ∉ active c).
Proof.
  split; [apply deleteSelected_objects|]. split; [apply deleteSelected_none_active|].
  intros x. rewrite deleteSelected_objects. unfold inactive. rewrite elem_of_filter.
  by rewrite negb_true_iff, bool_decide_eq_false.
Qed.

Lemma addShape_then_delete k c :
  tidy c → objects (deleteSelected (addShape k c)) = objects c.
Proof.
  intros Hc. rewrite deleteSelected_objects. unfold inactive, addShape, create,
    setActiveObject, add, set_active, set_objects. cbn [objects active oid].
  rewrite List.filter_app. cbn [List.filter oid].
  rewrite bool_decide_eq_true_2 by apply list_elem_of_here. cbn [negb].
  rewrite app_nil_r. apply filter_all. intros x Hx.
  apply negb_true_iff, bool_decide_eq_false. intros Hin.
  apply list_elem_of_singleton in Hin. apply (oids_below c Hc) in Hx. lia.
Qed.

(** X26. At any point of a session on the canvas (any operations before
    and after the image has arrived), adding a text, a rectangle or a circle
    and pressing Delete right away gives back the object stack as it was:
    the new shape is the whole selection, so nothing else is removed. *)
Theorem shape_then_delete_restores (before after : list op) :
  let c := run after (imageLoaded (run before mounted)) in
  objects (deleteSelected (addText c)) = objects c
  ∧ objects (deleteSelected (addRectangle c)) = objects c
  ∧ objects (deleteSelected (addCircle c)) = objects c.
Proof.
  intros c.
  assert (tidy c) as Hc by apply tidy_run, tidy_imageLoaded, tidy_run, tidy_mounted.
  unfold addText, addRectangle, addCircle. by rewrite !addShape_then_delete.
Qed.

Lemma still_mounted : image_still mounted.
Proof. intros x Hx. by apply elem_of_nil in Hx. Qed.

Lemma still_fresh c c' o :
  image_still c → objects c' = objects c ++ [o] →
  (kind o = Image → selectable o = false ∧ angle o = 0%Z) →
  image_still c'.
Proof.
  intros Hc Hobjs Ho x Hx Hk. rewrite Hobjs in Hx.
  apply elem_of_app in Hx as [Hx|Hx]; [by apply Hc|].
  apply list_elem_of_singleton in Hx as ->. by apply Ho.
Qed.

Lemma still_same_objects c c' : image_still c → objects c' = objects c → image_still c'.
Proof. intros Hc Hobjs x Hx. rewrite Hobjs in Hx. by apply Hc. Qed.

Lemma still_addShape k c : k ≠ Image → image_still c → image_still (addShape k c).
Proof.
  intros Hk Hc. apply (still_fresh c _
    {| oid := next_oid c; kind := k; selectable := true; angle := 0 |}); done.
Qed.

Lemma still_step o c : tidy c → image_still c → image_still (step c o).
Proof.
  intros Ht Hc. destruct o as [t|targets| | | |]; cbn [step].
  - unfold handleToolClick, addText, addRectangle, addCircle.
    destruct t; try (apply still_addShape; [done|]); by apply (still_same_objects c).
  - apply (still_same_objects c); [done|]. unfold pointerSelect.
    by destruct (isDrawingMode c).
  - apply (still_same_objects c); [done|]. unfold selectAll, pointerSelect.
    by destruct (isDrawingMode c).
  - unfold brushStroke. destruct (isDrawingMode c); [|done].
    apply (still_fresh c _
      {| oid := next_oid c; kind := Path; selectable := true; angle := 0 |}); done.
  - intros y Hy Hk. unfold rotateImage in Hy. cbn [objects set_objects] in Hy.
    apply list_elem_of_fmap in Hy as (x & -> & Hx).
    destruct (decide (oid x ∈ active c)) as [Hin|Hnin].
    + rewrite bool_decide_eq_true_2 in Hk |- * by done. cbn [kind] in Hk.
      destruct (Hc x Hx Hk) as [Hsel _].
      rewrite (active_selectable c Ht x Hx Hin) in Hsel. done.
    + rewrite bool_decide_eq_false_2 in Hk |- * by done. by apply Hc.
  - intros x Hx. rewrite deleteSelected_objects in Hx. unfold inactive in Hx.
    apply elem_of_filter in Hx as [Hx _]. by apply Hc.
Qed.

Lemma still_run ops : ∀ c, tidy c → image_still c → image_still (run ops c).
Proof.
  induction ops as [|o ops IH]; intros c Ht Hc; [done|].
  cbn [run fold_left]. apply IH; [by apply tidy_step | by apply still_step].
Qed.

Lemma still_imageLoaded c : tidy c → image_still c → image_still (imageLoaded c).
Proof.
  intros Ht Hc. destruct (contextContainer c) eqn:Halive;
    [|unfold imageLoaded; by rewrite Halive].
  destruct (imageLoaded_objects c Ht Halive) as (Hobjs & _ & _).
  intros x Hx Hk. rewrite Hobjs in Hx.
  apply elem_of_cons in Hx as [->|Hx]; [done | by apply Hc].
Qed.

(** X27. The Rotate button never turns the image: at any point of a
    session the image is on the canvas, at the back, and every image on the
    canvas still has angle 0, whatever was selected when Rotate was
    pressed. *)
Theorem rotate_never_turns_image (before after : list op) :
  let c := run after (imageLoaded (run before mounted)) in
  (∃ bg, objects c !! 0 = Some bg ∧ kind bg = Image)
  ∧ ∀ x, x ∈ objects c → kind x = Image → angle x = 0%Z.
Proof.
  intros c.
  assert (tidy (run before mounted)) as Ht0 by apply tidy_run, tidy_mounted.
  assert (contextContainer (run before mounted) = true) as Halive by apply run_alive.
  assert (image_still (run before mounted)) as Hs0
    by (apply still_run; [apply tidy_mounted | apply still_mounted]).
  assert (tidy (imageLoaded (run before mounted))) as Ht1 by by apply tidy_imageLoaded.
  destruct (imageLoaded_objects _ Ht0 Halive) as (Hobjs & _ & _).
  split.
  - exists {| oid := next_oid (run before mounted); kind := Image;
              selectable := false; angle := 0 |}.
    split; [|done]. apply run_keeps_back; [done | by rewrite Hobjs | done].
  - intros x Hx Hk.
    by apply (still_run after (imageLoaded (run before mounted)) Ht1
                (still_imageLoaded _ Ht0 Hs0) x Hx Hk).
Qed.

Local Open Scope Q_scope.

Lemma fit_cases (w h : Q) :
  0 < w → 0 < h →
  let s := Qmin (ImageFit.canvas_width / w) (ImageFit.canvas_height / h) in
  0 < s ∧ w * s <= 800 ∧ h * s <= 600 ∧ (w * s == 800 ∨ h * s == 600).
Proof.
  intros Hw Hh s. unfold ImageFit.canvas_width, ImageFit.canvas_height in s.
  assert (¬ w == 0) as Hw0 by (intros E; rewrite E in Hw; by apply Qlt_irrefl in Hw).
  assert (¬ h == 0) as Hh0 by (intros E; rewrite E in Hh; by apply Qlt_irrefl in Hh).
  assert (w * (800 / w) == 800) as Ew by by apply Qmult_div_r.
  assert (h * (600 / h) == 600) as Eh by by apply Qmult_div_r.
  assert (0 < 800 / w) as Pw.
  { apply (Qmult_lt_l _ _ w Hw). rewrite Ew. lra. }
  assert (0 < 600 / h) as Ph.
  { apply (Qmult_lt_l _ _ h Hh). rewrite Eh. lra. }
  destruct (Q.min_spec (800 / w) (600 / h)) as [[Hlt Hs]|[Hle Hs]]; fold s in Hs.
  - assert (h * s <= 600) as Hb.
    { rewrite Hs, <- Eh. apply (Qmult_le_l _ _ h Hh). by apply Qlt_le_weak. }
    rewrite Hs. rewrite Hs in Hb. rewrite Ew.
    split; [done|]. split; [lra|]. split; [done|]. by left.
  - assert (w * s <= 800) as Hb.
    { rewrite Hs, <- Ew. by apply (Qmult_le_l _ _ w Hw). }
    rewrite Hs. rewrite Hs in Hb. rewrite Eh.
    split; [done|]. split; [done|]. split; [lra|]. by right.
Qed.

(** X28. An image of positive natural size is scaled by one factor for both
    axes, so that it fits the 800 by 600 canvas and spans it in at least one
    direction, and it is centred: the margins left and right are equal and
    not negative, and so are those above and below. (Over exact rationals.) *)
Theorem image_fits_canvas (width height : Q) :
  0 < width → 0 < height →
  let p := ImageFit.place width height in
  let w := width * ImageFit.scale p in
  let h := height * ImageFit.scale p in
  0 < ImageFit.scale p
  ∧ w <= 800 ∧ h <= 600 ∧ (w == 800 ∨ h == 600)
  ∧ 0 <= ImageFit.left p ∧ ImageFit.left p + w + ImageFit.left p == 800
  ∧ 0 <= ImageFit.top p ∧ ImageFit.top p + h + ImageFit.top p == 600.
Proof.
  intros Hw Hh p w h.
  destruct (fit_cases width height Hw Hh) as (Hs & Hfw & Hfh & Hspan).
  unfold w, h, p, ImageFit.place. cbn [ImageFit.scale ImageFit.left ImageFit.top].
  unfold ImageFit.canvas_width, ImageFit.canvas_height in *.
  set (s := Qmin (800 / width) (600 / height)) in *.
  set (a := width * s) in *. set (b := height * s) in *.
  split; [done|]. split; [done|]. split; [done|]. split; [done|].
  assert (/ 2 == 1 # 2) as Hhalf by reflexivity.
  unfold Qdiv. rewrite Hhalf. repeat split; lra.
Qed.

Lemma image_fits_canvas_witness :
  0 < 1600 ∧ 0 < 600
  ∧ ImageFit.scale (ImageFit.place 1600 600) == 1 # 2
  ∧ 0 <= ImageFit.top (ImageFit.place 1600 600).
Proof.
  assert (0 < 1600) as Hw by done. assert (0 < 600) as Hh by done.
  split; [exact Hw|]. split; [exact Hh|]. split; [by vm_compute|].
  exact (proj1 (proj2 (proj2 (proj2 (proj2 (proj2 (proj2
           (image_fits_canvas 1600 600 Hw Hh)))))))).
Defined.

End SceneExtra.
